(** * Carnivorous Teapot: the entity simulation of [game.js]

    A shallow embedding of the game's simulation core: the [Sprite] class and
    its subclasses, the global [gamestate], the phase switch [setGamePhase],
    the two per-tick passes [move] and [interact], and the [gameloop].

    Conventions of the embedding.
    - JavaScript numbers that hold positions, sizes and speeds are rationals
      ([Q]); counters, the score and the knife count are integers ([Z]).
    - Sprites are JavaScript objects that are shared by reference (the arrays
      [gamestate.sprites] and [gamestate.bgsprites], [gamestate.player],
      [gamestate.lamb]); the model keeps them in a store ([heap]) and the
      arrays hold references ([ref], an index of the store).
    - Code runs in a state monad over the [World] with two abnormal outcomes:
      [TypeError], the exception JavaScript raises on a property read of
      [undefined], and [Timeout], which only the bounded scan of [interact]
      could produce; [handle_terminates] shows that it never does.
    - [Math.random] reads an oracle ([rng]); image loading, key presses and
      clicks are events of the environment.
    - A sound is the name of its sample: [playSample] returns it, a sprite
      keeps it in [sound], and nothing else of the audio is modelled. *)

From Stdlib Require Import QArith ZArith String Ascii List DecimalString DecimalPos Lqa Sorted.
From stdpp Require Import base list.

Local Open Scope string_scope.

(** ** Outcomes and numbers *)

Inductive result (A : Type) : Type :=
| Ok (a : A)
| TypeError
| Timeout.
Arguments Ok {A} a.
Arguments TypeError {A}.
Arguments Timeout {A}.

(** The value of a JavaScript expression that is a boolean or [undefined]. *)
Inductive jsbool : Type :=
| JUndefined
| JBool (b : bool).

(** Truthiness, as [if (...)] tests it. *)
Definition truthy (v : jsbool) : bool :=
  match v with
  | JUndefined => false
  | JBool b => b
  end.

Definition Qltb (a b : Q) : bool := negb (Qle_bool b a).
Definition Qgtb (a b : Q) : bool := Qltb b a.

(** Size of the playfield in logical pixels. *)
Definition PLAYFIELD_WIDTH : Q := 500.
Definition PLAYFIELD_HEIGHT : Q := 500.
Definition ROAD_LINE_YS : list Q :=
  [ (PLAYFIELD_HEIGHT / 4) * 1; (PLAYFIELD_HEIGHT / 4) * 2; (PLAYFIELD_HEIGHT / 4) * 3 ]%Q.
Definition HISCORE_STORAGE_KEY : string := "hiScore_2".

(** ** Sprites *)

(** A reference to a sprite object. *)
Abbreviation ref := nat (only parsing).

(** A frame cut from the sprite sheet (the bitmap's handle). *)
Abbreviation Frame := nat (only parsing).

(** One entry [[frame_num, time_in_frames]] of an animation. *)
Abbreviation Step := (nat * Z)%type.
Abbreviation Animation := (list (nat * Z)).
Definition entry (frame_num : nat) (time_in_frames : Z) : Step := (frame_num, time_in_frames).

(** The classes of the game; a sprite's class fixes its methods. *)
Inductive Class : Type :=
| TitleScreen | ClickToStart | Credits | GameOverMessage | NewHiScore
| Player | Lamb | Broccoli | Onion | Knife | RoadLine | Sidewalk.

Inductive KnifeState : Type := STATE_GROUNDED | STATE_THROWN.

Module Rect.
(** [{x, y, w, h}]: a hitbox, relative to the sprite's position. *)
Record t : Type := mk { x : Q; y : Q; w : Q; h : Q }.
End Rect.

Module Sprite.

Record t : Type := mk {
  cls : Class;
  image_width : Q;        (* image.width: 0 until the image has loaded *)
  frameheight : Q;
  animations : list (string * Animation);
  animation : option Animation;   (* None: undefined *)
  animFrame : nat;
  animFrameStep : Z;
  ready : bool;
  frames : list Frame;
  x : Q;
  y : Q;
  hitbox : option Rect.t;
  sound : option string;          (* the sample this sprite is playing *)
  speed : Q;                      (* Player, Onion *)
  dead : bool;                    (* Lamb *)
  state : option KnifeState;      (* Knife *)
  velocity : Q * Q                (* Knife *)
}.

Definition set_animation v s := mk (cls s) (image_width s) (frameheight s) (animations s)
  v (animFrame s) (animFrameStep s) (ready s) (frames s) (x s) (y s) (hitbox s)
  (sound s) (speed s) (dead s) (state s) (velocity s).
Definition set_animFrame v s := mk (cls s) (image_width s) (frameheight s) (animations s)
  (animation s) v (animFrameStep s) (ready s) (frames s) (x s) (y s) (hitbox s)
  (sound s) (speed s) (dead s) (state s) (velocity s).
Definition set_animFrameStep v s := mk (cls s) (image_width s) (frameheight s) (animations s)
  (animation s) (animFrame s) v (ready s) (frames s) (x s) (y s) (hitbox s)
  (sound s) (speed s) (dead s) (state s) (velocity s).
Definition set_image_width v s := mk (cls s) v (frameheight s) (animations s)
  (animation s) (animFrame s) (animFrameStep s) (ready s) (frames s) (x s) (y s) (hitbox s)
  (sound s) (speed s) (dead s) (state s) (velocity s).
Definition set_ready v s := mk (cls s) (image_width s) (frameheight s) (animations s)
  (animation s) (animFrame s) (animFrameStep s) v (frames s) (x s) (y s) (hitbox s)
  (sound s) (speed s) (dead s) (state s) (velocity s).
Definition set_frames v s := mk (cls s) (image_width s) (frameheight s) (animations s)
  (animation s) (animFrame s) (animFrameStep s) (ready s) v (x s) (y s) (hitbox s)
  (sound s) (speed s) (dead s) (state s) (velocity s).
Definition set_x v s := mk (cls s) (image_width s) (frameheight s) (animations s)
  (animation s) (animFrame s) (animFrameStep s) (ready s) (frames s) v (y s) (hitbox s)
  (sound s) (speed s) (dead s) (state s) (velocity s).
Definition set_y v s := mk (cls s) (image_width s) (frameheight s) (animations s)
  (animation s) (animFrame s) (animFrameStep s) (ready s) (frames s) (x s) v (hitbox s)
  (sound s) (speed s) (dead s) (state s) (velocity s).
Definition set_hitbox v s := mk (cls s) (image_width s) (frameheight s) (animations s)
  (animation s) (animFrame s) (animFrameStep s) (ready s) (frames s) (x s) (y s) v
  (sound s) (speed s) (dead s) (state s) (velocity s).
Definition set_sound v s := mk (cls s) (image_width s) (frameheight s) (animations s)
  (animation s) (animFrame s) (animFrameStep s) (ready s) (frames s) (x s) (y s) (hitbox s)
  v (speed s) (dead s) (state s) (velocity s).
Definition set_speed v s := mk (cls s) (image_width s) (frameheight s) (animations s)
  (animation s) (animFrame s) (animFrameStep s) (ready s) (frames s) (x s) (y s) (hitbox s)
  (sound s) v (dead s) (state s) (velocity s).
Definition set_dead v s := mk (cls s) (image_width s) (frameheight s) (animations s)
  (animation s) (animFrame s) (animFrameStep s) (ready s) (frames s) (x s) (y s) (hitbox s)
  (sound s) (speed s) v (state s) (velocity s).
Definition set_state v s := mk (cls s) (image_width s) (frameheight s) (animations s)
  (animation s) (animFrame s) (animFrameStep s) (ready s) (frames s) (x s) (y s) (hitbox s)
  (sound s) (speed s) (dead s) v (velocity s).
Definition set_velocity v s := mk (cls s) (image_width s) (frameheight s) (animations s)
  (animation s) (animFrame s) (animFrameStep s) (ready s) (frames s) (x s) (y s) (hitbox s)
  (sound s) (speed s) (dead s) (state s) v.

(** [this.name], as each class's constructor passes it to [super]; no code
    assigns it again. *)
Definition name (s : t) : string :=
  match cls s with
  | TitleScreen => "TitleScreen"
  | ClickToStart => "ClickToStart"
  | Credits => "Credits"
  | GameOverMessage => "GameOver"
  | NewHiScore => "NewHiScore"
  | Player => "Player"
  | Lamb => "Lamb"
  | Broccoli => "Broccoli"
  | Onion => "Onion"
  | Knife => "Knife"
  | RoadLine => "Road Line"
  | Sidewalk => "Sidewalk"
  end.

(** [this.animations[name]] *)
Fixpoint lookup_animation (key : string) (anims : list (string * Animation))
  : option Animation :=
  match anims with
  | [] => None
  | (k, a) :: rest => if String.eqb k key then Some a else lookup_animation key rest
  end.

Definition setAnimation (key : string) (s : t) : t :=
  set_animFrameStep 0 (set_animFrame 0 (set_animation (lookup_animation key (animations s)) s)).

(** [constructor(name, imgsrc, frameheight, animations)]: the image has not
    loaded yet, so its width is 0, there are no frames and no default
    hitbox. *)
Definition new (c : Class) (fh : Q) (anims : list (string * Animation)) : t :=
  let s := mk c 0 fh anims None 0 0 false [] 0 0 None None 0 false None (0, 0)%Q in
  match anims with
  | [] => s
  | (k, _) :: _ => setAnimation k s
  end.

(** [nextFrame()]: [None] as a frame stands for [null] and [undefined],
    which [render] does not tell apart ([image == null]). *)
Definition nextFrame (s : t) : result (option Frame * t) :=
  if negb (ready s) then Ok (None, s)
  else
    match animation s with
    | None => TypeError
    | Some anim =>
      match anim !! animFrame s with
      | None => TypeError
      | Some current =>
        let s1 :=
          if (current.2 <=? animFrameStep s)%Z then
            let s' := set_animFrame (S (animFrame s)) (set_animFrameStep 0 s) in
            if (length anim <=? animFrame s')%nat then set_animFrame 0 s' else s'
          else s in
        match anim !! animFrame s1 with
        | None => TypeError
        | Some shown =>
          Ok (frames s1 !! shown.1, set_animFrameStep (animFrameStep s1 + 1) s1)
        end
      end
    end.

Definition silence (s : t) : t :=
  match sound s with
  | Some _ => set_sound None s
  | None => s
  end.

Definition isOnScreen (s : t) : bool :=
  if Qgtb (x s) PLAYFIELD_WIDTH || Qltb (x s) (- image_width s) then false
  else if Qgtb (y s) PLAYFIELD_HEIGHT || Qltb (y s) (- frameheight s) then false
  else true.

Definition ensureFullyOnScreen (s : t) : t :=
  if negb (ready s) then s
  else
    let s := if Qltb (x s) 0 then set_x 0 s else s in
    let s := if Qgtb (x s) (PLAYFIELD_WIDTH - image_width s)
             then set_x (PLAYFIELD_WIDTH - image_width s) s else s in
    let s := if Qltb (y s) 0 then set_y 0 s else s in
    let s := if Qgtb (y s) (PLAYFIELD_HEIGHT - frameheight s)
             then set_y (PLAYFIELD_HEIGHT - frameheight s) s else s in
    s.

(** [intersects(other)]: the bare [return;] of the first line yields
    [undefined]. *)
Definition intersects (this other : t) : jsbool :=
  match hitbox this, hitbox other with
  | Some hb1, Some hb2 =>
    let rect1 := Rect.mk (x this + Rect.x hb1) (y this + Rect.y hb1) (Rect.w hb1) (Rect.h hb1) in
    let rect2 := Rect.mk (x other + Rect.x hb2) (y other + Rect.y hb2) (Rect.w hb2) (Rect.h hb2) in
    JBool (Qltb (Rect.x rect1) (Rect.x rect2 + Rect.w rect2) &&
           Qgtb (Rect.x rect1 + Rect.w rect1) (Rect.x rect2) &&
           Qltb (Rect.y rect1) (Rect.y rect2 + Rect.h rect2) &&
           Qgtb (Rect.h rect1 + Rect.y rect1) (Rect.y rect2))
  | _, _ => JUndefined
  end.

End Sprite.

(** ** The game state *)

Inductive Phase : Type := PHASE_ATTRACT | PHASE_RUNNING | PHASE_GAME_OVER.

Module Inputs.
(** [gamestate.inputs]; a flag that was never set ([fire] after a reset) reads
    as [undefined], which the code only tests for truth. *)
Record t : Type := mk { left : bool; right : bool; down : bool; up : bool; fire : bool }.
Definition set_left v i := mk v (right i) (down i) (up i) (fire i).
Definition set_right v i := mk (left i) v (down i) (up i) (fire i).
Definition set_down v i := mk (left i) (right i) v (up i) (fire i).
Definition set_up v i := mk (left i) (right i) (down i) v (fire i).
Definition set_fire v i := mk (left i) (right i) (down i) (up i) v.
End Inputs.

Module GameState.

Record t : Type := mk {
  phase : Phase;
  frameDelay : Z;
  bgsprites : list ref;
  sprites : list ref;
  inputs : Inputs.t;
  player : option ref;
  teabags : Z;
  knives : Z;
  score : Z;
  knifeThrowCooldown : Z;
  lamb : option ref;
  lambSpeed : Q;
  roadSpeed : Q;
  broccoliFrequency : Z;
  nextBroccoli : Z;
  onionFrequency : Z;
  minOnionScore : Z;
  nextOnion : Z;
  onionSpeed : Q;
  knifeFrequency : Z;
  nextKnife : Z;
  roadLineFrequency : Z;
  nextRoadLine : Z;
  sidewalkFrequency : Z;
  nextSidewalk : Z;
  gameOverMusicDelay : Z
}.

Definition set_phase v g := mk v (frameDelay g) (bgsprites g) (sprites g) (inputs g)
  (player g) (teabags g) (knives g) (score g) (knifeThrowCooldown g) (lamb g) (lambSpeed g)
  (roadSpeed g) (broccoliFrequency g) (nextBroccoli g) (onionFrequency g) (minOnionScore g)
  (nextOnion g) (onionSpeed g) (knifeFrequency g) (nextKnife g) (roadLineFrequency g)
  (nextRoadLine g) (sidewalkFrequency g) (nextSidewalk g) (gameOverMusicDelay g).
Definition set_frameDelay v g := mk (phase g) v (bgsprites g) (sprites g) (inputs g)
  (player g) (teabags g) (knives g) (score g) (knifeThrowCooldown g) (lamb g) (lambSpeed g)
  (roadSpeed g) (broccoliFrequency g) (nextBroccoli g) (onionFrequency g) (minOnionScore g)
  (nextOnion g) (onionSpeed g) (knifeFrequency g) (nextKnife g) (roadLineFrequency g)
  (nextRoadLine g) (sidewalkFrequency g) (nextSidewalk g) (gameOverMusicDelay g).
Definition set_bgsprites v g := mk (phase g) (frameDelay g) v (sprites g) (inputs g)
  (player g) (teabags g) (knives g) (score g) (knifeThrowCooldown g) (lamb g) (lambSpeed g)
  (roadSpeed g) (broccoliFrequency g) (nextBroccoli g) (onionFrequency g) (minOnionScore g)
  (nextOnion g) (onionSpeed g) (knifeFrequency g) (nextKnife g) (roadLineFrequency g)
  (nextRoadLine g) (sidewalkFrequency g) (nextSidewalk g) (gameOverMusicDelay g).
Definition set_sprites v g := mk (phase g) (frameDelay g) (bgsprites g) v (inputs g)
  (player g) (teabags g) (knives g) (score g) (knifeThrowCooldown g) (lamb g) (lambSpeed g)
  (roadSpeed g) (broccoliFrequency g) (nextBroccoli g) (onionFrequency g) (minOnionScore g)
  (nextOnion g) (onionSpeed g) (knifeFrequency g) (nextKnife g) (roadLineFrequency g)
  (nextRoadLine g) (sidewalkFrequency g) (nextSidewalk g) (gameOverMusicDelay g).
Definition set_inputs v g := mk (phase g) (frameDelay g) (bgsprites g) (sprites g) v
  (player g) (teabags g) (knives g) (score g) (knifeThrowCooldown g) (lamb g) (lambSpeed g)
  (roadSpeed g) (broccoliFrequency g) (nextBroccoli g) (onionFrequency g) (minOnionScore g)
  (nextOnion g) (onionSpeed g) (knifeFrequency g) (nextKnife g) (roadLineFrequency g)
  (nextRoadLine g) (sidewalkFrequency g) (nextSidewalk g) (gameOverMusicDelay g).
Definition set_player v g := mk (phase g) (frameDelay g) (bgsprites g) (sprites g)
  (inputs g) v (teabags g) (knives g) (score g) (knifeThrowCooldown g) (lamb g)
  (lambSpeed g) (roadSpeed g) (broccoliFrequency g) (nextBroccoli g) (onionFrequency g)
  (minOnionScore g) (nextOnion g) (onionSpeed g) (knifeFrequency g) (nextKnife g)
  (roadLineFrequency g) (nextRoadLine g) (sidewalkFrequency g) (nextSidewalk g)
  (gameOverMusicDelay g).
Definition set_knives v g := mk (phase g) (frameDelay g) (bgsprites g) (sprites g)
  (inputs g) (player g) (teabags g) v (score g) (knifeThrowCooldown g) (lamb g)
  (lambSpeed g) (roadSpeed g) (broccoliFrequency g) (nextBroccoli g) (onionFrequency g)
  (minOnionScore g) (nextOnion g) (onionSpeed g) (knifeFrequency g) (nextKnife g)
  (roadLineFrequency g) (nextRoadLine g) (sidewalkFrequency g) (nextSidewalk g)
  (gameOverMusicDelay g).
Definition set_score v g := mk (phase g) (frameDelay g) (bgsprites g) (sprites g) (inputs g)
  (player g) (teabags g) (knives g) v (knifeThrowCooldown g) (lamb g) (lambSpeed g)
  (roadSpeed g) (broccoliFrequency g) (nextBroccoli g) (onionFrequency g) (minOnionScore g)
  (nextOnion g) (onionSpeed g) (knifeFrequency g) (nextKnife g) (roadLineFrequency g)
  (nextRoadLine g) (sidewalkFrequency g) (nextSidewalk g) (gameOverMusicDelay g).
Definition set_knifeThrowCooldown v g := mk (phase g) (frameDelay g) (bgsprites g)
  (sprites g) (inputs g) (player g) (teabags g) (knives g) (score g) v (lamb g)
  (lambSpeed g) (roadSpeed g) (broccoliFrequency g) (nextBroccoli g) (onionFrequency g)
  (minOnionScore g) (nextOnion g) (onionSpeed g) (knifeFrequency g) (nextKnife g)
  (roadLineFrequency g) (nextRoadLine g) (sidewalkFrequency g) (nextSidewalk g)
  (gameOverMusicDelay g).
Definition set_lamb v g := mk (phase g) (frameDelay g) (bgsprites g) (sprites g) (inputs g)
  (player g) (teabags g) (knives g) (score g) (knifeThrowCooldown g) v (lambSpeed g)
  (roadSpeed g) (broccoliFrequency g) (nextBroccoli g) (onionFrequency g) (minOnionScore g)
  (nextOnion g) (onionSpeed g) (knifeFrequency g) (nextKnife g) (roadLineFrequency g)
  (nextRoadLine g) (sidewalkFrequency g) (nextSidewalk g) (gameOverMusicDelay g).
Definition set_nextBroccoli v g := mk (phase g) (frameDelay g) (bgsprites g) (sprites g)
  (inputs g) (player g) (teabags g) (knives g) (score g) (knifeThrowCooldown g) (lamb g)
  (lambSpeed g) (roadSpeed g) (broccoliFrequency g) v (onionFrequency g) (minOnionScore g)
  (nextOnion g) (onionSpeed g) (knifeFrequency g) (nextKnife g) (roadLineFrequency g)
  (nextRoadLine g) (sidewalkFrequency g) (nextSidewalk g) (gameOverMusicDelay g).
Definition set_nextOnion v g := mk (phase g) (frameDelay g) (bgsprites g) (sprites g)
  (inputs g) (player g) (teabags g) (knives g) (score g) (knifeThrowCooldown g) (lamb g)
  (lambSpeed g) (roadSpeed g) (broccoliFrequency g) (nextBroccoli g) (onionFrequency g)
  (minOnionScore g) v (onionSpeed g) (knifeFrequency g) (nextKnife g) (roadLineFrequency g)
  (nextRoadLine g) (sidewalkFrequency g) (nextSidewalk g) (gameOverMusicDelay g).
Definition set_nextKnife v g := mk (phase g) (frameDelay g) (bgsprites g) (sprites g)
  (inputs g) (player g) (teabags g) (knives g) (score g) (knifeThrowCooldown g) (lamb g)
  (lambSpeed g) (roadSpeed g) (broccoliFrequency g) (nextBroccoli g) (onionFrequency g)
  (minOnionScore g) (nextOnion g) (onionSpeed g) (knifeFrequency g) v (roadLineFrequency g)
  (nextRoadLine g) (sidewalkFrequency g) (nextSidewalk g) (gameOverMusicDelay g).
Definition set_nextRoadLine v g := mk (phase g) (frameDelay g) (bgsprites g) (sprites g)
  (inputs g) (player g) (teabags g) (knives g) (score g) (knifeThrowCooldown g) (lamb g)
  (lambSpeed g) (roadSpeed g) (broccoliFrequency g) (nextBroccoli g) (onionFrequency g)
  (minOnionScore g) (nextOnion g) (onionSpeed g) (knifeFrequency g) (nextKnife g)
  (roadLineFrequency g) v (sidewalkFrequency g) (nextSidewalk g) (gameOverMusicDelay g).
Definition set_nextSidewalk v g := mk (phase g) (frameDelay g) (bgsprites g) (sprites g)
  (inputs g) (player g) (teabags g) (knives g) (score g) (knifeThrowCooldown g) (lamb g)
  (lambSpeed g) (roadSpeed g) (broccoliFrequency g) (nextBroccoli g) (onionFrequency g)
  (minOnionScore g) (nextOnion g) (onionSpeed g) (knifeFrequency g) (nextKnife g)
  (roadLineFrequency g) (nextRoadLine g) (sidewalkFrequency g) v (gameOverMusicDelay g).
Definition set_gameOverMusicDelay v g := mk (phase g) (frameDelay g) (bgsprites g)
  (sprites g) (inputs g) (player g) (teabags g) (knives g) (score g) (knifeThrowCooldown g)
  (lamb g) (lambSpeed g) (roadSpeed g) (broccoliFrequency g) (nextBroccoli g)
  (onionFrequency g) (minOnionScore g) (nextOnion g) (onionSpeed g) (knifeFrequency g)
  (nextKnife g) (roadLineFrequency g) (nextRoadLine g) (sidewalkFrequency g)
  (nextSidewalk g) v.

End GameState.

(** ** The world: the store of sprites and the global variables *)

(** One [ctx.drawImage(image, x, y)]. *)
Definition Draw : Type := (Frame * Q * Q)%type.

Record World : Type := mkWorld {
  heap : list Sprite.t;                  (* the sprite objects, by reference *)
  gamestate : GameState.t;
  hiScore : Z;
  localStorage : option (option string); (* None: no storage; the stored item *)
  currentBgMusic : option string;
  ready : bool;
  rng : list Q;                          (* the coming values of Math.random() *)
  canvas : list Draw                     (* drawn since the last clearRect *)
}.

Definition set_heap v w := mkWorld v (gamestate w) (hiScore w) (localStorage w)
  (currentBgMusic w) (ready w) (rng w) (canvas w).
Definition set_gamestate v w := mkWorld (heap w) v (hiScore w) (localStorage w)
  (currentBgMusic w) (ready w) (rng w) (canvas w).
Definition set_hiScore v w := mkWorld (heap w) (gamestate w) v (localStorage w)
  (currentBgMusic w) (ready w) (rng w) (canvas w).
Definition set_localStorage v w := mkWorld (heap w) (gamestate w) (hiScore w) v
  (currentBgMusic w) (ready w) (rng w) (canvas w).
Definition set_currentBgMusic v w := mkWorld (heap w) (gamestate w) (hiScore w)
  (localStorage w) v (ready w) (rng w) (canvas w).
Definition set_ready v w := mkWorld (heap w) (gamestate w) (hiScore w) (localStorage w)
  (currentBgMusic w) v (rng w) (canvas w).
Definition set_rng v w := mkWorld (heap w) (gamestate w) (hiScore w) (localStorage w)
  (currentBgMusic w) (ready w) v (canvas w).
Definition set_canvas v w := mkWorld (heap w) (gamestate w) (hiScore w) (localStorage w)
  (currentBgMusic w) (ready w) (rng w) v.

(** ** The monad of the game code *)

Definition M (A : Type) : Type := World -> result (A * World).

Definition ret {A} (a : A) : M A := fun w => Ok (a, w).

Definition bind {A B} (m : M A) (k : A -> M B) : M B :=
  fun w =>
    match m w with
    | Ok (a, w') => k a w'
    | TypeError => TypeError
    | Timeout => Timeout
    end.

Declare Scope game_scope.
Delimit Scope game_scope with game.
Notation "'let*' x ':=' m 'in' k" := (bind m (fun x => k))
  (at level 10, x name, m at level 100, k at level 200) : game_scope.
Local Open Scope game_scope.

Definition throw {A} : M A := fun _ => TypeError.
Definition timeout {A} : M A := fun _ => Timeout.
Definition gets {A} (f : World -> A) : M A := fun w => Ok (f w, w).
Definition modify (f : World -> World) : M unit := fun w => Ok (tt, f w).
Definition when (b : bool) (m : M unit) : M unit := if b then m else ret tt.

(** Reading and writing an object through a reference. *)
Definition deref (r : ref) : M Sprite.t :=
  fun w =>
    match heap w !! r with
    | Some s => Ok (s, w)
    | None => TypeError
    end.

Definition update (r : ref) (f : Sprite.t -> Sprite.t) : M unit :=
  let* s := deref r in modify (fun w => set_heap (<[r := f s]> (heap w)) w).

(** [new C(...)]: the object gets a reference that no other object has. *)
Definition alloc (s : Sprite.t) : M ref :=
  fun w => Ok (length (heap w), set_heap (heap w ++ [s]) w).

Definition modify_gs (f : GameState.t -> GameState.t) : M unit :=
  modify (fun w => set_gamestate (f (gamestate w)) w).

(** [Math.random()] *)
Definition Math_random : M Q :=
  fun w =>
    match rng w with
    | [] => Ok (0%Q, w)
    | r :: rest => Ok (r, set_rng rest w)
    end.

(** The two arrays of sprites. *)
Inductive Coll : Type := Bgsprites | Sprites.

Definition coll (c : Coll) (w : World) : list ref :=
  match c with
  | Bgsprites => GameState.bgsprites (gamestate w)
  | Sprites => GameState.sprites (gamestate w)
  end.

Definition set_coll (c : Coll) (l : list ref) : M unit :=
  match c with
  | Bgsprites => modify_gs (GameState.set_bgsprites l)
  | Sprites => modify_gs (GameState.set_sprites l)
  end.

(** [array.push(r)] and [array.splice(i, 1)] *)
Definition push (c : Coll) (r : ref) : M unit :=
  let* l := gets (coll c) in set_coll c (l ++ [r]).

Definition splice (c : Coll) (i : nat) : M unit :=
  let* l := gets (coll c) in set_coll c (delete i l).

(** ** Sound *)

Definition sounds : list string :=
  [ "schwing"; "throw"; "outtaknives"; "onionthrow"; "lambkill"; "teapotdeath";
    "runningmusic"; "attractmusic"; "gameovermusic" ].

(** [playSample(name)]: the source node that plays the sample, [undefined]
    for a name that is not in the table. *)
Definition playSample (name : string) : option string :=
  if existsb (String.eqb name) sounds then Some name else None.

Definition setMusic (name : option string) : M unit :=
  modify (set_currentBgMusic
            match name with
            | None => None
            | Some n => playSample n
            end).


(** ** The classes *)

Definition KNIFE_COOLDOWN_FRAMES : Z := 20.

Definition new_TitleScreen : Sprite.t :=
  let s := Sprite.new TitleScreen 320 [("idle", [entry 0 500])] in
  let s := Sprite.set_x (PLAYFIELD_WIDTH / 2 - 380 / 2) s in
  Sprite.set_y (PLAYFIELD_HEIGHT / 2 - Sprite.frameheight s / 2) s.

Definition new_ClickToStart : Sprite.t :=
  let s := Sprite.new ClickToStart 16
    [("idle", [entry 3 4; entry 4 4; entry 3 4; entry 4 4;
               entry 0 6; entry 1 6; entry 2 6;
               entry 3 4; entry 4 4; entry 3 4; entry 4 4])] in
  let s := Sprite.set_x (PLAYFIELD_WIDTH / 2 - 256 / 2) s in
  Sprite.set_y (PLAYFIELD_HEIGHT / 2 - Sprite.frameheight s / 2) s.

Definition new_Credits : Sprite.t :=
  let s := Sprite.new Credits 16
    [("credits", [entry 0 20; entry 1 20; entry 2 20; entry 3 20; entry 4 20])] in
  let s := Sprite.set_x (PLAYFIELD_WIDTH / 2 - 400 / 2) s in
  Sprite.set_y (PLAYFIELD_HEIGHT / 2 + 380 / 2) s.

Definition new_GameOverMessage : Sprite.t :=
  let s := Sprite.new GameOverMessage 48 [("idle", [entry 0 500])] in
  let s := Sprite.set_x (PLAYFIELD_WIDTH / 2 - 304 / 2) s in
  let s := Sprite.set_y (PLAYFIELD_HEIGHT / 2 - Sprite.frameheight s / 2) s in
  Sprite.set_sound (playSample "teapotdeath") s.

Definition new_NewHiScore : Sprite.t :=
  let s := Sprite.new NewHiScore 16 [("flashing", [entry 0 5; entry 1 5])] in
  let s := Sprite.set_x (PLAYFIELD_WIDTH / 2 - 240 / 2) s in
  Sprite.set_y (PLAYFIELD_HEIGHT / 2 - Sprite.frameheight s / 2 + 60) s.

Definition new_Player : Sprite.t :=
  let s := Sprite.new Player 32
    [("idle", [entry 0 50]);
     ("walking", [entry 1 5; entry 2 5]);
     ("dead", [entry 3 500]);
     ("wielding", [entry 4 5; entry 5 5; entry 6 5; entry 7 5])] in
  let s := Sprite.setAnimation "wielding" s in
  let s := Sprite.set_x (PLAYFIELD_WIDTH / 4) s in
  let s := Sprite.set_y (PLAYFIELD_HEIGHT / 2) s in
  let s := Sprite.set_speed 2.5 s in
  Sprite.set_hitbox (Some (Rect.mk 6 4 22 21)) s.

(** [new Lamb()], [random] being the value [Math.random()] returns. *)
Definition new_Lamb (random : Q) : Sprite.t :=
  let s := Sprite.new Lamb 32
    [("idle", [entry 0 50]);
     ("running", [entry 1 5; entry 2 5; entry 3 5]);
     ("dead", [entry 4 500])] in
  let s := Sprite.setAnimation "running" s in
  let s := Sprite.set_x PLAYFIELD_WIDTH s in
  let s := Sprite.set_y (random * (PLAYFIELD_HEIGHT - Sprite.frameheight s)) s in
  Sprite.set_dead false s.

Definition new_Broccoli (random : Q) : Sprite.t :=
  let s := Sprite.new Broccoli 32 [("idle", [entry 0 50])] in
  let s := Sprite.set_x PLAYFIELD_WIDTH s in
  let s := Sprite.set_y (random * (PLAYFIELD_HEIGHT - Sprite.frameheight s)) s in
  Sprite.set_hitbox (Some (Rect.mk 10 6 12 16)) s.

(** [new Onion()] reads the player's position and [gamestate.onionSpeed]. *)
Definition new_Onion (player : Sprite.t) (onionSpeed : Q) : Sprite.t :=
  let s := Sprite.new Onion 32
    [("rolling", [entry 0 5; entry 1 5; entry 2 5; entry 3 5])] in
  let s := Sprite.set_x (Sprite.x player) s in
  let s :=
    if Qltb (Sprite.y player) (PLAYFIELD_HEIGHT / 2)
    then Sprite.set_speed (- onionSpeed) (Sprite.set_y PLAYFIELD_HEIGHT s)
    else Sprite.set_speed onionSpeed (Sprite.set_y (- (Sprite.frameheight s - 1)) s) in
  Sprite.set_hitbox (Some (Rect.mk 6 6 20 21)) s.

(** [Knife.setState(newState)] *)
Definition Knife_setState (newState : KnifeState) (s : Sprite.t) : Sprite.t :=
  let s :=
    match newState with
    | STATE_GROUNDED => Sprite.silence (Sprite.setAnimation "grounded" s)
    | STATE_THROWN =>
      Sprite.set_sound (playSample "throw") (Sprite.silence (Sprite.setAnimation "thrown" s))
    end in
  Sprite.set_state (Some newState) s.

Definition new_Knife (initialState : KnifeState) (random : Q) : Sprite.t :=
  let s := Sprite.new Knife 32
    [("grounded", [entry 0 50]);
     ("thrown", [entry 0 2; entry 1 2; entry 2 2; entry 3 2])] in
  let s := Sprite.set_x PLAYFIELD_WIDTH s in
  let s := Sprite.set_y (random * PLAYFIELD_HEIGHT - Sprite.frameheight s) s in
  let s := Sprite.set_hitbox (Some (Rect.mk 6 5 9 9)) s in
  let s := Knife_setState initialState s in
  Sprite.set_velocity (6, 0)%Q s.

Definition new_RoadLine (y : Q) : Sprite.t :=
  let s := Sprite.new RoadLine 8 [("idle", [entry 0 500])] in
  let s := Sprite.set_x PLAYFIELD_WIDTH s in
  Sprite.set_y y s.

Definition new_Sidewalk : Sprite.t :=
  let s := Sprite.new Sidewalk 32 [("idle", [entry 0 500])] in
  let s := Sprite.set_x PLAYFIELD_WIDTH s in
  Sprite.set_y 0 s.

(** ** The initial game state and the phases *)

Definition INITIAL_GAMESTATE : GameState.t := {|
  GameState.phase := PHASE_ATTRACT;
  GameState.frameDelay := 10;
  GameState.bgsprites := [];
  GameState.sprites := [];
  GameState.inputs := Inputs.mk false false false false false;
  GameState.player := None;
  GameState.teabags := 3;
  GameState.knives := 3;
  GameState.score := 0;
  GameState.knifeThrowCooldown := KNIFE_COOLDOWN_FRAMES;
  GameState.lamb := None;
  GameState.lambSpeed := 1.5;
  GameState.roadSpeed := 3;
  GameState.broccoliFrequency := 40;
  GameState.nextBroccoli := 40;
  GameState.onionFrequency := 200;
  GameState.minOnionScore := 5000;
  GameState.nextOnion := 0;
  GameState.onionSpeed := 4;
  GameState.knifeFrequency := 400;
  GameState.nextKnife := 400;
  GameState.roadLineFrequency := 100;
  GameState.nextRoadLine := 0;
  GameState.sidewalkFrequency := 41;
  GameState.nextSidewalk := 0;
  GameState.gameOverMusicDelay := 50
|}.

(** [for (var s of sprites) s.silence()], over the array as it is when the
    loop starts ([silence] changes no array). *)
Fixpoint silence_all (l : list ref) : M unit :=
  match l with
  | [] => ret tt
  | r :: rest => let* _ := update r Sprite.silence in silence_all rest
  end.

Definition silenceAllSprites : M unit :=
  let* fg := gets (coll Sprites) in
  let* _ := silence_all fg in
  let* bg := gets (coll Bgsprites) in
  silence_all bg.

(** The decimal numeral of a score, as [("" + gamestate.score)] gives it. *)
Definition string_of_number (n : Z) : string := NilZero.string_of_int (Z.to_int n).

Definition setGamePhase (newPhase : Phase) : M unit :=
  match newPhase with
  | PHASE_ATTRACT =>
    let* _ := silenceAllSprites in
    let* _ := setMusic (Some "attractmusic") in
    let* _ := modify_gs (GameState.set_phase newPhase) in
    let* _ := modify_gs (GameState.set_sprites []) in
    let* r := alloc new_TitleScreen in
    let* _ := push Sprites r in
    let* r := alloc new_ClickToStart in
    let* _ := push Sprites r in
    let* r := alloc new_Credits in
    let* _ := push Sprites r in
    modify_gs (GameState.set_frameDelay 100)
  | PHASE_RUNNING =>
    let* _ := setMusic (Some "runningmusic") in
    let* _ := modify (set_gamestate INITIAL_GAMESTATE) in
    let* _ := modify_gs (GameState.set_phase newPhase) in
    let* r := alloc new_Player in
    let* _ := modify_gs (GameState.set_player (Some r)) in
    push Sprites r
  | PHASE_GAME_OVER =>
    let* _ := silenceAllSprites in
    let* _ := setMusic None in
    let* _ := modify_gs (GameState.set_phase newPhase) in
    let* r := alloc new_GameOverMessage in
    let* _ := push Sprites r in
    let* _ := modify_gs (GameState.set_frameDelay 100) in
    let* w := gets id in
    if (hiScore w <? GameState.score (gamestate w))%Z then
      let* _ := modify (set_hiScore (GameState.score (gamestate w))) in
      let* r := alloc new_NewHiScore in
      let* _ := push Sprites r in
      match localStorage w with
      | Some _ =>
        modify (set_localStorage (Some (Some (string_of_number (GameState.score (gamestate w))))))
      | None => ret tt
      end
    else ret tt
  end.

(** ** Methods of the subclasses *)

(** [Player.spendKnife(soundOnFail)] *)
Definition Player_spendKnife (this : ref) (soundOnFail : bool) : M bool :=
  let* g := gets gamestate in
  if (GameState.knives g =? 0)%Z then
    let* _ := when soundOnFail (update this (Sprite.set_sound (playSample "outtaknives"))) in
    ret false
  else
    let* _ := modify_gs (fun g => GameState.set_knives (GameState.knives g - 1) g) in
    let* g := gets gamestate in
    let* _ := when (GameState.knives g =? 0)%Z (update this (Sprite.setAnimation "walking")) in
    ret true.

(** [Player.die()] *)
Definition Player_die (this : ref) : M unit :=
  let* _ := update this (Sprite.setAnimation "dead") in
  setGamePhase PHASE_GAME_OVER.

(** [Lamb.die()] *)
Definition Lamb_die (this : ref) : M unit :=
  let* _ := update this (Sprite.setAnimation "dead") in
  let* _ := update this (Sprite.set_dead true) in
  update this (Sprite.set_sound (playSample "lambkill")).

(** [other.die()]: only players and lambs have the method. *)
Definition die (this : ref) : M unit :=
  let* s := deref this in
  match Sprite.cls s with
  | Player => Player_die this
  | Lamb => Lamb_die this
  | _ => throw
  end.

(** The body of [if (this.spendKnife(true))] in [Player.move]: a thrown
    knife is created, pushed and placed at the player's side. *)
Definition Player_throw (this : ref) : M unit :=
  let* random := Math_random in
  let* knife := alloc (new_Knife STATE_THROWN random) in
  let* _ := push Sprites knife in
  let* s := deref this in
  match Sprite.hitbox s with
  | None => throw
  | Some hb =>
    let* _ := update knife (Sprite.set_x (Sprite.x s + Rect.w hb)) in
    update knife (Sprite.set_y (Sprite.y s))
  end.

(** [Player.move()] *)
Definition Player_move (this : ref) : M unit :=
  let* g := gets gamestate in
  let inputs := GameState.inputs g in
  let* _ := when (Inputs.left inputs)
              (update this (fun s => Sprite.set_x (Sprite.x s - Sprite.speed s) s)) in
  let* _ := when (Inputs.right inputs)
              (update this (fun s => Sprite.set_x (Sprite.x s + Sprite.speed s) s)) in
  let* _ := when (Inputs.up inputs)
              (update this (fun s => Sprite.set_y (Sprite.y s - Sprite.speed s) s)) in
  let* _ := when (Inputs.down inputs)
              (update this (fun s => Sprite.set_y (Sprite.y s + Sprite.speed s) s)) in
  let* _ :=
    when (Inputs.fire inputs)
      (let* g := gets gamestate in
       when (GameState.knifeThrowCooldown g =? 0)%Z
         (let* _ := modify_gs (GameState.set_knifeThrowCooldown KNIFE_COOLDOWN_FRAMES) in
          let* spent := Player_spendKnife this true in
          when spent (Player_throw this))) in
  update this Sprite.ensureFullyOnScreen.

(** [Lamb.move()] *)
Definition Lamb_move (this : ref) : M unit :=
  let* g := gets gamestate in
  update this (fun s =>
    if Sprite.dead s then Sprite.set_x (Sprite.x s - GameState.roadSpeed g) s
    else Sprite.set_x (Sprite.x s - GameState.lambSpeed g) s).

(** [Broccoli.move()], [RoadLine.move()], [Sidewalk.move()] *)
Definition road_move (this : ref) : M unit :=
  let* g := gets gamestate in
  update this (fun s => Sprite.set_x (Sprite.x s - GameState.roadSpeed g) s).

(** [Onion.move()] *)
Definition Onion_move (this : ref) : M unit :=
  update this (fun s => Sprite.set_y (Sprite.y s + Sprite.speed s) s).

(** [Knife.move()] *)
Definition Knife_move (this : ref) : M unit :=
  let* g := gets gamestate in
  update this (fun s =>
    match Sprite.state s with
    | Some STATE_GROUNDED => Sprite.set_x (Sprite.x s - GameState.roadSpeed g) s
    | Some STATE_THROWN =>
      let s := Sprite.set_x (Sprite.x s + (Sprite.velocity s).1) s in
      Sprite.set_y (Sprite.y s + (Sprite.velocity s).2) s
    | None => s
    end).

(** [s.move()], by the class of [s]; [Sprite.move] does nothing. *)
Definition sprite_move (this : ref) : M unit :=
  let* s := deref this in
  match Sprite.cls s with
  | Player => Player_move this
  | Lamb => Lamb_move this
  | Broccoli | RoadLine | Sidewalk => road_move this
  | Onion => Onion_move this
  | Knife => Knife_move this
  | _ => ret tt
  end.

(** [s.finished()]: [Knife.finished] silences a knife that is finished. *)
Definition sprite_finished (this : ref) : M bool :=
  let* s := deref this in
  let f := negb (Sprite.isOnScreen s) in
  match Sprite.cls s with
  | Knife =>
    let* _ := when f (update this Sprite.silence) in
    ret f
  | _ => ret f
  end.

(** [Player.interact(other)] *)
Definition Player_interact (this other : ref) : M unit :=
  let* o := deref other in
  let name := Sprite.name o in
  if String.eqb name "Broccoli" || String.eqb name "Onion" then
    let* t := deref this in
    when (truthy (Sprite.intersects t o)) (Player_die this)
  else if String.eqb name "Lamb" then
    let* t := deref this in
    when (truthy (Sprite.intersects t o))
      (if Sprite.dead o then ret tt
       else
         let* spent := Player_spendKnife this false in
         if negb spent then ret tt
         else
           let* _ := die other in
           modify_gs (fun g => GameState.set_score (GameState.score g + 1000) g))
  else if String.eqb name "Knife" then
    let* t := deref this in
    when (truthy (Sprite.intersects t o))
      (match Sprite.state o with
       | Some STATE_GROUNDED =>
         let* _ := modify_gs (fun g => GameState.set_knives (GameState.knives g + 1) g) in
         let* g := gets gamestate in
         let* _ := when (GameState.knives g =? 1)%Z
                     (update this (Sprite.setAnimation "wielding")) in
         let* _ := modify_gs (fun g => GameState.set_score (GameState.score g + 100) g) in
         update other (Sprite.set_x (-100))
       | _ => Player_die this
       end)
  else ret tt.

(** [Knife.interact(other)] *)
Definition Knife_interact (this other : ref) : M unit :=
  let* t := deref this in
  match Sprite.state t with
  | Some STATE_THROWN =>
    let* o := deref other in
    let name := Sprite.name o in
    if String.eqb name "Broccoli" || String.eqb name "Onion" then
      when (truthy (Sprite.intersects t o)) (update this (Knife_setState STATE_GROUNDED))
    else if String.eqb name "Lamb" then
      when (truthy (Sprite.intersects t o))
        (if Sprite.dead o then ret tt
         else
           let* _ := die other in
           let* _ := modify_gs (fun g => GameState.set_score (GameState.score g + 1000) g) in
           let* _ := update this (fun s =>
                       Sprite.set_velocity ((Sprite.velocity s).1 * -1, (Sprite.velocity s).2)%Q s) in
           let* random := Math_random in
           update this (fun s =>
             Sprite.set_velocity ((Sprite.velocity s).1, random * 4 - 2)%Q s))
    else ret tt
  | _ => ret tt
  end.

(** [s1.interact(s2)], by the class of [s1]; [Sprite.interact] does nothing. *)
Definition sprite_interact (s1 s2 : ref) : M unit :=
  let* s := deref s1 in
  match Sprite.cls s with
  | Player => Player_interact s1 s2
  | Knife => Knife_interact s1 s2
  | _ => ret tt
  end.

(** ** The two passes of a tick *)

(** [move(sprites)]: the loop [for (i = sprites.length - 1; i >= 0; i--)],
    [n] being [i + 1]. The value returned is the list of the sprites whose
    [move()] was called, in the order of the calls; the program does not
    compute it, it records the order of the visits. *)
Fixpoint move_loop (c : Coll) (n : nat) : M (list ref) :=
  match n with
  | O => ret []
  | S i =>
    let* sprites := gets (coll c) in
    match sprites !! i with
    | None => throw
    | Some s =>
      let* _ := sprite_move s in
      let* f := sprite_finished s in
      let* _ := when f (splice c i) in
      let* visited := move_loop c i in
      ret (s :: visited)
    end
  end.

Definition move (c : Coll) : M (list ref) :=
  let* sprites := gets (coll c) in
  move_loop c (length sprites).

(** [for (var s2 of sprites) s1.interact(s2)]: the iterator reads the array
    as it is at each step, so it also reaches the sprites that [s1.interact]
    pushes. [fuel] bounds the number of steps. *)
Fixpoint interact_scan (fuel : nat) (c : Coll) (s1 : ref) (k : nat) : M unit :=
  match fuel with
  | O => timeout
  | S fuel' =>
    let* sprites := gets (coll c) in
    match sprites !! k with
    | None => ret tt
    | Some s2 =>
      let* _ := sprite_interact s1 s2 in
      interact_scan fuel' c s1 (S k)
    end
  end.

(** A call of [interact] pushes at most two sprites (the two overlays of the
    game-over phase), and nothing reacts to those: three steps for each
    sprite of the array, and the step that finds the end. *)
Definition scan_fuel (sprites : list ref) : nat := 3 * length sprites + 1.

(** [interact(sprites)] *)
Fixpoint interact_loop (c : Coll) (n : nat) : M unit :=
  match n with
  | O => ret tt
  | S i =>
    let* sprites := gets (coll c) in
    match sprites !! i with
    | None => throw
    | Some s1 =>
      let* _ := interact_scan (scan_fuel sprites) c s1 0 in
      let* f := sprite_finished s1 in
      let* _ := when f (splice c i) in
      interact_loop c i
    end
  end.

Definition interact (c : Coll) : M unit :=
  let* sprites := gets (coll c) in
  interact_loop c (length sprites).

(** ** Rendering *)

(** [gamestate.sprites.sort((a, b) => a.y - b.y)]: the sort is stable, a
    sprite goes before the first one whose [y] is not smaller. *)
Fixpoint insert_by_y (k : Q) (r : ref) (l : list (Q * ref)) : list (Q * ref) :=
  match l with
  | [] => [(k, r)]
  | (k', r') :: rest =>
    if Qle_bool k k' then (k, r) :: l else (k', r') :: insert_by_y k r rest
  end.

Definition sort_by_y (l : list (Q * ref)) : list (Q * ref) :=
  foldr (fun kr acc => insert_by_y kr.1 kr.2 acc) [] l.

Fixpoint keys_y (l : list ref) : M (list (Q * ref)) :=
  match l with
  | [] => ret []
  | r :: rest =>
    let* s := deref r in
    let* ks := keys_y rest in
    ret ((Sprite.y s, r) :: ks)
  end.

(** [prepareRender()] *)
Definition prepareRender : M unit :=
  let* _ := modify (set_canvas []) in
  let* sprites := gets (coll Sprites) in
  let* keyed := keys_y sprites in
  set_coll Sprites (map snd (sort_by_y keyed)).

(** The body of the loop of [render]: [nextFrame()], and [drawImage] unless
    there is no frame. *)
Definition render_sprite (r : ref) : M unit :=
  let* s := deref r in
  match Sprite.nextFrame s with
  | Ok (image, s') =>
    let* _ := update r (fun _ => s') in
    match image with
    | None => ret tt
    | Some frame =>
      modify (fun w => set_canvas (canvas w ++ [(frame, Sprite.x s', Sprite.y s')]) w)
    end
  | TypeError => throw
  | Timeout => timeout
  end.

(** [render(ctx, sprites)] *)
Fixpoint render (l : list ref) : M unit :=
  match l with
  | [] => ret tt
  | r :: rest => let* _ := render_sprite r in render rest
  end.

(** ** The game loop *)

(** [for (var s of gamestate.sprites) ready &= s.ready] *)
Fixpoint all_ready (l : list ref) : M bool :=
  match l with
  | [] => ret true
  | r :: rest =>
    let* s := deref r in
    let* b := all_ready rest in
    ret (Sprite.ready s && b)
  end.

Fixpoint push_road_lines (ys : list Q) : M unit :=
  match ys with
  | [] => ret tt
  | y :: rest =>
    let* r := alloc (new_RoadLine y) in
    let* _ := push Bgsprites r in
    push_road_lines rest
  end.

(** The branch of [gameloop] for the running phase. *)
Definition running_tick : M unit :=
  (* new lamb? *)
  let* g := gets gamestate in
  let* gone :=
    match GameState.lamb g with
    | None => ret true
    | Some l => sprite_finished l
    end in
  let* _ :=
    when gone
      (let* random := Math_random in
       let* r := alloc (new_Lamb random) in
       let* _ := modify_gs (GameState.set_lamb (Some r)) in
       push Sprites r) in
  (* new broccoli? *)
  let* g := gets gamestate in
  let* _ := modify_gs (GameState.set_nextBroccoli (GameState.nextBroccoli g - 1)) in
  let* _ :=
    when (GameState.nextBroccoli g =? 0)%Z
      (let* _ := modify_gs (fun g =>
                   GameState.set_nextBroccoli (GameState.broccoliFrequency g) g) in
       let* random := Math_random in
       let* r := alloc (new_Broccoli random) in
       push Sprites r) in
  (* new road lines? *)
  let* g := gets gamestate in
  let* _ := modify_gs (GameState.set_nextRoadLine (GameState.nextRoadLine g - 1)) in
  let* _ :=
    when (GameState.nextRoadLine g =? 0)%Z
      (let* _ := modify_gs (fun g =>
                   GameState.set_nextRoadLine (GameState.roadLineFrequency g) g) in
       push_road_lines ROAD_LINE_YS) in
  (* new sidewalk? *)
  let* g := gets gamestate in
  let* _ := modify_gs (GameState.set_nextSidewalk (GameState.nextSidewalk g - 1)) in
  let* _ :=
    when (GameState.nextSidewalk g =? 0)%Z
      (let* _ := modify_gs (fun g =>
                   GameState.set_nextSidewalk (GameState.sidewalkFrequency g) g) in
       let* r := alloc new_Sidewalk in
       push Bgsprites r) in
  (* new onions? *)
  let* g := gets gamestate in
  let* _ :=
    when (GameState.minOnionScore g <? GameState.score g)%Z
      (let* _ := modify_gs (GameState.set_nextOnion (GameState.nextOnion g - 1)) in
       when (GameState.nextOnion g =? 0)%Z
         (match GameState.player g with
          | None => throw
          | Some p =>
            let* player := deref p in
            let* r := alloc (new_Onion player (GameState.onionSpeed g)) in
            let* _ := push Sprites r in
            modify_gs (fun g => GameState.set_nextOnion (GameState.onionFrequency g) g)
          end)) in
  (* new knife? *)
  let* g := gets gamestate in
  let* _ := modify_gs (GameState.set_nextKnife (GameState.nextKnife g - 1)) in
  let* _ :=
    when (GameState.nextKnife g =? 0)%Z
      (let* _ := modify_gs (fun g =>
                   GameState.set_nextKnife (GameState.knifeFrequency g) g) in
       let* random := Math_random in
       let* r := alloc (new_Knife STATE_GROUNDED random) in
       push Sprites r) in
  let* _ := modify_gs (fun g =>
              GameState.set_knifeThrowCooldown
                (Z.max (GameState.knifeThrowCooldown g - 1) 0) g) in
  let* _ := move Bgsprites in
  let* _ := move Sprites in
  interact Sprites.

(** The branch for the game-over phase. *)
Definition game_over_tick : M unit :=
  let* g := gets gamestate in
  let* _ := modify_gs (GameState.set_gameOverMusicDelay (GameState.gameOverMusicDelay g - 1)) in
  when (GameState.gameOverMusicDelay g =? 0)%Z (setMusic (Some "gameovermusic")).

(** The first lines of [gameloop]: until every sprite of the foreground has
    been ready once, the loop only waits. The value is [true] when the loop
    goes on. *)
Definition loaded : M bool :=
  let* was_ready := gets ready in
  if was_ready then ret true
  else
    let* sprites := gets (coll Sprites) in
    let* b := all_ready sprites in
    let* _ := modify (set_ready b) in
    ret b.

(** The last lines of [gameloop]; the status bar, which only draws, is left
    out. *)
Definition render_all : M unit :=
  let* _ := prepareRender in
  let* bg := gets (coll Bgsprites) in
  let* _ := render bg in
  let* fg := gets (coll Sprites) in
  render fg.

(** [gameloop()] *)
Definition gameloop : M unit :=
  let* go := loaded in
  if negb go then ret tt   (* still loading: try again later *)
  else
    let* g := gets gamestate in
    let* _ :=
      match GameState.phase g with
      | PHASE_ATTRACT => ret tt
      | PHASE_GAME_OVER => game_over_tick
      | PHASE_RUNNING => running_tick
      end in
    render_all.

(** ** Events *)

Definition KEY_SPACE : Z := 32.
Definition KEY_ENTER : Z := 13.
Definition KEY_RIGHTARROW : Z := 39.
Definition KEY_LEFTARROW : Z := 37.
Definition KEY_DOWNARROW : Z := 40.
Definition KEY_UPARROW : Z := 38.
Definition KEY_W : Z := 87.
Definition KEY_A : Z := 65.
Definition KEY_S : Z := 83.
Definition KEY_D : Z := 68.

Definition startGameAndSound : M unit :=
  let* g := gets gamestate in
  match GameState.phase g with
  | PHASE_ATTRACT => setGamePhase PHASE_RUNNING
  | PHASE_GAME_OVER => setGamePhase PHASE_ATTRACT
  | PHASE_RUNNING => ret tt
  end.

Definition set_input (f : Inputs.t -> Inputs.t) : M unit :=
  modify_gs (fun g => GameState.set_inputs (f (GameState.inputs g)) g).

Definition keydown (kc : Z) : M unit :=
  let* _ := when ((kc =? KEY_SPACE)%Z || (kc =? KEY_ENTER)%Z) startGameAndSound in
  if (kc =? KEY_RIGHTARROW)%Z || (kc =? KEY_D)%Z then set_input (Inputs.set_right true)
  else if (kc =? KEY_LEFTARROW)%Z || (kc =? KEY_A)%Z then set_input (Inputs.set_left true)
  else if (kc =? KEY_DOWNARROW)%Z || (kc =? KEY_S)%Z then set_input (Inputs.set_down true)
  else if (kc =? KEY_UPARROW)%Z || (kc =? KEY_W)%Z then set_input (Inputs.set_up true)
  else if (kc =? KEY_SPACE)%Z then set_input (Inputs.set_fire true)
  else ret tt.

Definition keyup (kc : Z) : M unit :=
  if (kc =? KEY_RIGHTARROW)%Z || (kc =? KEY_D)%Z then set_input (Inputs.set_right false)
  else if (kc =? KEY_LEFTARROW)%Z || (kc =? KEY_A)%Z then set_input (Inputs.set_left false)
  else if (kc =? KEY_DOWNARROW)%Z || (kc =? KEY_S)%Z then set_input (Inputs.set_down false)
  else if (kc =? KEY_UPARROW)%Z || (kc =? KEY_W)%Z then set_input (Inputs.set_up false)
  else if (kc =? KEY_SPACE)%Z then set_input (Inputs.set_fire false)
  else ret tt.

(** [image.onload]: the width of the image is known, and a sprite without a
    hitbox gets the whole frame as its hitbox. *)
Definition image_onload (r : ref) (width : Q) : M unit :=
  update r (fun s =>
    let s := Sprite.set_image_width width s in
    match Sprite.hitbox s with
    | Some _ => s
    | None => Sprite.set_hitbox (Some (Rect.mk 0 0 (Sprite.image_width s) (Sprite.frameheight s))) s
    end).

(** The frames cut from the sheet have been decoded. *)
Definition frames_decoded (r : ref) (frames : list Frame) : M unit :=
  update r (fun s => Sprite.set_ready true (Sprite.set_frames frames s)).

(** What happens to the game: a tick of the timer, the keyboard, the mouse,
    the loading of an image. *)
Inductive Event : Type :=
| Tick
| KeyDown (kc : Z)
| KeyUp (kc : Z)
| Click
| ImageLoaded (r : ref) (width : Q)
| FramesDecoded (r : ref) (frames : list Frame).

Definition handle (e : Event) : M unit :=
  match e with
  | Tick => gameloop
  | KeyDown kc => keydown kc
  | KeyUp kc => keyup kc
  | Click => startGameAndSound
  | ImageLoaded r width => image_onload r width
  | FramesDecoded r frames => frames_decoded r frames
  end.

(** The world when the page has loaded, and [game()] once the samples are
    set up: [setGamePhase(PHASE_ATTRACT); gameloop()]. *)
Definition initial_world (hi : Z) (storage : option (option string)) (randoms : list Q)
  : World :=
  mkWorld [] INITIAL_GAMESTATE hi storage None false randoms [].

Definition game : M unit :=
  let* _ := setGamePhase PHASE_ATTRACT in
  gameloop.

(** A run of events. *)
Fixpoint run (events : list Event) : M unit :=
  match events with
  | [] => ret tt
  | e :: rest => let* _ := handle e in run rest
  end.

(** ** The high score in the storage *)

(** [parseInt(string)], without a radix. A string is a sequence of code
    units below 256; [None] is [NaN]. Leading white space is skipped, then a
    sign, then [0x] or [0X], which makes the radix 16; the number is the
    longest run of digits of the radix that follows, [NaN] if there is no
    digit. *)
Definition is_white_space (c : ascii) : bool :=
  let n := nat_of_ascii c in
  ((n =? 9) || (n =? 10) || (n =? 11) || (n =? 12) || (n =? 13) || (n =? 32) || (n =? 160))%nat.

Fixpoint trim_start (s : string) : string :=
  match s with
  | EmptyString => EmptyString
  | String c rest => if is_white_space c then trim_start rest else s
  end.

(** The value of a code unit as a digit of the radix, if it is one. *)
Definition digit_value (radix : Z) (c : ascii) : option Z :=
  let n := Z.of_nat (nat_of_ascii c) in
  let value :=
    if ((48 <=? n) && (n <=? 57))%Z then Some (n - 48)%Z
    else if ((97 <=? n) && (n <=? 122))%Z then Some (n - 87)%Z
    else if ((65 <=? n) && (n <=? 90))%Z then Some (n - 55)%Z
    else None in
  match value with
  | Some d => if (d <? radix)%Z then Some d else None
  | None => None
  end.

(** The number that the longest run of digits at the start of [s] stands
    for, after the digits that gave [acc]; [acc] is [None] as long as there
    was no digit. *)
Fixpoint parse_digits (radix : Z) (s : string) (acc : option Z) : option Z :=
  match s with
  | EmptyString => acc
  | String c rest =>
    match digit_value radix c with
    | Some d => parse_digits radix rest (Some (radix * default 0%Z acc + d)%Z)
    | None => acc
    end
  end.

(** The sign at the start of [s], and what follows it. *)
Definition parse_sign (s : string) : Z * string :=
  match s with
  | String c rest =>
    if Ascii.eqb c "-" then ((-1)%Z, rest)
    else if Ascii.eqb c "+" then (1%Z, rest)
    else (1%Z, s)
  | EmptyString => (1%Z, s)
  end.

(** The radix that the start of [s] asks for, and what follows. *)
Definition parse_radix (s : string) : Z * string :=
  match s with
  | String c (String c' rest) =>
    if Ascii.eqb c "0" && (Ascii.eqb c' "x" || Ascii.eqb c' "X") then (16%Z, rest)
    else (10%Z, s)
  | _ => (10%Z, s)
  end.

Definition parseInt (s : string) : option Z :=
  let '(sign, s) := parse_sign (trim_start s) in
  let '(radix, s) := parse_radix s in
  match parse_digits radix s None with
  | Some n => Some (sign * n)%Z
  | None => None
  end.


(** ** The status bar *)

(** [frames[i]] for a number [i]: [undefined] below 0 and past the end. *)
Definition frame_at (frames : list Frame) (i : Z) : option Frame :=
  if (i <? 0)%Z then None else frames !! Z.to_nat i.

(** [ctx.drawImage(image, x, y)]; an image that is [undefined] is refused. *)
Definition drawImage (image : option Frame) (x y : Q) : M unit :=
  match image with
  | Some frame => modify (fun w => set_canvas (canvas w ++ [(frame, x, y)]) w)
  | None => throw
  end.

(** The loop over the characters of the score: a character without a frame
    is skipped, and takes its place all the same. *)
Fixpoint draw_score (numberSprite : Sprite.t) (score : string) (x y : Q) : M unit :=
  match score with
  | EmptyString => ret tt
  | String c rest =>
    let digit := (Z.of_nat (nat_of_ascii c) - 48)%Z in
    let image := frame_at (Sprite.frames numberSprite) digit in
    let* _ :=
      match image with
      | Some _ => drawImage image x y
      | None => ret tt
      end in
    draw_score numberSprite rest (x + Sprite.image_width numberSprite) y
  end.

(** The loop over the knives, [n] more to draw. *)
Fixpoint draw_knives (image : option Frame) (n : nat) (x y : Q) : M unit :=
  match n with
  | O => ret tt
  | S n' =>
    let* _ := drawImage image x y in
    draw_knives image n' (x + 16) y
  end.

(** [renderStatusBar(ctx, gamestate)], which [gameloop] calls last, with the
    two sprites that serve as its fonts. *)
Definition renderStatusBar (numberSprite knifeSprite : Sprite.t) : M unit :=
  let y := 8%Q in
  let* _ :=
    when (Sprite.ready numberSprite)
      (let* g := gets gamestate in
       let* hi := gets hiScore in
       let score :=
         match GameState.phase g with
         | PHASE_ATTRACT => (":; " ++ string_of_number hi)%string
         | _ => string_of_number (GameState.score g)
         end in
       let x := (PLAYFIELD_WIDTH
                 - Sprite.image_width numberSprite
                   * (1 + inject_Z (Z.of_nat (String.length score))))%Q in
       draw_score numberSprite score x y) in
  when (Sprite.ready knifeSprite)
    (let* g := gets gamestate in
     draw_knives (Sprite.frames knifeSprite !! 0%nat) (Z.to_nat (GameState.knives g)) 16 y).

(** * Properties *)

Local Open Scope list_scope.

(** A step of a run that returns. *)
Lemma bind_ok {A B} (m : M A) (k : A -> M B) w a w' r :
  m w = Ok (a, w') -> k a w' = r -> bind m k w = r.
Proof. intros Hm Hk. unfold bind. rewrite Hm. exact Hk. Qed.

(** ** Animation frames *)

(** [nextFrame()] called [n] times in a row: the frames returned and the
    sprite after the last call. *)
Fixpoint nextFrames (n : nat) (s : Sprite.t) : result (list (option Frame) * Sprite.t) :=
  match n with
  | O => Ok ([], s)
  | S n' =>
    match Sprite.nextFrame s with
    | Ok (image, s') =>
      match nextFrames n' s' with
      | Ok (images, s'') => Ok (image :: images, s'')
      | TypeError => TypeError
      | Timeout => Timeout
      end
    | TypeError => TypeError
    | Timeout => Timeout
    end
  end.

(** The step that follows step [i] of an animation, step 0 after the last. *)
Definition next_step (anim : Animation) (i : nat) : nat :=
  if (length anim <=? S i)%nat then 0%nat else S i.

(** The reading of the specification: as many calls as the duration of the
    current step bring the animation to the next step. *)
Definition advances_after_duration (s : Sprite.t) : Prop :=
  forall anim frame_num N,
    Sprite.ready s = true ->
    Sprite.animation s = Some anim ->
    anim !! Sprite.animFrame s = Some (frame_num, N) ->
    exists images s',
      nextFrames (Z.to_nat N) s = Ok (images, s') /\
      Sprite.animFrame s' = next_step anim (Sprite.animFrame s).

(** A player whose frames have been decoded. *)
Definition ready_player : Sprite.t :=
  Sprite.set_ready true (Sprite.set_frames [0; 1; 2; 3; 4; 5; 6; 7]%nat new_Player).

Lemma nextFrames_within (k : nat) : forall (s : Sprite.t) anim frame_num N,
  Sprite.ready s = true ->
  Sprite.animation s = Some anim ->
  anim !! Sprite.animFrame s = Some (frame_num, N) ->
  (Sprite.animFrameStep s + Z.of_nat k <= N)%Z ->
  nextFrames k s =
    Ok (repeat (Sprite.frames s !! frame_num) k,
        Sprite.set_animFrameStep (Sprite.animFrameStep s + Z.of_nat k) s).
Proof.
  induction k as [|k IH]; intros s anim frame_num N Hready Hanim Hcur Hle.
  - destruct s; simpl in *. rewrite Z.add_0_r. reflexivity.
  - assert (Hlt : (N <=? Sprite.animFrameStep s)%Z = false) by (apply Z.leb_gt; lia).
    assert (Hnext : Sprite.nextFrame s =
              Ok (Sprite.frames s !! frame_num,
                  Sprite.set_animFrameStep (Sprite.animFrameStep s + 1) s)).
    { unfold Sprite.nextFrame. rewrite Hready, Hanim. simpl. rewrite Hcur. simpl.
      rewrite Hlt, Hcur. reflexivity. }
    simpl nextFrames. rewrite Hnext.
    rewrite (IH _ anim frame_num N); try assumption.
    + simpl. unfold Sprite.set_animFrameStep. simpl.
      replace (Sprite.animFrameStep s + 1 + Z.of_nat k)%Z
        with (Sprite.animFrameStep s + Z.pos (Pos.of_succ_nat k))%Z by lia.
      reflexivity.
    + simpl. lia.
Qed.

Lemma nextFrame_transition (s : Sprite.t) anim frame_num N :
  Sprite.ready s = true ->
  Sprite.animation s = Some anim ->
  anim !! Sprite.animFrame s = Some (frame_num, N) ->
  (N <= Sprite.animFrameStep s)%Z ->
  exists image s',
    Sprite.nextFrame s = Ok (image, s') /\
    Sprite.animFrame s' = next_step anim (Sprite.animFrame s) /\
    Sprite.animFrameStep s' = 1%Z /\
    Sprite.animation s' = Some anim /\
    (forall shown, anim !! next_step anim (Sprite.animFrame s) = Some shown ->
                   image = Sprite.frames s !! shown.1).
Proof.
  intros Hready Hanim Hcur Hge.
  assert (Hlen : (Sprite.animFrame s < length anim)%nat) by (eapply lookup_lt_Some; eauto).
  assert (Hnext : is_Some (anim !! next_step anim (Sprite.animFrame s))).
  { apply lookup_lt_is_Some. unfold next_step.
    destruct (Nat.leb_spec (length anim) (S (Sprite.animFrame s))); lia. }
  destruct Hnext as [shown Hshown].
  unfold Sprite.nextFrame. rewrite Hready, Hanim. simpl. rewrite Hcur. simpl.
  apply Z.leb_le in Hge. rewrite Hge.
  unfold next_step in *.
  destruct (length anim <=? S (Sprite.animFrame s))%nat eqn:Hwrap; cbn; rewrite Hshown;
    eexists _, _; (split; [reflexivity|]); cbn; repeat split; try assumption;
    intros shown' Hs'; congruence.
Qed.

(** C5, as the specification words it, fails for a sprite that has just
    entered a step: the player starts its "wielding" animation at step 0,
    whose duration is 5, and after 5 calls of [nextFrame] it is still at
    step 0. *)
Lemma nextFrame_duration_counterexample : ~ advances_after_duration ready_player.
Proof.
  intros H.
  destruct (H [entry 4 5; entry 5 5; entry 6 5; entry 7 5] 4%nat 5%Z
              eq_refl eq_refl eq_refl) as (images & s' & Hrun & Hframe).
  vm_compute in Hrun. inversion Hrun; subst s'. vm_compute in Hframe. discriminate.
Qed.

(** C5 (amended): for a ready sprite at the start of an animation step of
    duration [N] (per-frame counter 0, as [setAnimation] leaves it), the
    first [N] calls of [nextFrame] return the frame of that step and leave
    the step index unchanged; the call after them moves the animation to the
    next step exactly once, to step 0 past the last step, and returns the
    frame of the new step. *)
Theorem nextFrame_step_lasts_its_duration (s : Sprite.t) anim frame_num N :
  Sprite.ready s = true ->
  Sprite.animation s = Some anim ->
  anim !! Sprite.animFrame s = Some (frame_num, N) ->
  Sprite.animFrameStep s = 0%Z ->
  (0 <= N)%Z ->
  exists s1 image s2,
    nextFrames (Z.to_nat N) s = Ok (repeat (Sprite.frames s !! frame_num) (Z.to_nat N), s1) /\
    Sprite.animFrame s1 = Sprite.animFrame s /\
    Sprite.nextFrame s1 = Ok (image, s2) /\
    Sprite.animFrame s2 = next_step anim (Sprite.animFrame s) /\
    Sprite.animFrameStep s2 = 1%Z /\
    (forall shown, anim !! next_step anim (Sprite.animFrame s) = Some shown ->
                   image = Sprite.frames s !! shown.1).
Proof.
  intros Hready Hanim Hcur Hstep HN.
  pose proof (nextFrames_within (Z.to_nat N) s anim frame_num N Hready Hanim Hcur) as Hrun.
  rewrite Hstep, Z2Nat.id in Hrun by assumption. specialize (Hrun ltac:(lia)).
  destruct (nextFrame_transition (Sprite.set_animFrameStep (0 + N) s) anim frame_num N)
    as (image & s2 & Hnext & Hframe & Hcount & _ & Himage);
    try assumption; [simpl; lia|].
  exists (Sprite.set_animFrameStep (0 + N) s), image, s2.
  repeat split; assumption.
Qed.

Lemma nextFrame_step_lasts_its_duration_witness :
  exists s1 image s2,
    nextFrames 5 ready_player = Ok (repeat (Some 4%nat) 5, s1) /\
    Sprite.animFrame s1 = 0%nat /\
    Sprite.nextFrame s1 = Ok (image, s2) /\
    Sprite.animFrame s2 = 1%nat /\
    Sprite.animFrameStep s2 = 1%Z /\
    (forall shown, [entry 4 5; entry 5 5; entry 6 5; entry 7 5] !! 1%nat = Some shown ->
                   image = Sprite.frames ready_player !! shown.1).
Proof.
  apply (nextFrame_step_lasts_its_duration ready_player
           [entry 4 5; entry 5 5; entry 6 5; entry 7 5] 4%nat 5%Z);
    [reflexivity | reflexivity | reflexivity | reflexivity | lia].
Defined.

(** ** Hit-rectangles *)

(** The reading of the specification: [intersects] returns [false]. *)
Definition intersects_false_without_hitbox (this other : Sprite.t) : Prop :=
  Sprite.hitbox this = None \/ Sprite.hitbox other = None ->
  Sprite.intersects this other = JBool false.

(** C7, as the specification words it, fails: a lamb whose image has not
    loaded has no hitbox, and [intersects] returns [undefined] for it, not
    the boolean [false]. *)
Lemma intersects_counterexample :
  ~ intersects_false_without_hitbox new_Player (new_Lamb 0).
Proof.
  intros H. specialize (H (or_intror eq_refl)). vm_compute in H. discriminate.
Qed.

(** C7 (amended): when a side has no hit-rectangle, [intersects(other)]
    returns [undefined], whatever the positions; the value is falsy, so every
    [if (this.intersects(other))] takes it as no overlap, and no error is
    raised. *)
Theorem intersects_without_hitbox (this other : Sprite.t) :
  Sprite.hitbox this = None \/ Sprite.hitbox other = None ->
  Sprite.intersects this other = JUndefined /\
  truthy (Sprite.intersects this other) = false.
Proof.
  unfold Sprite.intersects.
  intros [H | H]; rewrite H; [|destruct (Sprite.hitbox this)]; split; reflexivity.
Qed.

Lemma intersects_without_hitbox_witness :
  Sprite.intersects new_Player (new_Lamb 0) = JUndefined /\
  truthy (Sprite.intersects new_Player (new_Lamb 0)) = false.
Proof.
  apply (intersects_without_hitbox new_Player (new_Lamb 0)). right. reflexivity.
Defined.

(** ** Sprites that are not ready *)

(** C8: while a sprite's frames have not been decoded, [nextFrame] returns
    no frame and raises nothing; [render] draws nothing for it, and the
    sprite, with its animation, step index and per-frame counter, is
    unchanged. *)
Theorem not_ready_no_frame (w : World) (r : ref) (s : Sprite.t) :
  heap w !! r = Some s ->
  Sprite.ready s = false ->
  Sprite.nextFrame s = Ok (None, s) /\
  render_sprite r w = Ok (tt, w) /\
  render [r] w = Ok (tt, w).
Proof.
  intros Hr Hready.
  assert (Hnext : Sprite.nextFrame s = Ok (None, s)).
  { unfold Sprite.nextFrame. rewrite Hready. reflexivity. }
  assert (Hone : render_sprite r w = Ok (tt, w)).
  { unfold render_sprite, bind, deref, update, bind, deref, modify. rewrite Hr, Hnext, Hr.
    simpl. rewrite list_insert_id by assumption. destruct w; reflexivity. }
  split; [assumption|]. split; [assumption|].
  simpl. unfold bind. rewrite Hone. reflexivity.
Qed.

Lemma not_ready_no_frame_witness :
  let w := mkWorld [new_Player] INITIAL_GAMESTATE 0 None None false [] [] in
  Sprite.nextFrame new_Player = Ok (None, new_Player) /\
  render_sprite 0 w = Ok (tt, w) /\
  render [0%nat] w = Ok (tt, w).
Proof.
  apply (not_ready_no_frame (mkWorld [new_Player] INITIAL_GAMESTATE 0 None None false [] [])
           0%nat new_Player); reflexivity.
Defined.

(** ** Reasoning about the code of the monad *)

(** [post fail m Q w]: run from [w], [m] ends in a value and a world that
    satisfy [Q]; [fail] is what holds of a run that raises or times out
    ([False]: it cannot happen, [True]: nothing is said of it). *)
Definition post (fail : Prop) {A} (m : M A) (Q : A -> World -> Prop) (w : World) : Prop :=
  match m w with
  | Ok (a, w') => Q a w'
  | TypeError | Timeout => fail
  end.

(** [m] returns and [Q] holds then. *)
Abbreviation wp := (post False).
(** [Q] holds if [m] returns. *)
Abbreviation wlp := (post True).

Section Post.
Context (fail : Prop).

Lemma post_ret {A} (a : A) (Q : A -> World -> Prop) w : Q a w -> post fail (ret a) Q w.
Proof. intros H; exact H. Qed.

Lemma post_bind {A B} (m : M A) (k : A -> M B) (Q : B -> World -> Prop) w :
  post fail m (fun a w' => post fail (k a) Q w') w -> post fail (bind m k) Q w.
Proof. unfold post, bind. destruct (m w) as [[a w']| |]; auto. Qed.

Lemma post_conseq {A} (m : M A) (Q Q' : A -> World -> Prop) w :
  post fail m Q w -> (forall a w', Q a w' -> Q' a w') -> post fail m Q' w.
Proof. unfold post. destruct (m w) as [[a w']| |]; auto. Qed.

Lemma post_gets {A} (f : World -> A) (Q : A -> World -> Prop) w :
  Q (f w) w -> post fail (gets f) Q w.
Proof. intros H; exact H. Qed.

Lemma post_modify (f : World -> World) (Q : unit -> World -> Prop) w :
  Q tt (f w) -> post fail (modify f) Q w.
Proof. intros H; exact H. Qed.

Lemma post_modify_gs (f : GameState.t -> GameState.t) (Q : unit -> World -> Prop) w :
  Q tt (set_gamestate (f (gamestate w)) w) -> post fail (modify_gs f) Q w.
Proof. intros H; exact H. Qed.

Lemma post_when (b : bool) (m : M unit) (Q : unit -> World -> Prop) w :
  (b = true -> post fail m Q w) -> (b = false -> Q tt w) -> post fail (when b m) Q w.
Proof. destruct b; intros H1 H2; [apply H1 | apply H2]; reflexivity. Qed.

Lemma post_deref (r : ref) (Q : Sprite.t -> World -> Prop) w s :
  heap w !! r = Some s -> Q s w -> post fail (deref r) Q w.
Proof. unfold post, deref. intros ->. auto. Qed.

Lemma post_update (r : ref) (f : Sprite.t -> Sprite.t) (Q : unit -> World -> Prop) w s :
  heap w !! r = Some s -> Q tt (set_heap (<[r := f s]> (heap w)) w) ->
  post fail (update r f) Q w.
Proof. unfold post, update, bind, deref, modify. intros ->. auto. Qed.

Lemma post_alloc (s : Sprite.t) (Q : ref -> World -> Prop) w :
  Q (length (heap w)) (set_heap (heap w ++ [s]) w) -> post fail (alloc s) Q w.
Proof. intros H; exact H. Qed.

Lemma post_set_coll c l (Q : unit -> World -> Prop) w :
  Q tt (match c with
        | Bgsprites => set_gamestate (GameState.set_bgsprites l (gamestate w)) w
        | Sprites => set_gamestate (GameState.set_sprites l (gamestate w)) w
        end) ->
  post fail (set_coll c l) Q w.
Proof. destruct c; intros H; exact H. Qed.

End Post.

Lemma wp_wlp {A} (m : M A) (Q : A -> World -> Prop) w : wp m Q w -> wlp m Q w.
Proof. unfold post. destruct (m w) as [[a w']| |]; tauto. Qed.

Lemma wp_run {A} (m : M A) (Q : A -> World -> Prop) w :
  wp m Q w <-> exists a w', m w = Ok (a, w') /\ Q a w'.
Proof.
  unfold post. destruct (m w) as [[a w']| |]; split; try tauto.
  - eauto.
  - intros (a' & w'' & [= -> ->] & H). exact H.
  - intros (? & ? & [=] & _).
  - intros (? & ? & [=] & _).
Qed.

(** [preserves J m]: a run of [m] that returns keeps the invariant [J]. *)
Definition preserves (J : World -> Prop) {A} (m : M A) : Prop :=
  forall w, J w -> wlp m (fun _ w' => J w') w.

Section Preserves.
Context (J : World -> Prop).

Lemma preserves_ret {A} (a : A) : preserves J (ret a).
Proof. intros w H; exact H. Qed.

Lemma preserves_bind {A B} (m : M A) (k : A -> M B) :
  preserves J m -> (forall a, preserves J (k a)) -> preserves J (bind m k).
Proof.
  intros Hm Hk w H. apply post_bind. eapply post_conseq; [apply Hm, H|].
  intros a w' H'. apply Hk, H'.
Qed.

Lemma preserves_throw {A} : preserves J (@throw A).
Proof. intros w H; exact I. Qed.

Lemma preserves_timeout {A} : preserves J (@timeout A).
Proof. intros w H; exact I. Qed.

Lemma preserves_gets {A} (f : World -> A) : preserves J (gets f).
Proof. intros w H; exact H. Qed.

Lemma preserves_deref r : preserves J (deref r).
Proof. intros w H. unfold post, deref. destruct (heap w !! r); auto. Qed.

Lemma preserves_when b (m : M unit) : preserves J m -> preserves J (when b m).
Proof. intros Hm. destruct b; [exact Hm | apply preserves_ret]. Qed.

Lemma preserves_modify f : (forall w, J w -> J (f w)) -> preserves J (modify f).
Proof. intros Hf w H. apply Hf, H. Qed.

End Preserves.

(** ** The score and the knives *)

Definition score_of (w : World) : Z := GameState.score (gamestate w).
Definition knives_of (w : World) : Z := GameState.knives (gamestate w).

(** A property of the score and of the number of knives that the four
    assignments of the simulation to those two variables keep:
    [gamestate.knives--] (after the test [gamestate.knives === 0] has failed),
    [gamestate.knives++], [gamestate.score += 1000], [gamestate.score += 100]. *)
Record scoring_invariant (I : Z -> Z -> Prop) : Prop := {
  keep_spend : forall s k, I s k -> k <> 0%Z -> I s (k - 1)%Z;
  keep_pickup : forall s k, I s k -> I s (k + 1)%Z;
  keep_kill : forall s k, I s k -> I (s + 1000)%Z k;
  keep_bonus : forall s k, I s k -> I (s + 100)%Z k
}.

Definition holds (I : Z -> Z -> Prop) (w : World) : Prop := I (score_of w) (knives_of w).

Lemma score_at_least_invariant (s0 : Z) : scoring_invariant (fun s _ => (s0 <= s)%Z).
Proof. split; intros; lia. Qed.

Lemma knives_nonnegative_invariant : scoring_invariant (fun _ k => (0 <= k)%Z).
Proof. split; intros; lia. Qed.

Create HintDb pres.

Ltac pres_leaf :=
  let w := fresh "w" in
  let H := fresh "H" in
  intros w H; unfold holds, score_of, knives_of in *; cbn;
  first [ exact H
        | eapply keep_pickup; eassumption
        | eapply keep_kill; eassumption
        | eapply keep_bonus; eassumption ].

Ltac pres_step :=
  lazymatch goal with
  | |- preserves _ (bind _ _) => apply preserves_bind; [|intros ?]
  | |- preserves _ (ret _) => apply preserves_ret
  | |- preserves _ throw => apply preserves_throw
  | |- preserves _ timeout => apply preserves_timeout
  | |- preserves _ (gets _) => apply preserves_gets
  | |- preserves _ (deref _) => apply preserves_deref
  | |- preserves _ (when _ _) => apply preserves_when
  | |- preserves _ (modify _) => apply preserves_modify; pres_leaf
  | |- preserves _ (modify_gs _) => apply preserves_modify; pres_leaf
  | |- preserves _ (update _ _) => unfold update
  | |- preserves _ (push _ _) => unfold push
  | |- preserves _ (splice _ _) => unfold splice
  | |- preserves _ (setMusic _) => unfold setMusic
  | |- preserves _ (set_input _) => unfold set_input
  | |- preserves _ (set_coll ?c _) => destruct c; unfold set_coll
  | |- preserves _ (if ?b then _ else _) => destruct b
  | |- preserves _ (match ?x with _ => _ end) => destruct x
  end.

Section Scoring.
Context (I : Z -> Z -> Prop) (HI : scoring_invariant I).

Lemma preserves_alloc s : preserves (holds I) (alloc s).
Proof. intros w H. exact H. Qed.

Lemma preserves_Math_random : preserves (holds I) Math_random.
Proof. intros w H. unfold post, Math_random. destruct (rng w); exact H. Qed.

Hint Resolve preserves_alloc preserves_Math_random : pres.

Ltac pres := repeat first [ solve [eauto with pres] | pres_step ].

Lemma preserves_silence_all l : preserves (holds I) (silence_all l).
Proof. induction l; simpl; pres. Qed.
Hint Resolve preserves_silence_all : pres.

Lemma preserves_silenceAllSprites : preserves (holds I) silenceAllSprites.
Proof. unfold silenceAllSprites. pres. Qed.
Hint Resolve preserves_silenceAllSprites : pres.

(** Entering the attract phase or the game-over phase keeps the score and
    the knives. *)
Lemma preserves_setGamePhase_attract : preserves (holds I) (setGamePhase PHASE_ATTRACT).
Proof. unfold setGamePhase. pres. Qed.

Lemma preserves_setGamePhase_game_over : preserves (holds I) (setGamePhase PHASE_GAME_OVER).
Proof. unfold setGamePhase. pres. Qed.
Hint Resolve preserves_setGamePhase_attract preserves_setGamePhase_game_over : pres.

(** [spendKnife]: the decrement is guarded by the test for 0. *)
Lemma preserves_Player_spendKnife this b : preserves (holds I) (Player_spendKnife this b).
Proof.
  intros w H.
  assert (Hspend : (GameState.knives (gamestate w) =? 0)%Z = false ->
            holds I (set_gamestate
              (GameState.set_knives (GameState.knives (gamestate w) - 1) (gamestate w)) w)).
  { intros Hk. unfold holds, score_of, knives_of in *; cbn.
    apply (keep_spend _ HI); [exact H | apply Z.eqb_neq, Hk]. }
  unfold Player_spendKnife, post, bind, gets, when, update, bind, deref, modify_gs, modify, ret.
  cbn.
  repeat case_match; simplify_eq; cbn in *; auto.
Qed.
Hint Resolve preserves_Player_spendKnife : pres.

Lemma preserves_die this : preserves (holds I) (die this).
Proof. unfold die, Player_die, Lamb_die. pres. Qed.
Hint Resolve preserves_die : pres.

Lemma preserves_sprite_move this : preserves (holds I) (sprite_move this).
Proof.
  unfold sprite_move, Player_move, Player_throw, Lamb_move, road_move, Onion_move,
    Knife_move.
  pres.
Qed.

Lemma preserves_sprite_finished this : preserves (holds I) (sprite_finished this).
Proof. unfold sprite_finished. pres. Qed.

Lemma preserves_sprite_interact s1 s2 : preserves (holds I) (sprite_interact s1 s2).
Proof.
  unfold sprite_interact, Player_interact, Knife_interact, Player_die. pres.
Qed.
Hint Resolve preserves_sprite_move preserves_sprite_finished preserves_sprite_interact : pres.

Lemma preserves_move_loop c n : preserves (holds I) (move_loop c n).
Proof. induction n; simpl; pres. Qed.
Hint Resolve preserves_move_loop : pres.

Lemma preserves_interact_scan fuel : forall c s1 k,
  preserves (holds I) (interact_scan fuel c s1 k).
Proof. induction fuel; intros; simpl; pres. Qed.
Hint Resolve preserves_interact_scan : pres.

Lemma preserves_interact_loop c n : preserves (holds I) (interact_loop c n).
Proof. induction n; simpl; pres. Qed.
Hint Resolve preserves_interact_loop : pres.

Lemma preserves_keys_y l : preserves (holds I) (keys_y l).
Proof. induction l; simpl; pres. Qed.

Lemma preserves_render l : preserves (holds I) (render l).
Proof. induction l; simpl; unfold render_sprite; pres. Qed.

Lemma preserves_all_ready l : preserves (holds I) (all_ready l).
Proof. induction l; simpl; pres. Qed.

Lemma preserves_push_road_lines l : preserves (holds I) (push_road_lines l).
Proof. induction l; simpl; pres. Qed.
Hint Resolve preserves_keys_y preserves_render preserves_all_ready
  preserves_push_road_lines : pres.

Lemma preserves_gameloop : preserves (holds I) gameloop.
Proof.
  unfold gameloop, loaded, render_all, running_tick, game_over_tick, prepareRender,
    move, interact.
  pres.
Qed.

Lemma preserves_keyup kc : preserves (holds I) (keyup kc).
Proof. unfold keyup. pres. Qed.

Lemma preserves_image_onload r width : preserves (holds I) (image_onload r width).
Proof. unfold image_onload. pres. Qed.

Lemma preserves_frames_decoded r frames : preserves (holds I) (frames_decoded r frames).
Proof. unfold frames_decoded. pres. Qed.

(** The part of [keydown] that follows the call of [startGameAndSound] only
    sets a flag of [gamestate.inputs]. *)
Lemma preserves_keydown_flags kc :
  preserves (holds I)
    (if (kc =? KEY_RIGHTARROW)%Z || (kc =? KEY_D)%Z then set_input (Inputs.set_right true)
     else if (kc =? KEY_LEFTARROW)%Z || (kc =? KEY_A)%Z then set_input (Inputs.set_left true)
     else if (kc =? KEY_DOWNARROW)%Z || (kc =? KEY_S)%Z then set_input (Inputs.set_down true)
     else if (kc =? KEY_UPARROW)%Z || (kc =? KEY_W)%Z then set_input (Inputs.set_up true)
     else if (kc =? KEY_SPACE)%Z then set_input (Inputs.set_fire true)
     else ret tt).
Proof. pres. Qed.

End Scoring.

(** [starts_run e w]: in the world [w] the event [e] starts a new run, that
    is [startGameAndSound] is called in the attract phase. *)
Definition starts_run (e : Event) (w : World) : bool :=
  match GameState.phase (gamestate w) with
  | PHASE_ATTRACT =>
    match e with
    | Click => true
    | KeyDown kc => (kc =? KEY_SPACE)%Z || (kc =? KEY_ENTER)%Z
    | _ => false
    end
  | _ => false
  end.

(** The start of a run resets the score and the knives. *)
Lemma setGamePhase_running_resets w :
  wp (setGamePhase PHASE_RUNNING)
     (fun _ w' => score_of w' = 0%Z /\ knives_of w' = 3%Z) w.
Proof. unfold post. cbn. split; reflexivity. Qed.

(** What an event does to a property of the score and the knives: the start
    of a run resets both, every other event keeps the property. *)
Lemma handle_scoring I (HI : scoring_invariant I) e w :
  holds I w ->
  wlp (handle e)
      (fun _ w' => if starts_run e w then score_of w' = 0%Z /\ knives_of w' = 3%Z
                   else holds I w') w.
Proof.
  intros H. unfold starts_run.
  assert (Hstart : wlp startGameAndSound
            (fun _ w' => match GameState.phase (gamestate w) with
                         | PHASE_ATTRACT => score_of w' = 0%Z /\ knives_of w' = 3%Z
                         | _ => holds I w'
                         end) w).
  { unfold startGameAndSound. apply post_bind, post_gets.
    destruct (GameState.phase (gamestate w)).
    - apply wp_wlp, setGamePhase_running_resets.
    - exact H.
    - apply preserves_setGamePhase_attract; assumption. }
  destruct e; simpl handle.
  - eapply post_conseq; [apply preserves_gameloop; eassumption|].
    intros ? w' H'. destruct (GameState.phase (gamestate w)); exact H'.
  - unfold keydown. apply post_bind.
    destruct ((kc =? KEY_SPACE)%Z || (kc =? KEY_ENTER)%Z).
    + eapply post_conseq; [exact Hstart|]. intros ? w' H'.
      destruct (GameState.phase (gamestate w)).
      * apply (preserves_keydown_flags (fun s k => s = 0%Z /\ k = 3%Z) kc w' H').
      * apply (preserves_keydown_flags I kc w' H').
      * apply (preserves_keydown_flags I kc w' H').
    + simpl when. apply post_ret.
      eapply post_conseq; [apply preserves_keydown_flags, H|].
      intros ? w' H'. destruct (GameState.phase (gamestate w)); exact H'.
  - eapply post_conseq; [apply preserves_keyup; eassumption|].
    intros ? w' H'. destruct (GameState.phase (gamestate w)); exact H'.
  - eapply post_conseq; [exact Hstart|]. intros ? w' H'.
    destruct (GameState.phase (gamestate w)); exact H'.
  - eapply post_conseq; [apply preserves_image_onload; eassumption|].
    intros ? w' H'. destruct (GameState.phase (gamestate w)); exact H'.
  - eapply post_conseq; [apply preserves_frames_decoded; eassumption|].
    intros ? w' H'. destruct (GameState.phase (gamestate w)); exact H'.
Qed.

(** [same_run w w']: events lead from [w] to [w'] and none of them starts a
    new run. *)
Inductive same_run : World -> World -> Prop :=
| same_run_here w : same_run w w
| same_run_event w e w1 w2 :
    starts_run e w = false ->
    handle e w = Ok (tt, w1) ->
    same_run w1 w2 ->
    same_run w w2.

Lemma same_run_scoring I (HI : scoring_invariant I) w w' :
  same_run w w' -> holds I w -> holds I w'.
Proof.
  induction 1 as [|w e w1 w2 Hno Hstep _ IH]; [auto|].
  intros H. apply IH.
  pose proof (handle_scoring I HI e w H) as Hpost.
  unfold post in Hpost. rewrite Hstep, Hno in Hpost. exact Hpost.
Qed.

(** The world after a list of events none of which starts a new run. *)
Fixpoint run_within (events : list Event) (w : World) : option World :=
  match events with
  | [] => Some w
  | e :: rest =>
    if starts_run e w then None
    else
      match handle e w with
      | Ok (_, w1) => run_within rest w1
      | TypeError | Timeout => None
      end
  end.

Lemma run_within_same_run events : forall w w',
  run_within events w = Some w' -> same_run w w'.
Proof.
  induction events as [|e rest IH]; simpl; intros w w' H.
  - injection H as <-. apply same_run_here.
  - destruct (starts_run e w) eqn:Hstart; [discriminate|].
    destruct (handle e w) as [[[] w1]| |] eqn:Hstep; try discriminate.
    eapply same_run_event; eauto.
Qed.

(** *** Worlds for the examples *)

(** The world in which [m] ends, [w] itself if [m] does not return. *)
Definition world_after {A} (m : M A) (w : World) : World :=
  match m w with
  | Ok (_, w') => w'
  | TypeError | Timeout => w
  end.

(** The attract phase with the images of its three sprites loaded, after a
    run that ended with a score of 2100. *)
Definition attract_world : World :=
  let w := world_after
    (let* _ := game in
     run [ImageLoaded 0 380; FramesDecoded 0 [0%nat];
          ImageLoaded 1 256; FramesDecoded 1 [0; 1; 2; 3; 4]%nat;
          ImageLoaded 2 400; FramesDecoded 2 [0; 1; 2; 3; 4]%nat; Tick])
    (initial_world 2100 (Some (Some "2100")) [0.5; 0.25; 0.75]%Q) in
  set_gamestate (GameState.set_knives 1 (GameState.set_score 2100 (gamestate w))) w.

(** A run has started with a click, the player's image has loaded. *)
Definition running_world : World :=
  world_after (run [Click; ImageLoaded 3 32; FramesDecoded 3 [0; 1; 2; 3; 4; 5; 6; 7]%nat])
    attract_world.

(** The player has walked to the right for 90 ticks and met the lamb: the
    score is 1000 and a knife is spent. *)
Definition first_kill_world : World :=
  world_after (run ([Tick; ImageLoaded 4 32; KeyDown KEY_RIGHTARROW] ++ repeat Tick 90))
    running_world.

(** C9: within a run, that is from the event that starts it (the reset of
    the attract phase) and as long as no event starts a new run, the score
    starts at 0, is never negative and never decreases: for two worlds [wa]
    and [wb] of the run, [wb] reached after [wa], the score of [wa] is at
    most the score of [wb]. *)
Theorem score_monotonic_within_run (e : Event) (w w1 wa wb : World) :
  starts_run e w = true ->
  handle e w = Ok (tt, w1) ->
  same_run w1 wa ->
  same_run wa wb ->
  score_of w1 = 0%Z /\ (0 <= score_of wa)%Z /\ (score_of wa <= score_of wb)%Z.
Proof.
  intros Hstart Hstep Ha Hb.
  assert (H1 : score_of w1 = 0%Z).
  { pose proof (handle_scoring (fun _ _ => True) ltac:(split; auto) e w Logic.I) as Hpost.
    unfold post in Hpost. rewrite Hstep, Hstart in Hpost. apply Hpost. }
  split; [exact H1|]. split.
  - apply (same_run_scoring _ (score_at_least_invariant 0) w1 wa Ha).
    unfold holds. lia.
  - apply (same_run_scoring _ (score_at_least_invariant (score_of wa)) wa wb Hb).
    unfold holds. lia.
Qed.

Lemma score_monotonic_within_run_witness :
  score_of (world_after (handle Click) attract_world) = 0%Z /\
  (0 <= score_of running_world)%Z /\
  (score_of running_world <= score_of first_kill_world)%Z.
Proof.
  apply (score_monotonic_within_run Click attract_world).
  - vm_compute. reflexivity.
  - vm_compute. reflexivity.
  - apply (run_within_same_run [ImageLoaded 3 32; FramesDecoded 3 [0; 1; 2; 3; 4; 5; 6; 7]%nat]).
    vm_compute. reflexivity.
  - apply (run_within_same_run
             ([Tick; ImageLoaded 4 32; KeyDown KEY_RIGHTARROW] ++ repeat Tick 90)).
    vm_compute. reflexivity.
Defined.

(** C10: the number of knives is never negative. The initial game state has
    3 knives; [spendKnife] refuses when there is none (it returns [false] and
    leaves the game state as it is); every event of the simulation keeps the
    number at 0 or above. *)
Theorem knives_never_negative :
  (0 <= GameState.knives INITIAL_GAMESTATE)%Z /\
  (forall this soundOnFail w s,
      heap w !! this = Some s ->
      knives_of w = 0%Z ->
      exists w', Player_spendKnife this soundOnFail w = Ok (false, w') /\
                 gamestate w' = gamestate w) /\
  (forall e w w',
      (0 <= knives_of w)%Z ->
      handle e w = Ok (tt, w') ->
      (0 <= knives_of w')%Z).
Proof.
  split; [cbn; lia|]. split.
  - intros this b w s Hs Hk.
    unfold Player_spendKnife, bind, gets, knives_of in *. rewrite Hk. simpl.
    destruct b; simpl.
    + unfold update, bind, deref, modify. rewrite Hs. simpl. eauto.
    + eauto.
  - intros e w w' Hk Hstep.
    pose proof (handle_scoring _ knives_nonnegative_invariant e w Hk) as Hpost.
    unfold post in Hpost. rewrite Hstep in Hpost.
    destruct (starts_run e w); [lia | exact Hpost].
Qed.

Example first_kill_world_score :
  score_of first_kill_world = 1000%Z /\ knives_of first_kill_world = 2%Z.
Proof. vm_compute. split; reflexivity. Qed.

Lemma knives_never_negative_witness :
  (exists w', Player_spendKnife 3 true
                (set_gamestate (GameState.set_knives 0 (gamestate running_world)) running_world)
              = Ok (false, w')) /\
  (0 <= knives_of (world_after (handle Tick) running_world))%Z.
Proof.
  destruct knives_never_negative as (_ & Hrefuse & Hstep). split.
  - destruct (Hrefuse 3%nat true
                (set_gamestate (GameState.set_knives 0 (gamestate running_world)) running_world)
                (default new_Player (heap running_world !! 3%nat)))
      as (w' & Hrun & _).
    + vm_compute. reflexivity.
    + vm_compute. reflexivity.
    + exists w'. exact Hrun.
  - apply (Hstep Tick running_world).
    + vm_compute. discriminate.
    + vm_compute. reflexivity.
Defined.

(** ** The start of a run *)

(** The game state that [setGamePhase(PHASE_RUNNING)] builds: a copy of
    [INITIAL_GAMESTATE] in the running phase, with the new player [p] as its
    only sprite. *)
Definition fresh_run (p : ref) : GameState.t :=
  GameState.set_sprites [p]
    (GameState.set_player (Some p)
       (GameState.set_phase PHASE_RUNNING INITIAL_GAMESTATE)).

(** C3: whatever the world was, the transition to the running phase returns
    with a game state that is a fresh copy of the initial one: the score is
    0, the knives are the 3 of the initial configuration, the foreground
    holds exactly one sprite, a new player, and the frame delay is the 10 ms
    of play (the other two phases set 100). The game state depends on the
    world before only through the reference of the new player. *)
Theorem running_phase_resets (w : World) :
  let p := length (heap w) in
  exists w',
    setGamePhase PHASE_RUNNING w = Ok (tt, w') /\
    gamestate w' = fresh_run p /\
    score_of w' = 0%Z /\
    knives_of w' = GameState.knives INITIAL_GAMESTATE /\
    knives_of w' = 3%Z /\
    GameState.sprites (gamestate w') = [p] /\
    heap w' !! p = Some new_Player /\
    Sprite.cls new_Player = Player /\
    GameState.player (gamestate w') = Some p /\
    GameState.phase (gamestate w') = PHASE_RUNNING /\
    GameState.frameDelay (gamestate w') = 10%Z /\
    GameState.bgsprites (gamestate w') = [].
Proof.
  intros p. eexists. split; [reflexivity|].
  split; [reflexivity|]. split; [reflexivity|]. split; [reflexivity|].
  split; [reflexivity|]. split; [reflexivity|].
  split; [apply list_lookup_middle; reflexivity|].
  repeat split; reflexivity.
Qed.

(** ** Sprites that can be rendered *)

(** The animation of the sprite is defined and its step index is a step of
    it: [nextFrame] then raises nothing. Every constructor builds such a
    sprite. *)
Definition clock_ok (s : Sprite.t) : Prop :=
  exists anim, Sprite.animation s = Some anim /\ (Sprite.animFrame s < length anim)%nat.

Lemma nextFrame_ok (s : Sprite.t) :
  clock_ok s ->
  exists image s',
    Sprite.nextFrame s = Ok (image, s') /\ Sprite.cls s' = Sprite.cls s /\ clock_ok s'.
Proof.
  intros (anim & Hanim & Hlen). unfold Sprite.nextFrame.
  destruct (Sprite.ready s); simpl.
  - rewrite Hanim.
    destruct (lookup_lt_is_Some_2 _ _ Hlen) as [current Hcur]. rewrite Hcur.
    assert (Hfirst : is_Some (anim !! 0%nat)) by (apply lookup_lt_is_Some; lia).
    destruct Hfirst as [first Hfirst].
    destruct (current.2 <=? Sprite.animFrameStep s)%Z; [|rewrite Hcur].
    + cbn. destruct (Nat.leb_spec (length anim) (S (Sprite.animFrame s))); cbn.
      * rewrite Hfirst. eexists _, _. split; [reflexivity|]. split; [reflexivity|].
        exists anim. split; [assumption | cbn; lia].
      * destruct (lookup_lt_is_Some_2 anim (S (Sprite.animFrame s)) ltac:(lia)) as [next Hnext].
        rewrite Hnext. eexists _, _. split; [reflexivity|]. split; [reflexivity|].
        exists anim. split; [assumption | cbn; lia].
    + eexists _, _. split; [reflexivity|]. split; [reflexivity|].
      exists anim. split; assumption.
  - eexists _, _. split; [reflexivity|]. split; [reflexivity|]. exists anim. auto.
Qed.

(** The references of the two arrays point into the store, and every sprite
    of the store can be rendered. *)
Definition renderable (w : World) : Prop :=
  Forall clock_ok (heap w) /\
  Forall (fun r => (r < length (heap w))%nat) (coll Sprites w) /\
  Forall (fun r => (r < length (heap w))%nat) (coll Bgsprites w).

(** The classes of the sprites, by reference. *)
Definition classes (w : World) : list Class := Sprite.cls <$> heap w.

#[global] Instance Class_eq_dec : EqDecision Class.
Proof. solve_decision. Defined.


Lemma all_ready_ok (l : list ref) (w : World) :
  Forall (fun r => (r < length (heap w))%nat) l ->
  exists b, all_ready l w = Ok (b, w).
Proof.
  induction 1 as [|r rest Hr _ (b & IH)]; simpl; [eauto|].
  destruct (lookup_lt_is_Some_2 _ _ Hr) as [s Hs].
  unfold bind, deref. rewrite Hs, IH. simpl. eauto.
Qed.

Lemma keys_y_ok (l : list ref) (w : World) :
  Forall (fun r => (r < length (heap w))%nat) l ->
  exists keyed, keys_y l w = Ok (keyed, w) /\ map snd keyed = l.
Proof.
  induction 1 as [|r rest Hr _ (keyed & IH & Hkeys)]; simpl; [eauto|].
  destruct (lookup_lt_is_Some_2 _ _ Hr) as [s Hs].
  unfold bind, deref. rewrite Hs, IH. simpl. eexists. split; [reflexivity|].
  simpl. congruence.
Qed.

Lemma insert_by_y_perm k r l : map snd (insert_by_y k r l) ≡ₚ r :: map snd l.
Proof.
  induction l as [|[k' r'] rest IH]; simpl; [reflexivity|].
  destruct (Qle_bool k k'); simpl; [reflexivity|].
  rewrite IH. apply Permutation_swap.
Qed.

Lemma sort_by_y_perm l : map snd (sort_by_y l) ≡ₚ map snd l.
Proof.
  induction l as [|[k r] rest IH]; simpl; [reflexivity|].
  rewrite insert_by_y_perm, IH. reflexivity.
Qed.

Lemma render_ok (l : list ref) : forall (w : World),
  Forall clock_ok (heap w) ->
  Forall (fun r => (r < length (heap w))%nat) l ->
  exists h' c',
    render l w = Ok (tt, set_canvas c' (set_heap h' w)) /\
    Sprite.cls <$> h' = Sprite.cls <$> heap w /\
    Forall clock_ok h'.
Proof.
  induction l as [|r rest IH]; intros w Hok Hrefs; simpl.
  - exists (heap w), (canvas w). destruct w; auto.
  - apply Forall_cons in Hrefs as [Hr Hrest].
    destruct (lookup_lt_is_Some_2 _ _ Hr) as [s Hs].
    destruct (nextFrame_ok s) as (image & s' & Hnext & Hcls & Hok').
    { eapply Forall_lookup_1; eauto. }
    assert (Hone : exists c1, render_sprite r w
                     = Ok (tt, set_canvas c1 (set_heap (<[r := s']> (heap w)) w))).
    { unfold render_sprite, bind, deref, update, bind, deref, modify.
      rewrite Hs, Hnext, Hs. simpl. destruct image; simpl.
      - eexists. reflexivity.
      - exists (canvas w). destruct w; reflexivity. }
    destruct Hone as [c1 Hone].
    assert (Hcls1 : Sprite.cls <$> <[r := s']> (heap w) = Sprite.cls <$> heap w).
    { rewrite list_fmap_insert, Hcls. apply list_insert_id.
      rewrite list_lookup_fmap, Hs. reflexivity. }
    destruct (IH (set_canvas c1 (set_heap (<[r := s']> (heap w)) w)))
      as (h2 & c2 & Hrun & Hcls2 & Hok2); simpl.
    + apply Forall_insert; assumption.
    + rewrite length_insert. assumption.
    + exists h2, c2. unfold bind. rewrite Hone, Hrun. simpl in *.
      split; [reflexivity|]. split; [congruence | assumption].
Qed.

(** ** Silencing *)

(** [quieted s s']: [s'] is [s], or [s] with its sound disconnected. *)
Definition quieted (s s' : Sprite.t) : Prop := s' = s \/ s' = Sprite.set_sound None s.

Lemma quieted_refl s : quieted s s.
Proof. left; reflexivity. Qed.

Lemma quieted_trans a b c : quieted a b -> quieted b c -> quieted a c.
Proof. intros [-> | ->] [-> | ->]; unfold quieted; auto. Qed.

Lemma quieted_silence s : quieted s (Sprite.silence s).
Proof. unfold quieted, Sprite.silence. destruct (Sprite.sound s); auto. Qed.



Lemma quieted_heap_refl h : Forall2 quieted h h.
Proof. apply Forall2_same_length_lookup_2; [reflexivity|]. intros i a b Ha Hb.
  rewrite Ha in Hb. injection Hb as <-. apply quieted_refl. Qed.



Lemma quieted_heap_lookup h h' r s :
  Forall2 quieted h h' -> h !! r = Some s -> exists s', h' !! r = Some s' /\ quieted s s'.
Proof. intros Hq Hs. destruct (Forall2_lookup_l _ _ _ _ _ Hq Hs) as (s' & Hs' & Hss'). eauto. Qed.

Lemma silence_all_ok (l : list ref) : forall (w : World),
  Forall (fun r => (r < length (heap w))%nat) l ->
  exists h', silence_all l w = Ok (tt, set_heap h' w) /\ Forall2 quieted (heap w) h'.
Proof.
  induction l as [|r rest IH]; intros w Hrefs; simpl.
  - exists (heap w). split; [destruct w; reflexivity | apply quieted_heap_refl].
  - apply Forall_cons in Hrefs as [Hr Hrest].
    destruct (lookup_lt_is_Some_2 _ _ Hr) as [s Hs].
    assert (Hq : Forall2 quieted (heap w) (<[r := Sprite.silence s]> (heap w))).
    { rewrite <- (list_insert_id (heap w) r s) at 1 by assumption.
      apply Forall2_insert; [apply quieted_heap_refl | apply quieted_silence]. }
    destruct (IH (set_heap (<[r := Sprite.silence s]> (heap w)) w)) as (h' & Hrun & Hq').
    { simpl. rewrite length_insert. assumption. }
    exists h'. unfold bind, update, bind, deref, modify. rewrite Hs. simpl.
    unfold bind in Hrun. rewrite Hrun. split; [reflexivity|].
    eapply Forall2_trans; [apply quieted_trans | exact Hq | exact Hq'].
Qed.

Lemma silenceAllSprites_ok (w : World) :
  Forall (fun r => (r < length (heap w))%nat) (coll Sprites w) ->
  Forall (fun r => (r < length (heap w))%nat) (coll Bgsprites w) ->
  exists h', silenceAllSprites w = Ok (tt, set_heap h' w) /\ Forall2 quieted (heap w) h'.
Proof.
  intros Hfg Hbg.
  destruct (silence_all_ok _ w Hfg) as (h1 & Hrun1 & Hq1).
  destruct (silence_all_ok (coll Bgsprites w) (set_heap h1 w)) as (h2 & Hrun2 & Hq2).
  { simpl. rewrite <- (Forall2_length _ _ _ Hq1). assumption. }
  exists h2. unfold silenceAllSprites, bind, gets. rewrite Hrun1. simpl.
  split; [exact Hrun2|].
  eapply Forall2_trans; [apply quieted_trans | exact Hq1 | exact Hq2].
Qed.

(** ** The transition to the game-over phase *)

(** [setGamePhase(PHASE_GAME_OVER)] returns when the references of the arrays
    are good; what it does to the world. *)
Lemma setGamePhase_game_over_ok (w : World) :
  Forall (fun r => (r < length (heap w))%nat) (coll Sprites w) ->
  Forall (fun r => (r < length (heap w))%nat) (coll Bgsprites w) ->
  let record := (hiScore w <? score_of w)%Z in
  let n := length (heap w) in
  exists h' w',
    Forall2 quieted (heap w) h' /\
    setGamePhase PHASE_GAME_OVER w = Ok (tt, w') /\
    heap w' = h' ++ new_GameOverMessage :: (if record then [new_NewHiScore] else []) /\
    gamestate w' =
      GameState.set_frameDelay 100
        (GameState.set_sprites
           (GameState.sprites (gamestate w) ++ n :: (if record then [S n] else []))
           (GameState.set_phase PHASE_GAME_OVER (gamestate w))) /\
    hiScore w' = (if record then score_of w else hiScore w) /\
    localStorage w' =
      (if record then
         match localStorage w with
         | Some _ => Some (Some (string_of_number (score_of w)))
         | None => None
         end
       else localStorage w).
Proof.
  intros Hfg Hbg record n.
  destruct (silenceAllSprites_ok w Hfg Hbg) as (h' & Hrun & Hq).
  assert (Hn : length h' = n) by (symmetry; eapply Forall2_length; eauto).
  exists h'. unfold setGamePhase, bind. rewrite Hrun. cbn.
  subst record. unfold score_of. rewrite Hn.
  destruct (hiScore w <? GameState.score (gamestate w))%Z; cbn.
  - destruct (localStorage w) eqn:Hls; cbn; eexists; (split; [exact Hq|]);
      (split; [reflexivity|]); cbn; rewrite <- !app_assoc, length_app, Hn; cbn;
      rewrite Nat.add_1_r; repeat split; auto.
  - eexists; (split; [exact Hq|]); (split; [reflexivity|]); cbn;
      repeat split; reflexivity.
Qed.

(** ** Ticks outside the running phase *)

(** What a tick of the attract phase or of the game-over phase keeps: the
    class of every sprite, the sprites of the foreground (their order can
    change), the background, the phase, the high score, the stored item, the
    score. *)
Definition idle (w w' : World) : Prop :=
  classes w' = classes w /\
  coll Sprites w' ≡ₚ coll Sprites w /\
  coll Bgsprites w' = coll Bgsprites w /\
  GameState.phase (gamestate w') = GameState.phase (gamestate w) /\
  hiScore w' = hiScore w /\
  localStorage w' = localStorage w /\
  score_of w' = score_of w.




Lemma loaded_ok (w : World) :
  Forall (fun r => (r < length (heap w))%nat) (coll Sprites w) ->
  exists go b, loaded w = Ok (go, set_ready b w).
Proof.
  intros Hrefs. unfold loaded, bind, gets.
  destruct (ready w) eqn:Hready.
  - exists true, true. destruct w; simpl in *. subst. reflexivity.
  - destruct (all_ready_ok _ w Hrefs) as [b Hb]. rewrite Hb. simpl. eauto.
Qed.

Lemma render_all_ok (w : World) :
  renderable w ->
  exists w', render_all w = Ok (tt, w') /\ renderable w' /\ idle w w'.
Proof.
  intros (Hok & Hfg & Hbg).
  destruct (keys_y_ok (coll Sprites w) (set_canvas [] w) Hfg) as (keyed & Hkeys & Hsnd).
  pose proof (sort_by_y_perm keyed) as Hperm. rewrite Hsnd in Hperm.
  set (sorted := map snd (sort_by_y keyed)) in *.
  set (w1 := set_gamestate (GameState.set_sprites sorted (gamestate w)) (set_canvas [] w)).
  destruct (render_ok (coll Bgsprites w) w1 Hok Hbg) as (h2 & c2 & Hrun2 & Hcls2 & Hok2).
  assert (Hlen2 : length h2 = length (heap w)).
  { rewrite <- (length_fmap Sprite.cls h2), Hcls2, length_fmap. reflexivity. }
  destruct (render_ok sorted (set_canvas c2 (set_heap h2 w1))) as (h3 & c3 & Hrun3 & Hcls3 & Hok3).
  { exact Hok2. }
  { simpl. rewrite Hlen2, Hperm. exact Hfg. }
  assert (Hlen3 : length h3 = length (heap w)).
  { rewrite <- (length_fmap Sprite.cls h3), Hcls3. simpl. rewrite length_fmap. exact Hlen2. }
  eexists. split.
  - unfold render_all, prepareRender.
    eapply bind_ok.
    { eapply bind_ok; [reflexivity|]. eapply bind_ok; [reflexivity|].
      eapply bind_ok; [exact Hkeys|]. reflexivity. }
    eapply bind_ok; [reflexivity|]. eapply bind_ok; [exact Hrun2|].
    eapply bind_ok; [reflexivity|]. exact Hrun3.
  - split.
    + split; [exact Hok3|]. simpl. rewrite Hlen3. split; [rewrite Hperm|]; assumption.
    + unfold idle, classes. simpl. repeat split; try reflexivity; try assumption.
      rewrite Hcls3. exact Hcls2.
Qed.



(** ** The high score *)




(** A decision procedure for [renderable]. *)
Definition clock_okb (s : Sprite.t) : bool :=
  match Sprite.animation s with
  | Some anim => (Sprite.animFrame s <? length anim)%nat
  | None => false
  end.

Definition renderableb (w : World) : bool :=
  forallb clock_okb (heap w) &&
  forallb (fun r => (r <? length (heap w))%nat) (coll Sprites w) &&
  forallb (fun r => (r <? length (heap w))%nat) (coll Bgsprites w).

Lemma renderableb_sound w : renderableb w = true -> renderable w.
Proof.
  unfold renderableb, renderable. rewrite !andb_true_iff, !forallb_forall.
  intros [[Hok Hfg] Hbg]. repeat split; apply Forall_forall; intros r Hr.
  - apply list_elem_of_In, Hok in Hr. unfold clock_okb, clock_ok in *.
    destruct (Sprite.animation r) as [anim|]; [|discriminate].
    exists anim. split; [reflexivity | apply Nat.ltb_lt, Hr].
  - apply Nat.ltb_lt, Hfg, list_elem_of_In, Hr.
  - apply Nat.ltb_lt, Hbg, list_elem_of_In, Hr.
Qed.



(** ** The interaction pass *)

Lemma deref_ok w r s : heap w !! r = Some s -> deref r w = Ok (s, w).
Proof. unfold deref. intros ->. reflexivity. Qed.

Lemma update_ok w r s f :
  heap w !! r = Some s -> update r f w = Ok (tt, set_heap (<[r := f s]> (heap w)) w).
Proof. unfold update, bind, deref, modify. intros ->. reflexivity. Qed.

(** The classes whose name [Player.interact] has a case for. *)
Definition reacted_to (c : Class) : bool :=
  match c with
  | Broccoli | Onion | Lamb | Knife => true
  | _ => false
  end.



(** The end of the body of the loops of [move] and [interact]:
    [if (s.finished()) sprites.splice(i, 1)], for a sprite that is not a
    knife. *)
Definition with_coll (c : Coll) (l : list ref) (w : World) : World :=
  match c with
  | Bgsprites => set_gamestate (GameState.set_bgsprites l (gamestate w)) w
  | Sprites => set_gamestate (GameState.set_sprites l (gamestate w)) w
  end.








(** What [Lamb.die()] makes of a lamb. *)
Definition lamb_killed (L : Sprite.t) : Sprite.t :=
  Sprite.set_sound (playSample "lambkill") (Sprite.set_dead true (Sprite.setAnimation "dead" L)).

Lemma Lamb_die_ok w l L :
  heap w !! l = Some L ->
  Sprite.cls L = Lamb ->
  die l w = Ok (tt, set_heap (<[l := lamb_killed L]> (heap w)) w).
Proof.
  intros Hl Hcls. unfold die.
  eapply bind_ok; [apply deref_ok, Hl|]. rewrite Hcls. unfold Lamb_die.
  assert (Hlen : (l < length (heap w))%nat) by (eapply lookup_lt_Some; eauto).
  eapply bind_ok; [apply update_ok, Hl|].
  eapply bind_ok; [apply update_ok; simpl; apply list_lookup_insert_eq, Hlen|].
  erewrite update_ok by (simpl; apply list_lookup_insert_eq; rewrite length_insert; exact Hlen).
  simpl. rewrite !list_insert_insert_eq. reflexivity.
Qed.

(** [Player.spendKnife] when there is a knife. *)
Lemma Player_spendKnife_ok w p P b :
  heap w !! p = Some P ->
  knives_of w <> 0%Z ->
  exists P',
    Player_spendKnife p b w =
      Ok (true, set_gamestate (GameState.set_knives (knives_of w - 1) (gamestate w))
                  (set_heap (<[p := P']> (heap w)) w)) /\
    (P' = P \/ P' = Sprite.setAnimation "walking" P).
Proof.
  intros Hp Hk. unfold Player_spendKnife, knives_of in *.
  apply Z.eqb_neq in Hk.
  destruct (GameState.knives (gamestate w) - 1 =? 0)%Z eqn:Hlast.
  - exists (Sprite.setAnimation "walking" P). split; [|right; reflexivity].
    eapply bind_ok; [reflexivity|]. cbv beta. rewrite Hk.
    eapply bind_ok; [reflexivity|]. eapply bind_ok; [reflexivity|]. cbn.
    rewrite Hlast. simpl when.
    eapply bind_ok; [apply update_ok; exact Hp|]. reflexivity.
  - exists P. split; [|left; reflexivity].
    eapply bind_ok; [reflexivity|]. cbv beta. rewrite Hk.
    eapply bind_ok; [reflexivity|]. eapply bind_ok; [reflexivity|]. cbn.
    rewrite Hlast. simpl. rewrite list_insert_id by exact Hp.
    destruct w; reflexivity.
Qed.



(** A player at its starting place and another sprite that overlaps it, both
    images loaded, alone in the foreground of a run, the player first. *)
Definition meeting_world (other : Sprite.t) : World :=
  world_after (run [ImageLoaded 0 32; ImageLoaded 1 32])
    (mkWorld [new_Player; Sprite.set_y 250 (Sprite.set_x 130 other)]
       (GameState.set_sprites [0; 1]%nat
          (GameState.set_player (Some 0%nat)
             (GameState.set_phase PHASE_RUNNING INITIAL_GAMESTATE)))
       0 None None true [] []).





(** ** The movement pass *)

(** [moved s w w1]: what [s.move()] and [s.finished()] can do to the world.
    They change [s], but neither its class nor its hitbox, they create
    sprites and push them at the end of the foreground; the other sprites
    that existed before are as they were. *)
Record moved (s : ref) (w w1 : World) : Prop := {
  moved_length : (length (heap w) <= length (heap w1))%nat;
  moved_others : forall r, r <> s -> (r < length (heap w))%nat -> heap w1 !! r = heap w !! r;
  moved_self : exists S0 S1,
    heap w !! s = Some S0 /\ heap w1 !! s = Some S1 /\
    Sprite.cls S1 = Sprite.cls S0 /\ Sprite.hitbox S1 = Sprite.hitbox S0;
  moved_bg : coll Bgsprites w1 = coll Bgsprites w;
  moved_fg : exists pushed,
    coll Sprites w1 = coll Sprites w ++ pushed /\
    Forall (fun r => (length (heap w) <= r)%nat) pushed
}.

Lemma moved_refl s w S0 : heap w !! s = Some S0 -> moved s w w.
Proof.
  intros Hs. split; auto.
  - exists S0, S0. auto.
  - exists []. rewrite app_nil_r. auto.
Qed.

Section Moved.
Context (s : ref) (w0 : World).

(** [m] extends what has been done to [w0] within [moved s]. *)
Definition extends {A} (m : M A) : Prop :=
  forall w, moved s w0 w -> wp m (fun _ w' => moved s w0 w') w.

Lemma extends_ret {A} (a : A) : extends (ret a).
Proof. intros w H. exact H. Qed.

Lemma extends_gets {A} (f : World -> A) : extends (gets f).
Proof. intros w H. exact H. Qed.

Lemma extends_bind {A B} (m : M A) (k : A -> M B) :
  extends m -> (forall a, extends (k a)) -> extends (bind m k).
Proof.
  intros Hm Hk w H. apply post_bind. eapply post_conseq; [apply Hm, H|].
  intros a w' H'. apply Hk, H'.
Qed.

Lemma extends_when b (m : M unit) : extends m -> extends (when b m).
Proof. intros Hm. destruct b; [exact Hm | apply extends_ret]. Qed.

Lemma extends_Math_random : extends Math_random.
Proof.
  intros w H. unfold post, Math_random. destruct (rng w); [exact H|].
  destruct H as [H1 H2 H3 H4 H5]. split; assumption.
Qed.

(** An assignment to a variable of [gamestate] that is not one of the two
    arrays. *)
Lemma extends_modify_gs (f : GameState.t -> GameState.t) :
  (forall g, GameState.bgsprites (f g) = GameState.bgsprites g /\
             GameState.sprites (f g) = GameState.sprites g) ->
  extends (modify_gs f).
Proof.
  intros Hf w [H1 H2 H3 H4 H5]. apply post_modify_gs.
  destruct (Hf (gamestate w)) as [Hbg Hfg].
  split; simpl; try assumption.
  - rewrite Hbg. exact H4.
  - rewrite Hfg. exact H5.
Qed.

(** An assignment to a field of [s] other than the class and the hitbox. *)
Lemma extends_update (f : Sprite.t -> Sprite.t) :
  (forall S1, Sprite.cls (f S1) = Sprite.cls S1 /\ Sprite.hitbox (f S1) = Sprite.hitbox S1) ->
  extends (update s f).
Proof.
  intros Hf w [H1 H2 (S0 & S1 & Hs0 & Hs1 & Hcls & Hhb) H4 H5].
  eapply post_update; [exact Hs1|].
  destruct (Hf S1) as [Hfc Hfh].
  split; simpl; try assumption.
  - rewrite length_insert. exact H1.
  - intros r Hr Hlt. rewrite list_lookup_insert_ne by auto. apply H2; assumption.
  - exists S0, (f S1). repeat split; try congruence.
    apply list_lookup_insert_eq. eapply lookup_lt_Some, Hs1.
Qed.

(** The throw of a knife by a player that has a hitbox. *)
Lemma extends_Player_throw S0 :
  heap w0 !! s = Some S0 ->
  is_Some (Sprite.hitbox S0) ->
  extends (Player_throw s).
Proof.
  intros Hs0 [hb Hhb] w [H1 H2 (S0' & S1 & Hs0' & Hs1 & Hcls & Hhb1) H4 (pushed & H5 & H6)].
  assert (S0' = S0) by congruence. subst S0'.
  assert (Hlt : (s < length (heap w))%nat) by (eapply lookup_lt_Some; eauto).
  unfold Player_throw.
  apply post_bind. unfold post at 1, Math_random.
  set (random := match rng w with [] => 0%Q | r :: _ => r end).
  set (w1 := match rng w with [] => w | _ :: rest => set_rng rest w end).
  assert (Hw1 : heap w1 = heap w /\ gamestate w1 = gamestate w).
  { subst w1. destruct (rng w); auto. }
  destruct Hw1 as [Hheap1 Hgs1].
  replace (match rng w with
           | [] => Ok (0%Q, w)
           | r :: rest => Ok (r, set_rng rest w)
           end) with (Ok (random, w1)) by (subst random w1; destruct (rng w); reflexivity).
  apply post_bind, post_alloc, post_bind. unfold push.
  apply post_bind, post_gets, post_set_coll. apply post_bind.
  eapply post_deref.
  { simpl. rewrite Hheap1. apply lookup_app_l_Some, Hs1. }
  rewrite Hhb1, Hhb. apply post_bind.
  eapply post_update.
  { simpl. rewrite Hheap1. apply list_lookup_middle. reflexivity. }
  eapply post_update.
  { simpl. rewrite Hheap1. apply list_lookup_insert_eq. rewrite length_app. simpl. lia. }
  split; simpl; rewrite ?Hheap1, ?Hgs1.
  - rewrite !length_insert, length_app. simpl. lia.
  - intros r Hr Hr0. rewrite !list_lookup_insert_ne by lia.
    rewrite lookup_app_l by lia. apply H2; assumption.
  - exists S0, S1. repeat split; try assumption.
    rewrite !list_lookup_insert_ne by lia. apply lookup_app_l_Some, Hs1.
  - exact H4.
  - exists (pushed ++ [length (heap w)]). split.
    + simpl in H5. rewrite H5, app_assoc. reflexivity.
    + apply Forall_app. split; [exact H6|]. repeat constructor. exact H1.
Qed.

End Moved.

Ltac ext_update :=
  let S1 := fresh "S1" in
  intros S1;
  unfold Sprite.ensureFullyOnScreen, Sprite.silence, Sprite.setAnimation;
  repeat case_match; split; reflexivity.

Ltac ext_step :=
  lazymatch goal with
  | |- extends _ _ (bind _ _) => apply extends_bind; [|intros ?]
  | |- extends _ _ (ret _) => apply extends_ret
  | |- extends _ _ (gets _) => apply extends_gets
  | |- extends _ _ (when _ _) => apply extends_when
  | |- extends _ _ (modify_gs _) => apply extends_modify_gs; intros ?; split; reflexivity
  | |- extends _ _ (update _ _) => apply extends_update; ext_update
  | |- extends _ _ Math_random => apply extends_Math_random
  | |- extends _ _ (if ?b then _ else _) => destruct b
  end.

Lemma extends_Player_spendKnife s w0 b : extends s w0 (Player_spendKnife s b).
Proof. unfold Player_spendKnife. repeat ext_step. Qed.

Lemma extends_Player_move s w0 S0 :
  heap w0 !! s = Some S0 ->
  is_Some (Sprite.hitbox S0) ->
  extends s w0 (Player_move s).
Proof.
  intros Hs0 Hhb. unfold Player_move.
  repeat first [ apply extends_Player_spendKnife
               | eapply extends_Player_throw; eassumption
               | ext_step ].
Qed.

(** [s.move()] *)
Lemma sprite_move_moved s w S0 :
  heap w !! s = Some S0 ->
  (Sprite.cls S0 = Player -> is_Some (Sprite.hitbox S0)) ->
  wp (sprite_move s) (fun _ w1 => moved s w w1) w.
Proof.
  intros Hs0 Hhb. unfold sprite_move.
  apply post_bind. eapply post_deref; [exact Hs0|].
  pose proof (moved_refl s w S0 Hs0) as Hrefl. revert Hrefl.
  generalize w at 2 4. intros w1 Hrefl. revert w1 Hrefl.
  change (extends s w
            match Sprite.cls S0 with
            | Player => Player_move s
            | Lamb => Lamb_move s
            | Broccoli | RoadLine | Sidewalk => road_move s
            | Onion => Onion_move s
            | Knife => Knife_move s
            | _ => ret tt
            end).
  destruct (Sprite.cls S0) eqn:Hcls;
    try apply extends_ret;
    try (eapply extends_Player_move; eauto);
    unfold Lamb_move, road_move, Onion_move, Knife_move; repeat ext_step.
Qed.

(** [s.move()], then [s.finished()]: the value is whether [s] is off the
    playfield after its move. *)
Lemma visit_moved s w S0 :
  heap w !! s = Some S0 ->
  (Sprite.cls S0 = Player -> is_Some (Sprite.hitbox S0)) ->
  exists w2 S2,
    (let* _ := sprite_move s in sprite_finished s) w
      = Ok (negb (Sprite.isOnScreen S2), w2) /\
    moved s w w2 /\
    heap w2 !! s = Some S2.
Proof.
  intros Hs0 Hhb.
  pose proof (sprite_move_moved s w S0 Hs0 Hhb) as Hmove.
  apply wp_run in Hmove as ([] & w1 & Hrun & Hmoved).
  destruct (moved_self _ _ _ Hmoved) as (S0' & S1 & _ & Hs1 & _).
  assert (Hfin : exists w2 S2,
            sprite_finished s w1 = Ok (negb (Sprite.isOnScreen S2), w2) /\
            moved s w w2 /\ heap w2 !! s = Some S2).
  { unfold sprite_finished.
    destruct (decide (Sprite.cls S1 = Knife /\ Sprite.isOnScreen S1 = false)) as [[Hk Hoff]|Hno].
    - exists (set_heap (<[s := Sprite.silence S1]> (heap w1)) w1), (Sprite.silence S1).
      assert (Hon : Sprite.isOnScreen (Sprite.silence S1) = Sprite.isOnScreen S1).
      { unfold Sprite.silence. destruct (Sprite.sound S1); reflexivity. }
      split; [|split].
      + eapply bind_ok; [apply deref_ok, Hs1|]. rewrite Hk, Hon, Hoff. simpl.
        eapply bind_ok; [apply update_ok, Hs1|]. reflexivity.
      + pose proof (extends_update s w Sprite.silence ltac:(ext_update) w1 Hmoved) as Hup.
        unfold post in Hup. rewrite (update_ok _ _ _ _ Hs1) in Hup. exact Hup.
      + simpl. apply list_lookup_insert_eq. eapply lookup_lt_Some, Hs1.
    - exists w1, S1. split; [|split; assumption].
      eapply bind_ok; [apply deref_ok, Hs1|].
      destruct (Sprite.cls S1) eqn:Hc; try reflexivity.
      destruct (Sprite.isOnScreen S1) eqn:Hon; [reflexivity|].
      exfalso. apply Hno. auto. }
  destruct Hfin as (w2 & S2 & Hfin & Hmoved2 & Hs2).
  exists w2, S2. split; [|split; assumption].
  eapply bind_ok; [exact Hrun | exact Hfin].
Qed.

(** Whether the sprite is off the playfield ([finished()] of every class). *)
Definition finished_at (w : World) (r : ref) : bool :=
  match heap w !! r with
  | Some S1 => negb (Sprite.isOnScreen S1)
  | None => false
  end.

(** A sprite can be moved: the reference is good, and a player has its
    hitbox (the constructor of [Player] sets it). *)
Definition movable (w : World) (r : ref) : Prop :=
  exists S0, heap w !! r = Some S0 /\ (Sprite.cls S0 = Player -> is_Some (Sprite.hitbox S0)).

Lemma moved_coll c s w w2 :
  moved s w w2 ->
  exists pushed, coll c w2 = coll c w ++ pushed /\
                 Forall (fun r => (length (heap w) <= r)%nat) pushed.
Proof.
  intros H. destruct c.
  - exists []. rewrite app_nil_r. split; [apply (moved_bg _ _ _ H) | constructor].
  - apply (moved_fg _ _ _ H).
Qed.

Lemma splice_ok c i w : splice c i w = Ok (tt, with_coll c (delete i (coll c w)) w).
Proof. destruct c; reflexivity. Qed.

(** The loop of [move] from index [k - 1] down: [l0] is the array when the
    pass starts, [rest] what the loop has made of the indices from [k] on. *)
Lemma move_loop_spec c l0 : forall k w rest,
  (k <= length l0)%nat ->
  NoDup l0 ->
  coll c w = take k l0 ++ rest ->
  Forall (movable w) (take k l0) ->
  exists w' pushed,
    move_loop c k w = Ok (rev (take k l0), w') /\
    coll c w' = filter (fun r => finished_at w' r = false) (take k l0) ++ rest ++ pushed /\
    (length (heap w) <= length (heap w'))%nat /\
    (forall r, r ∉ take k l0 -> (r < length (heap w))%nat -> heap w' !! r = heap w !! r) /\
    Forall (fun r => (length (heap w) <= r)%nat) pushed.
Proof.
  induction k as [|i IH]; intros w rest Hk Hnodup Hcoll Hmov.
  - exists w, []. rewrite take_0 in *. simpl in *. rewrite app_nil_r.
    repeat split; auto.
  - destruct (lookup_lt_is_Some_2 l0 i ltac:(lia)) as [s Hs].
    assert (Htake : take (S i) l0 = take i l0 ++ [s]) by (apply take_S_r, Hs).
    rewrite Htake in *.
    assert (Hleni : length (take i l0) = i) by (rewrite length_take; lia).
    apply Forall_app in Hmov as [Hmov_i Hmov_s].
    apply Forall_singleton in Hmov_s as (S0 & Hs0 & Hhb).
    assert (Hnotin : s ∉ take i l0).
    { intros Hin. apply list_elem_of_lookup in Hin as [j Hj].
      assert (j < i)%nat by (apply lookup_lt_Some in Hj; lia).
      rewrite lookup_take_lt in Hj by lia.
      pose proof (NoDup_lookup _ _ _ _ Hnodup Hj Hs). lia. }
    destruct (visit_moved s w S0 Hs0 Hhb) as (w2 & S2 & Hvisit & Hmoved & Hs2).
    destruct (moved_coll c _ _ _ Hmoved) as (new & Hcoll2 & Hnew).
    set (f := negb (Sprite.isOnScreen S2)) in *.
    set (w3 := if f then with_coll c (delete i (coll c w2)) w2 else w2).
    assert (Hheap3 : heap w3 = heap w2) by (subst w3; destruct f, c; reflexivity).
    assert (Hcoll3 : coll c w3 = take i l0 ++ (if f then [] else [s]) ++ rest ++ new).
    { subst w3. rewrite Hcoll2, Hcoll, <- !app_assoc. destruct f.
      - replace (coll c (with_coll c (delete i (take i l0 ++ [s] ++ rest ++ new)) w2))
          with (delete i (take i l0 ++ [s] ++ rest ++ new)) by (destruct c; reflexivity).
        pose proof (delete_middle (take i l0) (rest ++ new) s) as Hd.
        rewrite Hleni in Hd. exact Hd.
      - rewrite Hcoll2, Hcoll, <- !app_assoc. reflexivity. }
    destruct (IH w3 ((if f then [] else [s]) ++ rest ++ new)) as (w' & pushed & Hloop & Hcoll' & Hlen' & Hframe' & Hpushed');
      [lia | assumption | exact Hcoll3 | |].
    { apply Forall_forall. intros r Hr.
      destruct (proj1 (Forall_forall _ _) Hmov_i r Hr) as (R0 & HR0 & HRhb).
      exists R0. split; [|exact HRhb]. rewrite Hheap3.
      rewrite (moved_others _ _ _ Hmoved); [exact HR0 | | eapply lookup_lt_Some, HR0].
      intros ->. contradiction. }
    pose proof (moved_length _ _ _ Hmoved) as Hlen2.
    assert (Hs' : heap w' !! s = Some S2).
    { rewrite Hframe'; rewrite ?Hheap3; [exact Hs2 | exact Hnotin|].
      eapply lookup_lt_Some, Hs2. }
    exists w', (new ++ pushed). split; [|split; [|split; [|split]]].
    + simpl move_loop. eapply bind_ok; [reflexivity|]. cbv beta.
      rewrite Hcoll, lookup_app_l by (rewrite length_app; simpl; lia).
      rewrite lookup_app_r, Hleni, Nat.sub_diag by lia. simpl.
      unfold bind in Hvisit |- *.
      destruct (sprite_move s w) as [[[] w1]| |]; try discriminate.
      rewrite Hvisit. fold f.
      assert (Hwhen : when f (splice c i) w2 = Ok (tt, w3)).
      { subst w3. destruct f; [apply splice_ok | reflexivity]. }
      rewrite Hwhen, Hloop, rev_app_distr. reflexivity.
    + rewrite Hcoll', filter_app, <- !app_assoc. f_equal.
      rewrite filter_cons, filter_nil.
      assert (Hfin : finished_at w' s = f) by (unfold finished_at; rewrite Hs'; reflexivity).
      destruct f; simpl.
      * rewrite decide_False by (rewrite Hfin; discriminate). reflexivity.
      * rewrite decide_True by exact Hfin. reflexivity.
    + rewrite Hheap3 in Hlen'. lia.
    + intros r Hr Hlt. rewrite Hframe'.
      * rewrite Hheap3. apply (moved_others _ _ _ Hmoved); [|exact Hlt].
        intros ->. apply Hr, elem_of_app. right. apply list_elem_of_here.
      * intros Hin. apply Hr, elem_of_app. left. exact Hin.
      * rewrite Hheap3. lia.
    + apply Forall_app. split; [exact Hnew|].
      eapply Forall_impl; [exact Hpushed'|]. simpl. intros r Hr. rewrite Hheap3 in Hr. lia.
Qed.

(** The reading of the specification: the pass visits the sprites in the
    order of the array (the order of insertion, for an array built by
    [push]). *)
Definition visits_in_array_order (c : Coll) (w : World) : Prop :=
  exists visited w', move c w = Ok (visited, w') /\ visited = coll c w.

(** C6, as the specification words it, fails: with the player at index 0 and
    a lamb at index 1, [move] calls the lamb's [move()] first. *)
Lemma move_order_counterexample :
  ~ visits_in_array_order Sprites (meeting_world (new_Lamb 0)).
Proof.
  intros (visited & w' & Hrun & Horder).
  vm_compute in Hrun. injection Hrun as Hvisited _. subst visited.
  vm_compute in Horder. discriminate.
Qed.

(** C6 (amended): the movement pass visits the sprites from the last index
    of the array down to the first, that is in the reverse of the array
    order. For an array without repetition whose sprites can be moved, the
    pass returns, [move()] has been called exactly once on each sprite that
    was in the array when the pass started (and on no other), and the array
    then holds, in their order, those of them for which [finished()] does
    not hold after the pass, followed by the sprites created during the pass
    (the knives thrown), which the pass does not visit. *)
Theorem move_visits_last_to_first (c : Coll) (w : World) :
  NoDup (coll c w) ->
  Forall (movable w) (coll c w) ->
  exists w' pushed,
    move c w = Ok (rev (coll c w), w') /\
    coll c w' = filter (fun r => finished_at w' r = false) (coll c w) ++ pushed /\
    Forall (fun r => (length (heap w) <= r)%nat) pushed.
Proof.
  intros Hnodup Hmov.
  destruct (move_loop_spec c (coll c w) (length (coll c w)) w [])
    as (w' & pushed & Hrun & Hcoll & _ & _ & Hpushed);
    rewrite ?firstn_all, ?app_nil_r; auto.
  rewrite firstn_all in *. exists w', pushed. repeat split; assumption.
Qed.

(** A decision procedure for [movable]. *)
Definition movableb (w : World) (r : ref) : bool :=
  match heap w !! r with
  | Some S0 =>
    match Sprite.cls S0, Sprite.hitbox S0 with
    | Player, None => false
    | _, _ => true
    end
  | None => false
  end.

Lemma movableb_sound w l : forallb (movableb w) l = true -> Forall (movable w) l.
Proof.
  rewrite forallb_forall. intros H. apply Forall_forall. intros r Hr.
  apply list_elem_of_In, H in Hr. unfold movableb, movable in *.
  destruct (heap w !! r) as [S0|]; [|discriminate].
  exists S0. split; [reflexivity|]. intros Hcls. rewrite Hcls in Hr.
  destruct (Sprite.hitbox S0); [eauto | discriminate].
Qed.

Lemma move_visits_last_to_first_witness :
  exists w' pushed,
    move Sprites (meeting_world (new_Lamb 0))
      = Ok (rev (coll Sprites (meeting_world (new_Lamb 0))), w') /\
    coll Sprites w'
      = filter (fun r => finished_at w' r = false) (coll Sprites (meeting_world (new_Lamb 0)))
        ++ pushed /\
    Forall (fun r => (length (heap (meeting_world (new_Lamb 0))) <= r)%nat) pushed.
Proof.
  apply (move_visits_last_to_first Sprites (meeting_world (new_Lamb 0))).
  - vm_compute. apply NoDup_cons. split; [|apply NoDup_singleton].
    intros H. apply list_elem_of_singleton in H. discriminate.
  - apply movableb_sound. vm_compute. reflexivity.
Defined.

(** X1: what the interaction pass, which follows the movement pass in a
    tick, can rely on. For an array without repetition whose sprites can be
    moved, a sprite that was in the array before the movement pass and is
    still in it is on the playfield: its [finished()] is false. *)
Lemma move_leaves_sprites_in_play (c : Coll) (w w' : World) (visited : list ref) (r : ref) :
  NoDup (coll c w) ->
  Forall (movable w) (coll c w) ->
  move c w = Ok (visited, w') ->
  r ∈ coll c w ->
  r ∈ coll c w' ->
  finished_at w' r = false.
Proof.
  intros Hnodup Hmov Hrun Hr Hr'.
  destruct (move_loop_spec c (coll c w) (length (coll c w)) w [])
    as (w2 & pushed & Hrun2 & Hcoll & _ & _ & Hpushed);
    rewrite ?firstn_all, ?app_nil_r; auto.
  rewrite firstn_all in *. simpl in Hcoll.
  assert (w2 = w') as -> by (unfold move, bind, gets in Hrun; congruence).
  rewrite Hcoll in Hr'. apply elem_of_app in Hr' as [Hin | Hin].
  - apply list_elem_of_filter in Hin as [Hfin _]. exact Hfin.
  - exfalso.
    destruct (proj1 (Forall_forall _ _) Hmov r Hr) as (S0 & HS0 & _).
    apply lookup_lt_Some in HS0.
    pose proof (proj1 (Forall_forall _ _) Hpushed r Hin). simpl in *. lia.
Qed.

(** ** The scan of [interact] never runs out of fuel *)

(** [grown n w0 w]: since [w0] no sprite has changed its class, at most [n]
    sprites have been pushed to the foreground, all of them new and of
    classes that [Player.interact] has no case for, and the background is
    the same array. *)
Definition grown (n : nat) (w0 w : World) : Prop :=
  exists added new,
    classes w = classes w0 ++ added /\
    Forall (fun c => reacted_to c = false) added /\
    coll Sprites w = coll Sprites w0 ++ new /\
    coll Bgsprites w = coll Bgsprites w0 /\
    Forall (fun r => (length (classes w0) <= r)%nat) new /\
    (length new <= n)%nat.

Lemma grown_refl n w : grown n w w.
Proof. exists [], []. rewrite !app_nil_r. repeat split; auto; simpl; lia. Qed.

Lemma grown_more w0 w : grown 0 w0 w -> grown 2 w0 w.
Proof.
  intros (added & new & H1 & H2 & H3 & H4 & H5 & H6).
  exists added, new. repeat split; auto; lia.
Qed.

(** [triple P m Q]: from a world that satisfies [P], a run of [m] that
    returns ends in a world that satisfies [Q]. *)
Definition triple (P : World -> Prop) {A} (m : M A) (Q : World -> Prop) : Prop :=
  forall w, P w -> wlp m (fun _ w' => Q w') w.

Lemma triple_bind {A B} (P R Q : World -> Prop) (m : M A) (k : A -> M B) :
  triple P m R -> (forall a, triple R (k a) Q) -> triple P (bind m k) Q.
Proof.
  intros Hm Hk w H. apply post_bind. eapply post_conseq; [apply Hm, H|].
  intros a w' H'. apply Hk, H'.
Qed.

Lemma triple_preserves J {A} (m : M A) : preserves J m -> triple J m J.
Proof. intros H; exact H. Qed.

Lemma triple_post (P Q Q' : World -> Prop) {A} (m : M A) :
  triple P m Q -> (forall w, Q w -> Q' w) -> triple P m Q'.
Proof. intros Hm HQ w H. eapply post_conseq; [apply Hm, H|]. intros a w'. apply HQ. Qed.

Lemma triple_when (P Q : World -> Prop) b (m : M unit) :
  triple P m Q -> (forall w, P w -> Q w) -> triple P (when b m) Q.
Proof. intros Hm HPQ. destruct b; [exact Hm|]. intros w H. apply HPQ, H. Qed.

Lemma triple_ret (P Q : World -> Prop) {A} (a : A) :
  (forall w, P w -> Q w) -> triple P (ret a) Q.
Proof. intros HPQ w H. apply HPQ, H. Qed.

Section Grown.
Context (n : nat) (w0 : World).

(** The steps that keep [grown n w0]. *)
Lemma grown_modify_gs (f : GameState.t -> GameState.t) :
  (forall g, GameState.bgsprites (f g) = GameState.bgsprites g /\
             GameState.sprites (f g) = GameState.sprites g) ->
  preserves (grown n w0) (modify_gs f).
Proof.
  intros Hf w (added & new & H1 & H2 & H3 & H4 & H5 & H6).
  destruct (Hf (gamestate w)) as [Hbg Hfg].
  exists added, new. simpl in *. rewrite Hbg, Hfg. repeat split; assumption.
Qed.

Lemma grown_update r (f : Sprite.t -> Sprite.t) :
  (forall S1, Sprite.cls (f S1) = Sprite.cls S1) ->
  preserves (grown n w0) (update r f).
Proof.
  intros Hf w (added & new & H1 & H2 & H3 & H4 & H5 & H6).
  unfold post, update, bind, deref, modify.
  destruct (heap w !! r) as [S1|] eqn:Hr; [|exact Logic.I]. simpl.
  exists added, new. repeat split; try assumption.
  rewrite <- H1. unfold classes. simpl. rewrite list_fmap_insert, Hf.
  apply list_insert_id. rewrite list_lookup_fmap, Hr. reflexivity.
Qed.

Lemma grown_Math_random : preserves (grown n w0) Math_random.
Proof. intros w H. unfold post, Math_random. destruct (rng w); exact H. Qed.

Lemma grown_silence_all l : preserves (grown n w0) (silence_all l).
Proof.
  induction l as [|r rest IH]; simpl; [apply preserves_ret|].
  apply preserves_bind; [|intros _; exact IH].
  apply grown_update. intros S1. unfold Sprite.silence. destruct (Sprite.sound S1); reflexivity.
Qed.

Lemma grown_Player_spendKnife this b : preserves (grown n w0) (Player_spendKnife this b).
Proof.
  unfold Player_spendKnife.
  repeat first
    [ apply grown_update; intros ?; reflexivity
    | apply grown_modify_gs; intros ?; split; reflexivity
    | pres_step ].
Qed.

End Grown.

Lemma grown_silenceAllSprites n w0 : preserves (grown n w0) silenceAllSprites.
Proof.
  unfold silenceAllSprites.
  repeat first [ apply grown_silence_all | pres_step ].
Qed.

(** The game-over transition pushes one or two overlays. *)
Lemma grown_setGamePhase_game_over w0 :
  triple (grown 0 w0) (setGamePhase PHASE_GAME_OVER) (grown 2 w0).
Proof.
  intros w H. unfold setGamePhase.
  apply post_bind. eapply post_conseq; [apply grown_silenceAllSprites, H|].
  intros [] w1 (added & new & H1 & H2 & H3 & H4 & H5 & H6).
  assert (Hnew : new = []) by (destruct new; [reflexivity | simpl in H6; lia]).
  subst new. rewrite app_nil_r in H3.
  assert (Hlen : (length (classes w0) <= length (heap w1))%nat).
  { rewrite <- (length_fmap Sprite.cls (heap w1)). fold (classes w1).
    rewrite H1, length_app. lia. }
  unfold post, bind, setMusic, modify_gs, modify, alloc, push, bind, gets, set_coll,
    modify_gs, modify, ret. cbn.
  destruct (hiScore w1 <? GameState.score (gamestate w1))%Z; cbn.
  - assert (Hg : grown 2 w0
        (set_gamestate
           (GameState.set_sprites
              ((GameState.sprites (gamestate w1) ++ [length (heap w1)])
               ++ [length (heap w1 ++ [new_GameOverMessage])])
              (GameState.set_frameDelay 100
                 (GameState.set_sprites (GameState.sprites (gamestate w1) ++ [length (heap w1)])
                    (GameState.set_phase PHASE_GAME_OVER (gamestate w1)))))
           (set_heap ((heap w1 ++ [new_GameOverMessage]) ++ [new_NewHiScore])
              (set_hiScore (GameState.score (gamestate w1)) w1)))).
    { exists (added ++ [GameOverMessage; NewHiScore]),
             [length (heap w1); length (heap w1 ++ [new_GameOverMessage])].
      unfold classes in *. simpl in *.
      rewrite !fmap_app, H1, H3, <- !app_assoc. simpl.
      repeat split; try assumption.
      - apply Forall_app. split; [assumption | repeat constructor].
      - repeat constructor; rewrite ?length_app; simpl; lia.
      - lia. }
    destruct (localStorage w1); exact Hg.
  - exists (added ++ [GameOverMessage]), [length (heap w1)].
    unfold classes in *. simpl in *.
    rewrite !fmap_app, H1, H3, <- !app_assoc. simpl.
    repeat split; try assumption.
    + apply Forall_app. split; [assumption | repeat constructor].
    + repeat constructor. lia.
    + lia.
Qed.

Lemma grown_die w0 this : triple (grown 0 w0) (die this) (grown 2 w0).
Proof.
  unfold die. eapply triple_bind; [apply triple_preserves, preserves_deref|].
  intros S1. destruct (Sprite.cls S1);
    try (intros w H; exact Logic.I).
  - unfold Player_die. eapply triple_bind; [|intros _; apply grown_setGamePhase_game_over].
    apply grown_update. reflexivity.
  - eapply triple_post; [|apply grown_more]. unfold Lamb_die. apply triple_preserves.
    repeat first [ apply grown_update; intros ?; reflexivity | pres_step ].
Qed.

Lemma grown_Player_die w0 this : triple (grown 0 w0) (Player_die this) (grown 2 w0).
Proof.
  unfold Player_die. eapply triple_bind; [|intros _; apply grown_setGamePhase_game_over].
  apply grown_update. reflexivity.
Qed.

Ltac grown_step :=
  first [ apply grown_update; intros ?; unfold Knife_setState, Sprite.silence;
          repeat case_match; reflexivity
        | apply grown_modify_gs; intros ?; split; reflexivity
        | apply grown_Math_random
        | apply grown_Player_spendKnife
        | pres_step ].

(** [s1.interact(s2)] pushes at most two sprites. *)
Lemma grown_sprite_interact w0 s1 s2 :
  triple (grown 0 w0) (sprite_interact s1 s2) (grown 2 w0).
Proof.
  unfold sprite_interact.
  eapply triple_bind; [apply triple_preserves, preserves_deref|].
  intros S1. destruct (Sprite.cls S1);
    try (apply triple_ret; apply grown_more).
  - (* Player.interact *)
    unfold Player_interact.
    eapply triple_bind; [apply triple_preserves, preserves_deref|]. intros Ot.
    destruct (_ || _).
    { eapply triple_bind; [apply triple_preserves, preserves_deref|]. intros T.
      apply triple_when; [apply grown_Player_die | apply grown_more]. }
    destruct (_ =? _)%string.
    { eapply triple_bind; [apply triple_preserves, preserves_deref|]. intros T.
      apply triple_when; [|apply grown_more].
      destruct (Sprite.dead Ot); [apply triple_ret, grown_more|].
      eapply triple_bind; [apply triple_preserves, grown_Player_spendKnife|]. intros spent.
      destruct (negb spent); [apply triple_ret, grown_more|].
      eapply triple_bind; [apply grown_die|]. intros _.
      apply triple_preserves. grown_step. }
    destruct (_ =? _)%string; [|apply triple_ret, grown_more].
    eapply triple_bind; [apply triple_preserves, preserves_deref|]. intros T.
    apply triple_when; [|apply grown_more].
    destruct (Sprite.state Ot) as [[|]|]; try apply grown_Player_die.
    eapply triple_post; [|apply grown_more]. apply triple_preserves.
    repeat grown_step.
  - (* Knife.interact *)
    unfold Knife_interact.
    eapply triple_bind; [apply triple_preserves, preserves_deref|]. intros T.
    destruct (Sprite.state T) as [[|]|]; try (apply triple_ret; apply grown_more).
    eapply triple_bind; [apply triple_preserves, preserves_deref|]. intros Ot.
    destruct (_ || _).
    { eapply triple_post; [|apply grown_more]. apply triple_preserves. repeat grown_step. }
    destruct (_ =? _)%string; [|apply triple_ret, grown_more].
    apply triple_when; [|apply grown_more].
    destruct (Sprite.dead Ot); [apply triple_ret, grown_more|].
    eapply triple_bind; [apply grown_die|]. intros _.
    apply triple_preserves. repeat grown_step.
Qed.

(** The steps of the scan that a sprite of the array can cost: itself and
    the two overlays that the death of the player pushes, for a sprite of a
    class that [Player.interact] has a case for; itself for another. *)
Definition weight (w : World) (r : ref) : nat :=
  match classes w !! r with
  | Some c => if reacted_to c then 3 else 1
  | None => 1
  end.

Fixpoint potential (w : World) (l : list ref) : nat :=
  match l with
  | [] => 0
  | r :: rest => weight w r + potential w rest
  end.

Lemma sprite_interact_unreacted w s1 s2 w1 :
  weight w s2 = 1%nat ->
  sprite_interact s1 s2 w = Ok (tt, w1) ->
  w1 = w.
Proof.
  unfold weight, classes. rewrite list_lookup_fmap. intros Hw.
  assert (Hother : forall (k : Sprite.t -> M unit) r,
            (forall Ot, reacted_to (Sprite.cls Ot) = false -> k Ot w = Ok (tt, w)) ->
            bind (deref s2) k w = Ok (tt, r) -> r = w).
  { intros k r Hk. unfold bind, deref. destruct (heap w !! s2) as [Ot|]; [|discriminate].
    simpl in Hw. rewrite Hk; [congruence|].
    destruct (reacted_to (Sprite.cls Ot)); [discriminate | reflexivity]. }
  assert (Hignored : forall Ot, reacted_to (Sprite.cls Ot) = false ->
            (Sprite.name Ot =? "Broccoli")%string || (Sprite.name Ot =? "Onion")%string = false /\
            (Sprite.name Ot =? "Lamb")%string = false /\
            (Sprite.name Ot =? "Knife")%string = false).
  { intros Ot. unfold Sprite.name. destruct (Sprite.cls Ot); try discriminate; auto. }
  unfold sprite_interact, bind at 1, deref at 1.
  destruct (heap w !! s1) as [S1|] eqn:H1; [|discriminate].
  destruct (Sprite.cls S1); try (intros [= <-]; reflexivity).
  - unfold Player_interact. apply Hother.
    intros Ot HOt. destruct (Hignored Ot HOt) as (-> & -> & ->). reflexivity.
  - unfold Knife_interact, bind at 1, deref at 1. rewrite H1.
    destruct (Sprite.state S1) as [[|]|]; try (intros [= <-]; reflexivity).
    apply Hother.
    intros Ot HOt. destruct (Hignored Ot HOt) as (-> & -> & _). reflexivity.
Qed.

Lemma grown_weight n w w1 r : grown n w w1 -> (weight w1 r <= weight w r)%nat.
Proof.
  intros (added & new & H1 & H2 & _). unfold weight. rewrite H1.
  destruct (classes w !! r) as [c|] eqn:Hr.
  - rewrite (lookup_app_l_Some _ _ _ _ Hr). lia.
  - apply lookup_ge_None in Hr. rewrite lookup_app_r by lia.
    destruct (added !! _) as [c|] eqn:Ha; [|lia].
    rewrite (proj1 (Forall_lookup _ _) H2 _ _ Ha). lia.
Qed.

Lemma grown_weight_new n w w1 r :
  grown n w w1 -> (length (classes w) <= r)%nat -> weight w1 r = 1%nat.
Proof.
  intros (added & new & H1 & H2 & _) Hr. unfold weight. rewrite H1, lookup_app_r by lia.
  destruct (added !! _) as [c|] eqn:Ha; [|reflexivity].
  rewrite (proj1 (Forall_lookup _ _) H2 _ _ Ha). reflexivity.
Qed.

Lemma potential_le n w w1 l : grown n w w1 -> (potential w1 l <= potential w l)%nat.
Proof.
  intros H. induction l as [|r l IH]; simpl; [lia|].
  pose proof (grown_weight n w w1 r H). lia.
Qed.

Lemma potential_new n w w1 l :
  grown n w w1 -> Forall (fun r => (length (classes w) <= r)%nat) l ->
  potential w1 l = length l.
Proof.
  intros H. induction 1 as [|r l Hr _ IH]; simpl; [reflexivity|].
  rewrite (grown_weight_new n w w1 r H Hr), IH. reflexivity.
Qed.

Lemma potential_bound w l : (potential w l <= 3 * length l)%nat.
Proof.
  induction l as [|r l IH]; simpl; [lia|].
  assert (weight w r <= 3)%nat.
  { unfold weight. destruct (classes w !! r) as [c|]; [destruct (reacted_to c)|]; lia. }
  lia.
Qed.

Lemma grown_coll n c w w1 :
  grown n w w1 ->
  exists new, coll c w1 = coll c w ++ new /\
              Forall (fun r => (length (classes w) <= r)%nat) new /\
              (length new <= n)%nat.
Proof.
  intros (added & new & H1 & H2 & H3 & H4 & H5 & H6). destruct c.
  - exists []. rewrite app_nil_r. repeat split; auto. simpl. lia.
  - exists new. auto.
Qed.

(** [m] returns or raises: it does not run out of fuel. *)
Definition terminates {A} (m : M A) : Prop := forall w, m w <> Timeout.

Lemma terminates_ret {A} (a : A) : terminates (ret a).
Proof. intros w. discriminate. Qed.

Lemma terminates_throw {A} : terminates (@throw A).
Proof. intros w. discriminate. Qed.

Lemma terminates_gets {A} (f : World -> A) : terminates (gets f).
Proof. intros w. discriminate. Qed.

Lemma terminates_modify f : terminates (modify f).
Proof. intros w. discriminate. Qed.

Lemma terminates_deref r : terminates (deref r).
Proof. intros w. unfold deref. destruct (heap w !! r); discriminate. Qed.

Lemma terminates_alloc s : terminates (alloc s).
Proof. intros w. discriminate. Qed.

Lemma terminates_Math_random : terminates Math_random.
Proof. intros w. unfold Math_random. destruct (rng w); discriminate. Qed.

Lemma terminates_bind {A B} (m : M A) (k : A -> M B) :
  terminates m -> (forall a, terminates (k a)) -> terminates (bind m k).
Proof.
  intros Hm Hk w. unfold bind. specialize (Hm w).
  destruct (m w) as [[a w']| |]; [apply Hk | discriminate | contradiction].
Qed.

Lemma terminates_when b (m : M unit) : terminates m -> terminates (when b m).
Proof. intros Hm. destruct b; [exact Hm | apply terminates_ret]. Qed.

Create HintDb terminates.
#[local] Hint Resolve terminates_deref terminates_alloc terminates_Math_random : terminates.

Ltac terminates_step :=
  lazymatch goal with
  | |- terminates (bind _ _) => apply terminates_bind; [|intros ?]
  | |- terminates (ret _) => apply terminates_ret
  | |- terminates throw => apply terminates_throw
  | |- terminates (gets _) => apply terminates_gets
  | |- terminates (modify _) => apply terminates_modify
  | |- terminates (modify_gs _) => apply terminates_modify
  | |- terminates (when _ _) => apply terminates_when
  | |- terminates (update _ _) => unfold update
  | |- terminates (push _ _) => unfold push
  | |- terminates (splice _ _) => unfold splice
  | |- terminates (setMusic _) => unfold setMusic
  | |- terminates (set_input _) => unfold set_input
  | |- terminates (set_coll ?c _) => destruct c; unfold set_coll
  | |- terminates (if ?b then _ else _) => destruct b
  | |- terminates (match ?x with _ => _ end) => destruct x
  end.

Ltac terminates_tac := repeat first [ solve [eauto with terminates] | terminates_step ].

Lemma terminates_silence_all l : terminates (silence_all l).
Proof. induction l; simpl; terminates_tac. Qed.
#[local] Hint Resolve terminates_silence_all : terminates.

Lemma terminates_setGamePhase p : terminates (setGamePhase p).
Proof. destruct p; unfold setGamePhase, silenceAllSprites; terminates_tac. Qed.
#[local] Hint Resolve terminates_setGamePhase : terminates.

Lemma terminates_Player_spendKnife this b : terminates (Player_spendKnife this b).
Proof. unfold Player_spendKnife. terminates_tac. Qed.
#[local] Hint Resolve terminates_Player_spendKnife : terminates.

Lemma terminates_die this : terminates (die this).
Proof. unfold die, Player_die, Lamb_die. terminates_tac. Qed.
#[local] Hint Resolve terminates_die : terminates.

Lemma terminates_sprite_interact s1 s2 : terminates (sprite_interact s1 s2).
Proof. unfold sprite_interact, Player_interact, Knife_interact, Player_die. terminates_tac. Qed.

Lemma terminates_sprite_move this : terminates (sprite_move this).
Proof.
  unfold sprite_move, Player_move, Player_throw, Lamb_move, road_move, Onion_move,
    Knife_move.
  terminates_tac.
Qed.

Lemma terminates_sprite_finished this : terminates (sprite_finished this).
Proof. unfold sprite_finished. terminates_tac. Qed.
#[local] Hint Resolve terminates_sprite_interact terminates_sprite_move
  terminates_sprite_finished : terminates.

Lemma weight_cases w r : weight w r = 1%nat \/ weight w r = 3%nat.
Proof.
  unfold weight. destruct (classes w !! r) as [c|]; [destruct (reacted_to c)|]; auto.
Qed.

Lemma potential_app w l1 l2 : potential w (l1 ++ l2) = (potential w l1 + potential w l2)%nat.
Proof. induction l1 as [|r l1 IH]; simpl; [reflexivity|]. rewrite IH. lia. Qed.

(** The scan terminates when its fuel exceeds the potential of the part of
    the array that is left to scan. *)
Lemma interact_scan_terminates c s1 : forall fuel k w,
  (potential w (drop k (coll c w)) < fuel)%nat ->
  interact_scan fuel c s1 k w <> Timeout.
Proof.
  induction fuel as [|fuel IH]; intros k w Hfuel; [lia|].
  simpl. unfold bind at 1, gets.
  destruct (coll c w !! k) as [s2|] eqn:Hk; [|discriminate].
  unfold bind.
  destruct (sprite_interact s1 s2 w) as [[[] w1]| |] eqn:Hstep;
    [| discriminate | exfalso; eapply terminates_sprite_interact; eauto].
  apply IH.
  rewrite (drop_S _ _ _ Hk) in Hfuel. simpl in Hfuel.
  destruct (weight_cases w s2) as [Hw | Hw].
  - rewrite (sprite_interact_unreacted w s1 s2 w1 Hw Hstep). lia.
  - pose proof (grown_sprite_interact w s1 s2 w (grown_refl 0 w)) as Hg.
    unfold post in Hg. rewrite Hstep in Hg.
    destruct (grown_coll 2 c w w1 Hg) as (new & Hc1 & Hfresh & Hlen).
    rewrite Hc1, drop_app_le by (apply lookup_lt_Some in Hk; lia).
    rewrite potential_app, (potential_new 2 w w1 new Hg Hfresh).
    pose proof (potential_le 2 w w1 (drop (S k) (coll c w)) Hg). lia.
Qed.

Lemma interact_scan_fuel_suffices c s1 w :
  interact_scan (scan_fuel (coll c w)) c s1 0 w <> Timeout.
Proof.
  apply interact_scan_terminates. rewrite drop_0. unfold scan_fuel.
  pose proof (potential_bound w (coll c w)). lia.
Qed.

Lemma terminates_interact_loop c n : terminates (interact_loop c n).
Proof.
  induction n as [|i IH]; simpl; [apply terminates_ret|].
  intros w. unfold bind at 1, gets.
  destruct (coll c w !! i) as [s1|] eqn:Hi; [|discriminate].
  unfold bind at 1.
  pose proof (interact_scan_fuel_suffices c s1 w) as Hscan.
  destruct (interact_scan (scan_fuel (coll c w)) c s1 0 w) as [[[] w1]| |];
    [| discriminate | contradiction].
  clear Hscan. revert w1. change (terminates (let* f := sprite_finished s1 in
                                 let* _ := when f (splice c i) in interact_loop c i)).
  terminates_tac.
Qed.

Lemma terminates_move_loop c n : terminates (move_loop c n).
Proof. induction n; simpl; terminates_tac. Qed.
#[local] Hint Resolve terminates_interact_loop terminates_move_loop : terminates.

Lemma terminates_keys_y l : terminates (keys_y l).
Proof. induction l; simpl; terminates_tac. Qed.

Lemma nextFrame_terminates s : Sprite.nextFrame s <> Timeout.
Proof. unfold Sprite.nextFrame. repeat case_match; discriminate. Qed.

Lemma terminates_render l : terminates (render l).
Proof.
  induction l as [|r rest IH]; simpl; [apply terminates_ret|].
  apply terminates_bind; [|intros _; exact IH].
  unfold render_sprite. apply terminates_bind; [apply terminates_deref|]. intros s.
  pose proof (nextFrame_terminates s) as Hnext.
  destruct (Sprite.nextFrame s) as [[image s']| |];
    [| apply terminates_throw | contradiction].
  terminates_tac.
Qed.

Lemma terminates_all_ready l : terminates (all_ready l).
Proof. induction l; simpl; terminates_tac. Qed.

Lemma terminates_push_road_lines l : terminates (push_road_lines l).
Proof. induction l; simpl; terminates_tac. Qed.
#[local] Hint Resolve terminates_keys_y terminates_render terminates_all_ready
  terminates_push_road_lines : terminates.

(** No event handler runs out of fuel: the bound on the scan of [interact]
    never cuts a run short. *)
Lemma handle_terminates e : terminates (handle e).
Proof.
  destruct e; simpl;
    unfold gameloop, loaded, render_all, running_tick, game_over_tick, prepareRender,
      move, interact, keydown, keyup, startGameAndSound, image_onload, frames_decoded;
    terminates_tac.
Qed.

(** * More of the game *)

(** ** Worlds for the examples *)

(** A sprite put where it overlaps the player at its starting place. *)
Definition at_player (other : Sprite.t) : Sprite.t := Sprite.set_y 250 (Sprite.set_x 130 other).

(** The sprite at a reference, for the examples. *)
Definition sprite_at (w : World) (r : nat) : Sprite.t := default new_Player (heap w !! r).

(** The player of [meeting_world] without a knife. *)
Definition unarmed_world (other : Sprite.t) : World :=
  set_gamestate (GameState.set_knives 0 (gamestate (meeting_world other))) (meeting_world other).

(** A thrown knife and another sprite that overlaps it, both images loaded,
    alone in the foreground of a run, the knife first. *)
Definition knife_meets (other : Sprite.t) : World :=
  world_after (run [ImageLoaded 0 32; ImageLoaded 1 32])
    (mkWorld [at_player (new_Knife STATE_THROWN 0); at_player other]
       (GameState.set_sprites [0; 1]%nat (GameState.set_phase PHASE_RUNNING INITIAL_GAMESTATE))
       0 None None true [0.5%Q] []).

(** ** Runs that return *)

(** What holds after a run that returns. *)
Lemma post_returns (fail : Prop) {A} (m : M A) (Q : A -> World -> Prop) (w w' : World) (a : A) :
  post fail m Q w -> m w = Ok (a, w') -> Q a w'.
Proof. unfold post. intros H E. rewrite E in H. exact H. Qed.

Lemma preserves_returns (J : World -> Prop) {A} (m : M A) (w w' : World) (a : A) :
  preserves J m -> J w -> m w = Ok (a, w') -> J w'.
Proof. intros H HJ E. specialize (H w HJ). unfold post in H. rewrite E in H. exact H. Qed.

(** X2: every event handler comes to an end, from any world: it returns or
    it raises. In particular the [for ... of] loop of [interact], which
    reads the array while [Player.die] pushes to it, always reaches the end
    of the array. *)
Theorem handle_returns_or_raises (e : Event) (w : World) :
  handle e w = TypeError \/ exists w', handle e w = Ok (tt, w').
Proof.
  pose proof (handle_terminates e w) as H.
  destruct (handle e w) as [[[] w']| |]; [right; eauto | left; reflexivity | contradiction].
Qed.

(** ** Hit-rectangles and the playfield *)

Lemma Qltb_lt (a b : Q) : Qltb a b = true <-> (a < b)%Q.
Proof.
  unfold Qltb. rewrite negb_true_iff. split.
  - intros H. apply Qnot_le_lt. intros Hle. apply Qle_bool_iff in Hle. congruence.
  - intros H. destruct (Qle_bool b a) eqn:E; [|reflexivity].
    apply Qle_bool_iff in E. exfalso. apply (Qlt_not_le _ _ H E).
Qed.

Lemma Qltb_ge (a b : Q) : Qltb a b = false <-> (b <= a)%Q.
Proof.
  unfold Qltb. rewrite negb_false_iff. apply Qle_bool_iff.
Qed.

Lemma Qltb_comp (a a' b b' : Q) : (a == a')%Q -> (b == b')%Q -> Qltb a b = Qltb a' b'.
Proof. intros Ha Hb. unfold Qltb. rewrite Ha, Hb. reflexivity. Qed.

(** X3: [a.intersects(b)] and [b.intersects(a)] return the same value,
    whatever the two sprites are: [undefined] when one of them has no
    hitbox, the same boolean otherwise. *)
Theorem intersects_symmetric (a b : Sprite.t) :
  Sprite.intersects a b = Sprite.intersects b a.
Proof.
  unfold Sprite.intersects.
  destruct (Sprite.hitbox a) as [ha|], (Sprite.hitbox b) as [hb|]; try reflexivity.
  cbn. unfold Qgtb. f_equal.
  rewrite (Qltb_comp (Sprite.y b + Rect.y hb) _ (Rect.h ha + (Sprite.y a + Rect.y ha)) (Sprite.y a + Rect.y ha + Rect.h ha))
    by (try reflexivity; ring).
  rewrite (Qltb_comp (Sprite.y a + Rect.y ha) _ (Rect.h hb + (Sprite.y b + Rect.y hb)) (Sprite.y b + Rect.y hb + Rect.h hb))
    by (try reflexivity; ring).
  repeat match goal with |- context [Qltb ?x ?y] => generalize (Qltb x y); intros ? end.
  repeat match goal with b : bool |- _ => destruct b end; reflexivity.
Qed.

(** The hit-rectangle of a sprite on the playfield. *)
Definition hit_rect (s : Sprite.t) (hb : Rect.t) : Rect.t :=
  Rect.mk (Sprite.x s + Rect.x hb) (Sprite.y s + Rect.y hb) (Rect.w hb) (Rect.h hb).

(** The point [(px, py)] lies strictly inside the rectangle. *)
Definition inside (px py : Q) (r : Rect.t) : Prop :=
  (Rect.x r < px)%Q /\ (px < Rect.x r + Rect.w r)%Q /\
  (Rect.y r < py)%Q /\ (py < Rect.y r + Rect.h r)%Q.

Lemma between (l1 r1 l2 r2 : Q) :
  (l1 < r1)%Q -> (l2 < r2)%Q -> (l1 < r2)%Q -> (l2 < r1)%Q ->
  exists p, (l1 < p)%Q /\ (p < r1)%Q /\ (l2 < p)%Q /\ (p < r2)%Q.
Proof.
  intros H1 H2 H3 H4.
  destruct (Qlt_le_dec l1 l2) as [Hl | Hl], (Qlt_le_dec r1 r2) as [Hr | Hr].
  - exists ((l2 + r1) * (1 # 2))%Q. split; [|split; [|split]]; lra.
  - exists ((l2 + r2) * (1 # 2))%Q. split; [|split; [|split]]; lra.
  - exists ((l1 + r1) * (1 # 2))%Q. split; [|split; [|split]]; lra.
  - exists ((l1 + r2) * (1 # 2))%Q. split; [|split; [|split]]; lra.
Qed.

(** X4: for two sprites with hitboxes of positive width and height,
    [intersects] returns [true] exactly when the two hit-rectangles have a
    point in common in their interiors; rectangles that only touch along an
    edge do not intersect. *)
Theorem intersects_iff_overlap (a b : Sprite.t) (ha hb : Rect.t) :
  Sprite.hitbox a = Some ha ->
  Sprite.hitbox b = Some hb ->
  (0 < Rect.w ha)%Q -> (0 < Rect.h ha)%Q -> (0 < Rect.w hb)%Q -> (0 < Rect.h hb)%Q ->
  Sprite.intersects a b = JBool true <->
  exists px py, inside px py (hit_rect a ha) /\ inside px py (hit_rect b hb).
Proof.
  intros Ha Hb Hwa Hha Hwb Hhb. unfold Sprite.intersects. rewrite Ha, Hb. cbn.
  unfold Qgtb. split.
  - intros [= H]. rewrite !andb_true_iff, !Qltb_lt in H.
    destruct H as [[[H1 H2] H3] H4].
    destruct (between (Sprite.x a + Rect.x ha) (Sprite.x a + Rect.x ha + Rect.w ha)
                      (Sprite.x b + Rect.x hb) (Sprite.x b + Rect.x hb + Rect.w hb))
      as (px & ? & ? & ? & ?); try lra.
    destruct (between (Sprite.y a + Rect.y ha) (Sprite.y a + Rect.y ha + Rect.h ha)
                      (Sprite.y b + Rect.y hb) (Sprite.y b + Rect.y hb + Rect.h hb))
      as (py & ? & ? & ? & ?); try lra.
    exists px, py. unfold inside, hit_rect; cbn. repeat split; assumption.
  - intros (px & py & (A1 & A2 & A3 & A4) & (B1 & B2 & B3 & B4)). cbn in *.
    f_equal. rewrite !andb_true_iff, !Qltb_lt. repeat split; lra.
Qed.

Lemma intersects_iff_overlap_witness :
  Sprite.intersects new_Player (at_player (new_Broccoli 0)) = JBool true <->
  exists px py,
    inside px py (hit_rect new_Player (Rect.mk 6 4 22 21)) /\
    inside px py (hit_rect (at_player (new_Broccoli 0)) (Rect.mk 10 6 12 16)).
Proof.
  apply (intersects_iff_overlap new_Player (at_player (new_Broccoli 0))); reflexivity.
Defined.

Definition in_playfield (s : Sprite.t) : Prop :=
  (0 <= Sprite.x s)%Q /\ (Sprite.x s <= PLAYFIELD_WIDTH - Sprite.image_width s)%Q /\
  (0 <= Sprite.y s)%Q /\ (Sprite.y s <= PLAYFIELD_HEIGHT - Sprite.frameheight s)%Q.

(** The image fits the playfield. *)
Definition fits (s : Sprite.t) : Prop :=
  (0 <= Sprite.image_width s)%Q /\ (Sprite.image_width s <= PLAYFIELD_WIDTH)%Q /\
  (0 <= Sprite.frameheight s)%Q /\ (Sprite.frameheight s <= PLAYFIELD_HEIGHT)%Q.

Lemma isOnScreen_iff (s : Sprite.t) :
  Sprite.isOnScreen s = true <->
  (- Sprite.image_width s <= Sprite.x s)%Q /\ (Sprite.x s <= PLAYFIELD_WIDTH)%Q /\
  (- Sprite.frameheight s <= Sprite.y s)%Q /\ (Sprite.y s <= PLAYFIELD_HEIGHT)%Q.
Proof.
  unfold Sprite.isOnScreen, Qgtb.
  destruct (Qltb PLAYFIELD_WIDTH (Sprite.x s)) eqn:E1;
  destruct (Qltb (Sprite.x s) (- Sprite.image_width s)) eqn:E2;
  destruct (Qltb PLAYFIELD_HEIGHT (Sprite.y s)) eqn:E3;
  destruct (Qltb (Sprite.y s) (- Sprite.frameheight s)) eqn:E4; cbn;
  rewrite ?Qltb_lt, ?Qltb_ge in *; split; try discriminate; try (intros; lra);
  try (intros _; repeat split; lra).
Qed.

Lemma in_playfield_isOnScreen (s : Sprite.t) :
  fits s -> in_playfield s -> Sprite.isOnScreen s = true.
Proof.
  intros (F1 & F2 & F3 & F4) (H1 & H2 & H3 & H4). apply isOnScreen_iff.
  unfold PLAYFIELD_WIDTH, PLAYFIELD_HEIGHT in *. repeat split; lra.
Qed.

Lemma ensureFullyOnScreen_in_playfield (s : Sprite.t) :
  Sprite.ready s = true -> fits s -> in_playfield (Sprite.ensureFullyOnScreen s).
Proof.
  intros Hready (F1 & F2 & F3 & F4).
  unfold Sprite.ensureFullyOnScreen, in_playfield, Qgtb. rewrite Hready. cbn.
  unfold PLAYFIELD_WIDTH, PLAYFIELD_HEIGHT in *.
  destruct (Qltb (Sprite.x s) 0) eqn:E1; cbn;
    match goal with |- context [Qltb ?a ?b] => destruct (Qltb a b) eqn:E2 end; cbn;
    match goal with |- context [Qltb ?a 0] => destruct (Qltb a 0) eqn:E3 end; cbn;
    match goal with |- context [Qltb (500 - ?a) ?b] => destruct (Qltb (500 - a) b) eqn:E4 end; cbn;
    cbn in *; rewrite ?Qltb_lt, ?Qltb_ge in *; repeat split; lra.
Qed.

Lemma ensureFullyOnScreen_frame (s : Sprite.t) :
  let s' := Sprite.ensureFullyOnScreen s in
  Sprite.ready s' = Sprite.ready s /\
  Sprite.image_width s' = Sprite.image_width s /\
  Sprite.frameheight s' = Sprite.frameheight s /\
  Sprite.cls s' = Sprite.cls s.
Proof.
  unfold Sprite.ensureFullyOnScreen. repeat case_match; repeat split; reflexivity.
Qed.

Lemma ensureFullyOnScreen_inside (s : Sprite.t) :
  in_playfield s -> Sprite.ensureFullyOnScreen s = s.
Proof.
  intros (H1 & H2 & H3 & H4). unfold Sprite.ensureFullyOnScreen, Qgtb.
  destruct (negb (Sprite.ready s)); [reflexivity|].
  assert (E1 : Qltb (Sprite.x s) 0 = false) by (apply Qltb_ge; lra).
  assert (E2 : Qltb (PLAYFIELD_WIDTH - Sprite.image_width s) (Sprite.x s) = false)
    by (apply Qltb_ge; lra).
  assert (E3 : Qltb (Sprite.y s) 0 = false) by (apply Qltb_ge; lra).
  assert (E4 : Qltb (PLAYFIELD_HEIGHT - Sprite.frameheight s) (Sprite.y s) = false)
    by (apply Qltb_ge; lra).
  rewrite E1, E2, E3, E4. reflexivity.
Qed.

Lemma ensureFullyOnScreen_on_screen (s : Sprite.t) :
  Sprite.ready s = true -> fits s ->
  Sprite.isOnScreen (Sprite.ensureFullyOnScreen s) = true.
Proof.
  intros Hready Hfits.
  destruct (ensureFullyOnScreen_frame s) as (_ & Hw & Hh & _).
  apply in_playfield_isOnScreen.
  - unfold fits. rewrite Hw, Hh. exact Hfits.
  - apply ensureFullyOnScreen_in_playfield; assumption.
Qed.

(** X5: [ensureFullyOnScreen] leaves a sprite that is not ready as it is.
    A ready sprite whose frame is no larger than the playfield is moved into
    the playfield: afterwards the whole frame lies within it and
    [isOnScreen] is true; a sprite that already lies within the playfield is
    not changed, and a second call changes nothing. *)
Theorem ensureFullyOnScreen_clamps (s : Sprite.t) :
  (Sprite.ready s = false -> Sprite.ensureFullyOnScreen s = s) /\
  (Sprite.ready s = true -> fits s ->
   in_playfield (Sprite.ensureFullyOnScreen s) /\
   Sprite.isOnScreen (Sprite.ensureFullyOnScreen s) = true /\
   (in_playfield s -> Sprite.ensureFullyOnScreen s = s) /\
   Sprite.ensureFullyOnScreen (Sprite.ensureFullyOnScreen s) = Sprite.ensureFullyOnScreen s).
Proof.
  split.
  - intros Hready. unfold Sprite.ensureFullyOnScreen. rewrite Hready. reflexivity.
  - intros Hready Hfits.
    pose proof (ensureFullyOnScreen_in_playfield s Hready Hfits) as Hin.
    destruct (ensureFullyOnScreen_frame s) as (_ & Hw & Hh & _).
    assert (Hfits' : fits (Sprite.ensureFullyOnScreen s)).
    { unfold fits. rewrite Hw, Hh. exact Hfits. }
    split; [exact Hin|]. split; [apply in_playfield_isOnScreen; assumption|].
    split; [apply ensureFullyOnScreen_inside|].
    apply ensureFullyOnScreen_inside, Hin.
Qed.

Lemma ensureFullyOnScreen_clamps_witness :
  in_playfield (Sprite.ensureFullyOnScreen (Sprite.set_x (-5) (Sprite.set_image_width 32 ready_player))) /\
  Sprite.x (Sprite.ensureFullyOnScreen (Sprite.set_x (-5) (Sprite.set_image_width 32 ready_player))) = 0%Q.
Proof.
  split; [|reflexivity].
  apply (ensureFullyOnScreen_clamps (Sprite.set_x (-5) (Sprite.set_image_width 32 ready_player))).
  - reflexivity.
  - unfold fits, PLAYFIELD_WIDTH, PLAYFIELD_HEIGHT. cbn. repeat split; lra.
Defined.

(** ** The player stays on the playfield *)

Section OnPlayfield.
Context (p : nat).

(** The sprite [p] is ready and its image fits the playfield. *)
Definition settled (w : World) : Prop :=
  exists S0, heap w !! p = Some S0 /\ Sprite.ready S0 = true /\ fits S0.

Lemma settled_update r (f : Sprite.t -> Sprite.t) :
  (forall S1, Sprite.ready (f S1) = Sprite.ready S1 /\
              Sprite.image_width (f S1) = Sprite.image_width S1 /\
              Sprite.frameheight (f S1) = Sprite.frameheight S1) ->
  preserves settled (update r f).
Proof.
  intros Hf w (S0 & Hp & Hready & Hfits).
  unfold post, update, bind, deref, modify.
  destruct (heap w !! r) as [S1|] eqn:Hr; [|exact Logic.I]. simpl.
  destruct (decide (r = p)) as [->|Hne].
  - assert (S1 = S0) by congruence. subst S1.
    exists (f S0). destruct (Hf S0) as (H1 & H2 & H3).
    split; [apply list_lookup_insert_eq; eapply lookup_lt_Some; eauto|].
    unfold fits. rewrite H1, H2, H3. auto.
  - exists S0. simpl. rewrite list_lookup_insert_ne by exact Hne. auto.
Qed.

Lemma settled_modify_gs f : preserves settled (modify_gs f).
Proof. intros w H. exact H. Qed.

Lemma settled_alloc s : preserves settled (alloc s).
Proof.
  intros w (S0 & Hp & H). exists S0. split; [|exact H].
  simpl. apply lookup_app_l_Some, Hp.
Qed.

Lemma settled_Math_random : preserves settled Math_random.
Proof. intros w H. unfold post, Math_random. destruct (rng w); exact H. Qed.

End OnPlayfield.

Ltac settled_step :=
  lazymatch goal with
  | |- preserves _ (bind _ _) => apply preserves_bind; [|intros ?]
  | |- preserves _ (ret _) => apply preserves_ret
  | |- preserves _ throw => apply preserves_throw
  | |- preserves _ (gets _) => apply preserves_gets
  | |- preserves _ (deref _) => apply preserves_deref
  | |- preserves _ (when _ _) => apply preserves_when
  | |- preserves _ (modify_gs _) => apply settled_modify_gs
  | |- preserves _ (alloc _) => apply settled_alloc
  | |- preserves _ Math_random => apply settled_Math_random
  | |- preserves _ (update _ _) =>
      apply settled_update; intros ?; unfold Sprite.setAnimation; repeat split; reflexivity
  | |- preserves _ (push _ _) => unfold push
  | |- preserves _ (set_coll ?c _) => destruct c; unfold set_coll
  | |- preserves _ (if ?b then _ else _) => destruct b
  | |- preserves _ (match ?x with _ => _ end) => destruct x
  end.

Lemma Player_move_clamps (p : nat) (w : World) :
  settled p w ->
  wlp (Player_move p)
      (fun _ w' => exists S1, heap w' !! p = Some (Sprite.ensureFullyOnScreen S1) /\
                              Sprite.ready S1 = true /\ fits S1) w.
Proof.
  intros H. unfold Player_move.
  do 6 (apply post_bind;
          eapply post_conseq;
          [ match goal with |- post _ ?m _ _ =>
              assert (Hm : preserves (settled p) m)
                by (unfold Player_spendKnife, Player_throw; repeat settled_step);
              apply Hm; assumption end
          | clear H; intros ? ? H ]).
  destruct H as (S0 & Hp & Hready & Hfits).
  unfold post. rewrite (update_ok _ _ _ _ Hp). simpl.
  exists S0. split; [|auto].
  apply list_lookup_insert_eq. eapply lookup_lt_Some; eauto.
Qed.

(** X6: [Player.move] of a ready player that has its hitbox and whose
    frame is no larger than the playfield returns and leaves the player within the playfield, whatever
    keys are down; [finished()] is then false, so the movement pass does not
    remove the player. *)
Theorem player_stays_on_playfield (w : World) (p : nat) (P : Sprite.t) :
  heap w !! p = Some P ->
  Sprite.cls P = Player ->
  is_Some (Sprite.hitbox P) ->
  Sprite.ready P = true ->
  fits P ->
  exists w' P',
    sprite_move p w = Ok (tt, w') /\
    heap w' !! p = Some P' /\
    in_playfield P' /\
    sprite_finished p w' = Ok (false, w').
Proof.
  intros Hp Hcls Hhb Hready Hfits.
  pose proof (sprite_move_moved p w P Hp (fun _ => Hhb)) as Hrun.
  apply wp_run in Hrun as ([] & w' & Hrun & Hmoved).
  assert (Hmove : Player_move p w = Ok (tt, w')).
  { unfold sprite_move in Hrun. rewrite (bind_ok _ _ _ _ _ _ (deref_ok _ _ _ Hp) eq_refl) in Hrun.
    rewrite Hcls in Hrun. exact Hrun. }
  pose proof (Player_move_clamps p w ltac:(exists P; auto)) as Hpost.
  unfold post in Hpost. rewrite Hmove in Hpost.
  destruct Hpost as (S1 & Hp' & Hready1 & Hfits1).
  pose proof (ensureFullyOnScreen_in_playfield S1 Hready1 Hfits1) as Hin.
  pose proof (ensureFullyOnScreen_on_screen S1 Hready1 Hfits1) as Hon.
  exists w', (Sprite.ensureFullyOnScreen S1).
  split; [exact Hrun|]. split; [exact Hp'|]. split; [exact Hin|].
  unfold sprite_finished. eapply bind_ok; [apply deref_ok, Hp'|].
  destruct (moved_self _ _ _ Hmoved) as (S0' & S1' & H0 & H1 & Hc & _).
  assert (Hc' : Sprite.cls (Sprite.ensureFullyOnScreen S1) = Player) by congruence.
  rewrite Hc', Hon. reflexivity.
Qed.

(** The player has walked to the left for 60 ticks: it stands at the left
    edge of the playfield, and the left key is still down. *)
Definition left_edge_world : World :=
  world_after (run (KeyDown KEY_LEFTARROW :: repeat Tick 60)) running_world.

Lemma player_stays_on_playfield_witness :
  exists w' P',
    sprite_move 3 left_edge_world = Ok (tt, w') /\
    heap w' !! 3%nat = Some P' /\
    in_playfield P' /\
    sprite_finished 3 w' = Ok (false, w').
Proof.
  apply (player_stays_on_playfield left_edge_world 3%nat
           (default new_Player (heap left_edge_world !! 3%nat))).
  - vm_compute. reflexivity.
  - vm_compute. reflexivity.
  - vm_compute. eauto.
  - vm_compute. reflexivity.
  - unfold fits. vm_compute. repeat split; discriminate.
Defined.

Example left_edge_world_player :
  Sprite.x (default new_Player (heap left_edge_world !! 3%nat)) = 0%Q /\
  Inputs.left (GameState.inputs (gamestate left_edge_world)) = true /\
  GameState.phase (gamestate left_edge_world) = PHASE_RUNNING.
Proof. vm_compute. repeat split; reflexivity. Qed.

(** ** The timeline of an animation *)

(** The frame numbers of an animation, each as many times as its entry
    lasts. *)
Definition timeline (anim : list (nat * Z)) : list nat :=
  flat_map (fun e => repeat e.1 (Z.to_nat e.2)) anim.

Lemma nextFrames_app (a b : nat) : forall (s : Sprite.t),
  nextFrames (a + b) s =
    match nextFrames a s with
    | Ok (images1, s1) =>
      match nextFrames b s1 with
      | Ok (images2, s2) => Ok (images1 ++ images2, s2)
      | TypeError => TypeError
      | Timeout => Timeout
      end
    | TypeError => TypeError
    | Timeout => Timeout
    end.
Proof.
  induction a as [|a IH]; intros s; simpl.
  - destruct (nextFrames b s) as [[images2 s2]| |]; reflexivity.
  - destruct (Sprite.nextFrame s) as [[image s']| |]; try reflexivity.
    rewrite IH. destruct (nextFrames a s') as [[images1 s1]| |]; try reflexivity.
    destruct (nextFrames b s1) as [[images2 s2]| |]; reflexivity.
Qed.

Lemma nextFrames_prefix (a b : nat) (s s2 : Sprite.t) images :
  nextFrames (a + b) s = Ok (images, s2) ->
  exists s1, nextFrames a s = Ok (take a images, s1).
Proof.
  rewrite nextFrames_app.
  destruct (nextFrames a s) as [[images1 s1]| |] eqn:Ha; try discriminate.
  destruct (nextFrames b s1) as [[images2 s2']| |]; try discriminate.
  intros [= <- <-]. exists s1. f_equal. f_equal.
  assert (Hlen : forall n s imgs s', nextFrames n s = Ok (imgs, s') -> length imgs = n).
  { clear. induction n as [|n IH]; simpl; intros s imgs s'.
    - intros [= <- _]. reflexivity.
    - destruct (Sprite.nextFrame s) as [[image s1]| |]; try discriminate.
      destruct (nextFrames n s1) as [[images s2]| |] eqn:E; try discriminate.
      intros [= <- _]. simpl. f_equal. eapply IH, E. }
  rewrite take_app_length'; [reflexivity|]. symmetry. eapply Hlen, Ha.
Qed.

Lemma fmap_repeat {A B} (f : A -> B) (x : A) (n : nat) :
  f <$> repeat x n = repeat (f x) n.
Proof. induction n as [|n IH]; simpl; [reflexivity|]. rewrite <- IH. reflexivity. Qed.

Section Timeline.
Context (anim : list (nat * Z)) (F : list nat).
Hypothesis durations : Forall (fun e => (1 <= e.2)%Z) anim.

(** The sprite is about to play the entry [f] from its beginning: it is at
    [f] with a counter of 0, as [setAnimation] leaves it, or it has stayed
    at the entry before [f] for the whole of its duration. *)
Definition before (s : Sprite.t) (f : nat) : Prop :=
  Sprite.ready s = true /\
  Sprite.animation s = Some anim /\
  Sprite.frames s = F /\
  ((Sprite.animFrame s = f /\ Sprite.animFrameStep s = 0%Z) \/
   (exists fn d, anim !! Sprite.animFrame s = Some (fn, d) /\
                 Sprite.animFrameStep s = d /\
                 next_step anim (Sprite.animFrame s) = f)).

Lemma nextFrame_frames (s s' : Sprite.t) image :
  Sprite.nextFrame s = Ok (image, s') ->
  Sprite.ready s' = Sprite.ready s /\ Sprite.frames s' = Sprite.frames s.
Proof.
  unfold Sprite.nextFrame. repeat case_match; intros [= <- <-]; split; reflexivity.
Qed.

Lemma play_entry (s : Sprite.t) (f fn : nat) (d : Z) :
  before s f ->
  anim !! f = Some (fn, d) ->
  exists s',
    nextFrames (Z.to_nat d) s = Ok (repeat (F !! fn) (Z.to_nat d), s') /\
    before s' (next_step anim f).
Proof.
  intros (Hready & Hanim & Hframes & Hstate) Hf.
  assert (Hd : (1 <= d)%Z).
  { eapply (proj1 (Forall_lookup _ _) durations _ _ Hf). }
  destruct Hstate as [[Hat Hzero] | (fnp & dp & Hprev & Hfull & Hnext)].
  - pose proof (nextFrames_within (Z.to_nat d) s anim fn d Hready Hanim) as Hrun.
    rewrite Hat, Hzero, Z2Nat.id in Hrun by lia.
    exists (Sprite.set_animFrameStep (0 + d) s). rewrite <- Hframes.
    split; [apply Hrun; [exact Hf | lia]|].
    repeat split; try assumption. right. exists fn, d. simpl. rewrite Hat. auto.
  - destruct (nextFrame_transition s anim fnp dp Hready Hanim Hprev ltac:(lia))
      as (image & s1 & Hstep & Hat1 & Hone & Hanim1 & Himage).
    rewrite Hnext in Hat1, Himage.
    destruct (nextFrame_frames _ _ _ Hstep) as [Hready1 Hframes1].
    pose proof (nextFrames_within (Z.to_nat (d - 1)) s1 anim fn d) as Hrun.
    rewrite Hat1, Hone, Z2Nat.id in Hrun by lia.
    specialize (Hrun ltac:(congruence) Hanim1 Hf ltac:(lia)).
    exists (Sprite.set_animFrameStep (1 + (d - 1)) s1). split.
    + replace (Z.to_nat d) with (S (Z.to_nat (d - 1))) by lia.
      simpl. rewrite Hstep, Hrun, Hframes1, (Himage _ Hf), Hframes. reflexivity.
    + repeat split; simpl; try congruence. right. exists fn, d.
      rewrite Hat1. repeat split; [exact Hf | lia].
Qed.

Lemma play_rest (k : nat) : forall (f : nat) (s : Sprite.t),
  (f + S k = length anim)%nat ->
  before s f ->
  exists s',
    nextFrames (length (timeline (drop f anim))) s
      = Ok ((fun fn => F !! fn) <$> timeline (drop f anim), s') /\
    before s' 0.
Proof.
  induction k as [|k IH]; intros f s Hlen Hs.
  - destruct (lookup_lt_is_Some_2 anim f ltac:(lia)) as [[fn d] Hf].
    destruct (play_entry s f fn d Hs Hf) as (s' & Hrun & Hs').
    assert (Hdrop : drop f anim = [(fn, d)]).
    { rewrite (drop_S _ _ _ Hf), drop_ge by lia. reflexivity. }
    exists s'. rewrite Hdrop. unfold timeline. simpl. rewrite app_nil_r, repeat_length.
    split; [rewrite Hrun; f_equal; f_equal; symmetry; apply (fmap_repeat (fun fn => F !! fn))|].
    replace (next_step anim f) with 0%nat in Hs'; [exact Hs'|].
    unfold next_step. destruct (Nat.leb_spec (length anim) (S f)); lia.
  - destruct (lookup_lt_is_Some_2 anim f ltac:(lia)) as [[fn d] Hf].
    destruct (play_entry s f fn d Hs Hf) as (s1 & Hrun1 & Hs1).
    replace (next_step anim f) with (S f) in Hs1
      by (unfold next_step; destruct (Nat.leb_spec (length anim) (S f)); lia).
    destruct (IH (S f) s1 ltac:(lia) Hs1) as (s' & Hrun & Hs').
    exists s'. split; [|exact Hs'].
    rewrite (drop_S _ _ _ Hf). unfold timeline in *. simpl.
    rewrite length_app, repeat_length, nextFrames_app, Hrun1, Hrun, fmap_app.
    f_equal. f_equal. f_equal. symmetry. apply (fmap_repeat (fun fn => F !! fn)).
Qed.

Lemma play_cycles (m : nat) : forall (s : Sprite.t),
  anim <> [] ->
  before s 0 ->
  exists s',
    nextFrames (m * length (timeline anim)) s
      = Ok ((fun fn => F !! fn) <$> mjoin (replicate m (timeline anim)), s') /\
    before s' 0.
Proof.
  intros s Hne. revert s. induction m as [|m IH]; intros s Hs; simpl.
  - exists s. auto.
  - assert (Hpos : length anim <> 0%nat) by (intros E; apply Hne, nil_length_inv, E).
    destruct (play_rest (length anim - 1) 0 s) as (s1 & Hrun1 & Hs1);
      [lia | exact Hs |].
    rewrite drop_0 in Hrun1.
    destruct (IH s1 Hs1) as (s' & Hrun & Hs').
    exists s'. split; [|exact Hs'].
    rewrite nextFrames_app, Hrun1, Hrun, fmap_app. reflexivity.
Qed.

End Timeline.

Lemma timeline_length (anim : list (nat * Z)) :
  Forall (fun e => (1 <= e.2)%Z) anim -> anim <> [] -> (1 <= length (timeline anim))%nat.
Proof.
  intros Hd Hne. destruct anim as [|[fn d] rest]; [congruence|].
  apply Forall_cons in Hd as [Hd _]. simpl in Hd.
  unfold timeline. simpl. rewrite length_app, repeat_length. lia.
Qed.

(** X7: a ready sprite whose animation has just been set, a non-empty list
    of steps [[frame, duration]] with every duration at least 1, plays the
    timeline of the animation again and again: the first [n] calls of
    [nextFrame] return, in this order, the frame of each step as many times
    as its duration says, and start again with the first step after the
    last. *)
Theorem animation_plays_its_timeline (s : Sprite.t) (anim : list (nat * Z)) (n : nat) :
  Sprite.ready s = true ->
  Sprite.animation s = Some anim ->
  Sprite.animFrame s = 0%nat ->
  Sprite.animFrameStep s = 0%Z ->
  anim <> [] ->
  Forall (fun e => (1 <= e.2)%Z) anim ->
  exists s',
    nextFrames n s
      = Ok ((fun fn => Sprite.frames s !! fn) <$> take n (mjoin (replicate n (timeline anim))), s').
Proof.
  intros Hready Hanim Hat Hzero Hne Hd.
  destruct (play_cycles anim (Sprite.frames s) Hd n s Hne) as (s2 & Hrun & _).
  { repeat split; auto. }
  pose proof (timeline_length anim Hd Hne) as HT.
  assert (Hsplit : (n * length (timeline anim) = n + (n * length (timeline anim) - n))%nat) by nia.
  rewrite Hsplit in Hrun.
  destruct (nextFrames_prefix _ _ _ _ _ Hrun) as (s1 & Hrun1).
  exists s1. rewrite Hrun1, fmap_take. reflexivity.
Qed.

Lemma animation_plays_its_timeline_witness :
  exists s',
    nextFrames 23 ready_player
      = Ok ((fun fn => Sprite.frames ready_player !! fn)
              <$> take 23 (mjoin (replicate 23 (timeline [(4, 5%Z); (5, 5%Z); (6, 5%Z); (7, 5%Z)]%nat))), s').
Proof.
  apply (animation_plays_its_timeline ready_player [(4, 5%Z); (5, 5%Z); (6, 5%Z); (7, 5%Z)]%nat 23%nat);
    try reflexivity.
  - discriminate.
  - repeat constructor; simpl; lia.
Defined.

(** ** The order of the foreground *)

(** [s.y] of the sprite that [r] refers to. *)
Definition y_at (w : World) (r : nat) : Q := default 0%Q (Sprite.y <$> heap w !! r).

Definition by_key (a b : Q * nat) : Prop := (a.1 <= b.1)%Q.

Lemma insert_by_y_elem k r l x : x ∈ insert_by_y k r l -> x = (k, r) \/ x ∈ l.
Proof.
  induction l as [|[k' r'] rest IH]; simpl.
  - intros H. apply list_elem_of_singleton in H. auto.
  - destruct (Qle_bool k k').
    + intros H. apply elem_of_cons in H as [H | H]; auto.
    + intros H. apply elem_of_cons in H as [H | H].
      * right. subst. apply list_elem_of_here.
      * destruct (IH H) as [H' | H']; [auto|]. right. apply list_elem_of_further, H'.
Qed.

Lemma insert_by_y_sorted k r l :
  StronglySorted by_key l -> StronglySorted by_key (insert_by_y k r l).
Proof.
  induction 1 as [|[k' r'] rest Hrest IH Hall]; simpl.
  - repeat constructor.
  - destruct (Qle_bool k k') eqn:Hle.
    + apply Qle_bool_iff in Hle. constructor; [constructor; assumption|].
      constructor; [exact Hle|].
      eapply Forall_impl; [exact Hall|]. unfold by_key. simpl. intros [k2 r2] H2. simpl in *. lra.
    + assert (Hlt : (k' <= k)%Q).
      { destruct (Qlt_le_dec k' k) as [H | H]; [lra|].
        apply Qle_bool_iff in H. congruence. }
      constructor; [exact IH|].
      apply List.Forall_forall. intros x Hx. apply list_elem_of_In in Hx.
      destruct (insert_by_y_elem _ _ _ _ Hx) as [-> | Hin]; [exact Hlt|].
      rewrite List.Forall_forall in Hall. apply Hall, list_elem_of_In, Hin.
Qed.

Lemma sort_by_y_sorted l : StronglySorted by_key (sort_by_y l).
Proof.
  induction l as [|[k r] rest IH]; simpl; [constructor|].
  apply insert_by_y_sorted, IH.
Qed.

Lemma insert_by_y_perm_pairs k r l : insert_by_y k r l ≡ₚ (k, r) :: l.
Proof.
  induction l as [|[k' r'] rest IH]; simpl; [reflexivity|].
  destruct (Qle_bool k k'); [reflexivity|].
  rewrite IH. apply Permutation_swap.
Qed.

Lemma sort_by_y_perm_pairs l : sort_by_y l ≡ₚ l.
Proof.
  induction l as [|[k r] rest IH]; simpl; [reflexivity|].
  rewrite insert_by_y_perm_pairs, IH. reflexivity.
Qed.

Lemma keys_y_spec (l : list nat) (w : World) :
  Forall (fun r => (r < length (heap w))%nat) l ->
  keys_y l w = Ok ((fun r => (y_at w r, r)) <$> l, w).
Proof.
  induction 1 as [|r rest Hr _ IH]; simpl; [reflexivity|].
  destruct (lookup_lt_is_Some_2 _ _ Hr) as [s Hs].
  eapply bind_ok; [apply deref_ok, Hs|].
  eapply bind_ok; [exact IH|].
  unfold y_at. rewrite Hs. reflexivity.
Qed.

Lemma StronglySorted_map_snd (w : World) (l : list (Q * nat)) :
  Forall (fun kr => kr.1 = y_at w kr.2) l ->
  StronglySorted by_key l ->
  StronglySorted (fun r1 r2 => (y_at w r1 <= y_at w r2)%Q) (map snd l).
Proof.
  intros Hkeys. induction 1 as [|[k r] rest Hrest IH Hall]; simpl; [constructor|].
  apply Forall_cons in Hkeys as [Hk Hkeys]. simpl in Hk.
  constructor; [apply IH, Hkeys|].
  apply List.Forall_forall. intros r2 Hr2. apply in_map_iff in Hr2 as ([k2 r2'] & <- & Hin).
  rewrite List.Forall_forall in Hall. specialize (Hall _ Hin). unfold by_key in Hall. simpl in *.
  rewrite Forall_forall in Hkeys. specialize (Hkeys _ (proj2 (list_elem_of_In _ _) Hin)).
  simpl in Hkeys. rewrite <- Hk, <- Hkeys. exact Hall.
Qed.

(** The foreground array as [prepareRender] leaves it. *)
Definition sorted_by_y (w : World) : list nat :=
  map snd (sort_by_y ((fun r => (y_at w r, r)) <$> coll Sprites w)).

Lemma prepareRender_ok (w : World) :
  Forall (fun r => (r < length (heap w))%nat) (coll Sprites w) ->
  prepareRender w = Ok (tt, with_coll Sprites (sorted_by_y w) (set_canvas [] w)).
Proof.
  intros Hrefs. unfold prepareRender.
  eapply bind_ok; [reflexivity|]. eapply bind_ok; [reflexivity|].
  eapply bind_ok; [apply (keys_y_spec _ (set_canvas [] w)), Hrefs|]. reflexivity.
Qed.

Lemma sorted_by_y_perm (w : World) : sorted_by_y w ≡ₚ coll Sprites w.
Proof.
  unfold sorted_by_y. rewrite sort_by_y_perm.
  induction (coll Sprites w) as [|r l IH]; simpl; [reflexivity|].
  rewrite IH at 1. reflexivity.
Qed.

Lemma sorted_by_y_sorted (w : World) :
  StronglySorted (fun r1 r2 => (y_at w r1 <= y_at w r2)%Q) (sorted_by_y w).
Proof.
  apply StronglySorted_map_snd; [|apply sort_by_y_sorted].
  rewrite (sort_by_y_perm_pairs _). apply Forall_fmap, Forall_true. reflexivity.
Qed.

(** X8: [prepareRender] clears the canvas and sorts the foreground array
    by [y]: the array afterwards holds the same sprites, each as often as
    before, in ascending order of their [y]; nothing else changes. *)
Theorem prepareRender_sorts_by_y (w : World) :
  Forall (fun r => (r < length (heap w))%nat) (coll Sprites w) ->
  exists sorted,
    prepareRender w = Ok (tt, with_coll Sprites sorted (set_canvas [] w)) /\
    sorted ≡ₚ coll Sprites w /\
    StronglySorted (fun r1 r2 => (y_at w r1 <= y_at w r2)%Q) sorted.
Proof.
  intros Hrefs. exists (sorted_by_y w).
  split; [apply prepareRender_ok, Hrefs|].
  split; [apply sorted_by_y_perm | apply sorted_by_y_sorted].
Qed.

Lemma prepareRender_sorts_by_y_witness :
  exists sorted,
    prepareRender first_kill_world
      = Ok (tt, with_coll Sprites sorted (set_canvas [] first_kill_world)) /\
    sorted ≡ₚ coll Sprites first_kill_world /\
    StronglySorted (fun r1 r2 => (y_at first_kill_world r1 <= y_at first_kill_world r2)%Q) sorted.
Proof.
  apply (prepareRender_sorts_by_y first_kill_world).
  vm_compute. repeat constructor.
Defined.

(** ** The picture of a tick *)

(** What [render] draws for a sprite: the frame that [nextFrame] returns, if
    it returns one, at the place of the sprite. *)
Definition drawn (s : Sprite.t) : option Draw :=
  match Sprite.nextFrame s with
  | Ok (Some frame, _) => Some (frame, Sprite.x s, Sprite.y s)
  | _ => None
  end.

Definition draw_of (w : World) (r : nat) : option Draw := heap w !! r ≫= drawn.

Lemma nextFrame_place (s s' : Sprite.t) (image : option Frame) :
  Sprite.nextFrame s = Ok (image, s') -> Sprite.x s' = Sprite.x s /\ Sprite.y s' = Sprite.y s.
Proof.
  unfold Sprite.nextFrame. intros H. repeat case_match; simplify_eq; split; reflexivity.
Qed.

Lemma render_sprite_draws (r : nat) (w : World) (s : Sprite.t) :
  heap w !! r = Some s ->
  clock_ok s ->
  exists s',
    render_sprite r w
      = Ok (tt, set_canvas (canvas w ++ option_list (drawn s))
                  (set_heap (<[r := s']> (heap w)) w)) /\
    clock_ok s'.
Proof.
  intros Hs Hok.
  destruct (nextFrame_ok s Hok) as (image & s' & Hnext & _ & Hok').
  destruct (nextFrame_place _ _ _ Hnext) as [Hx Hy].
  exists s'. split; [|exact Hok'].
  unfold render_sprite, drawn.
  eapply bind_ok; [apply deref_ok, Hs|]. rewrite Hnext.
  eapply bind_ok; [apply update_ok, Hs|].
  destruct image as [frame|]; simpl.
  - rewrite Hx, Hy. reflexivity.
  - rewrite app_nil_r. reflexivity.
Qed.

Lemma omap_ext_elem {A B} (f g : A -> option B) (l : list A) :
  (forall x, x ∈ l -> f x = g x) -> omap f l = omap g l.
Proof.
  induction l as [|a l IH]; intros H; [reflexivity|].
  change (omap f (a :: l)) with (match f a with Some y => y :: omap f l | None => omap f l end).
  change (omap g (a :: l)) with (match g a with Some y => y :: omap g l | None => omap g l end).
  rewrite (H a) by apply list_elem_of_here.
  rewrite IH by (intros x Hx; apply H, list_elem_of_further, Hx). reflexivity.
Qed.

Lemma render_draws (l : list nat) : forall (w : World),
  NoDup l ->
  Forall clock_ok (heap w) ->
  Forall (fun r => (r < length (heap w))%nat) l ->
  exists h',
    render l w = Ok (tt, set_canvas (canvas w ++ omap (draw_of w) l) (set_heap h' w)) /\
    length h' = length (heap w) /\
    Forall clock_ok h' /\
    forall r, r ∉ l -> h' !! r = heap w !! r.
Proof.
  induction l as [|r rest IH]; intros w Hnodup Hok Hrefs.
  - exists (heap w). simpl. rewrite app_nil_r. destruct w; auto.
  - apply NoDup_cons in Hnodup as [Hr Hnodup].
    apply Forall_cons in Hrefs as [Hlt Hrefs].
    destruct (lookup_lt_is_Some_2 _ _ Hlt) as [s Hs].
    destruct (render_sprite_draws r w s Hs) as (s' & Hone & Hok').
    { eapply Forall_lookup_1; eauto. }
    set (w1 := set_canvas (canvas w ++ option_list (drawn s))
                 (set_heap (<[r := s']> (heap w)) w)) in *.
    destruct (IH w1 Hnodup) as (h' & Hrun & Hlen & Hok2 & Hsame).
    { simpl. apply Forall_insert; assumption. }
    { simpl. rewrite length_insert. exact Hrefs. }
    exists h'. split; [|split; [|split]].
    + simpl render. eapply bind_ok; [exact Hone|]. rewrite Hrun. simpl.
      unfold draw_of at 2. rewrite Hs. simpl.
      replace (omap (draw_of w1) rest) with (omap (draw_of w) rest).
      { destruct (drawn s); simpl; rewrite <- app_assoc; reflexivity. }
      apply omap_ext_elem. intros r' Hr'. unfold draw_of, w1. simpl.
      rewrite list_lookup_insert_ne by (intros ->; contradiction). reflexivity.
    + rewrite Hlen. simpl. apply length_insert.
    + exact Hok2.
    + intros r' Hr'. apply not_elem_of_cons in Hr' as [Hne Hr'].
      rewrite (Hsame r' Hr'). simpl. apply list_lookup_insert_ne. congruence.
Qed.

(** X9: the picture of a tick. When the sprites can be rendered and no
    sprite is twice in the arrays, the last lines of [gameloop] return, the
    foreground array is sorted by [y], and the canvas holds exactly: for
    each sprite of the background in the order of the array, then for each
    sprite of the foreground in ascending order of [y], the frame that its
    [nextFrame] gives, at the place of the sprite; a sprite without a frame,
    one that is not ready for instance, is left out. *)
Theorem render_all_draws_back_to_front (w : World) :
  renderable w ->
  NoDup (coll Bgsprites w ++ coll Sprites w) ->
  exists w' sorted,
    render_all w = Ok (tt, w') /\
    sorted ≡ₚ coll Sprites w /\
    StronglySorted (fun r1 r2 => (y_at w r1 <= y_at w r2)%Q) sorted /\
    coll Sprites w' = sorted /\
    canvas w' = omap (draw_of w) (coll Bgsprites w ++ sorted).
Proof.
  intros (Hok & Hfg & Hbg) Hnodup.
  pose proof (prepareRender_ok w Hfg) as Hprep.
  pose proof (sorted_by_y_perm w) as Hperm.
  pose proof (sorted_by_y_sorted w) as Hsorted.
  set (sorted := sorted_by_y w) in *.
  set (w1 := with_coll Sprites sorted (set_canvas [] w)) in *.
  apply NoDup_app in Hnodup as (Hnbg & Hdisj & Hnfg).
  destruct (render_draws (coll Bgsprites w) w1 Hnbg Hok Hbg) as (h2 & Hrun2 & Hlen2 & Hok2 & Hsame2).
  set (w2 := set_canvas (canvas w1 ++ omap (draw_of w1) (coll Bgsprites w)) (set_heap h2 w1)) in *.
  destruct (render_draws sorted w2) as (h3 & Hrun3 & Hlen3 & Hok3 & Hsame3).
  { rewrite Hperm. exact Hnfg. }
  { exact Hok2. }
  { simpl. rewrite Hlen2, Hperm. exact Hfg. }
  eexists _, sorted. split; [|split; [exact Hperm|split; [exact Hsorted|split]]].
  - unfold render_all.
    eapply bind_ok; [exact Hprep|].
    eapply bind_ok; [reflexivity|]. eapply bind_ok; [exact Hrun2|].
    eapply bind_ok; [reflexivity|]. exact Hrun3.
  - reflexivity.
  - simpl. rewrite omap_app. f_equal.
    apply omap_ext_elem. intros r Hr. unfold draw_of. simpl.
    rewrite Hsame2; [reflexivity|].
    intros Hin. apply (Hdisj r Hin). rewrite <- Hperm. exact Hr.
Qed.

Lemma render_all_draws_back_to_front_witness :
  let w := first_kill_world in
  exists w' sorted,
    render_all w = Ok (tt, w') /\
    sorted ≡ₚ coll Sprites w /\
    StronglySorted (fun r1 r2 => (y_at w r1 <= y_at w r2)%Q) sorted /\
    coll Sprites w' = sorted /\
    canvas w' = omap (draw_of w) (coll Bgsprites w ++ sorted).
Proof.
  apply (render_all_draws_back_to_front first_kill_world).
  - apply renderableb_sound. vm_compute. reflexivity.
  - apply (bool_decide_unpack _). vm_compute. exact Logic.I.
Defined.

(** ** The other cases of [Player.interact] and [Knife.interact] *)

(** X10: [Player.interact] with a lamb when the player has no knife changes
    nothing, whether the two overlap or not: the lamb stays alive, the score
    and the knives stay as they are, no sound is played. *)
Theorem player_without_knives_spares_lamb (w : World) (p l : nat) (P L : Sprite.t) :
  heap w !! p = Some P ->
  heap w !! l = Some L ->
  Sprite.cls P = Player ->
  Sprite.cls L = Lamb ->
  knives_of w = 0%Z ->
  sprite_interact p l w = Ok (tt, w).
Proof.
  intros Hp Hl HP HL Hk. unfold sprite_interact.
  eapply bind_ok; [apply deref_ok, Hp|]. rewrite HP. unfold Player_interact.
  eapply bind_ok; [apply deref_ok, Hl|]. unfold Sprite.name. rewrite HL. cbn.
  eapply bind_ok; [apply deref_ok, Hp|].
  destruct (truthy (Sprite.intersects P L)); [|reflexivity]. simpl when.
  destruct (Sprite.dead L); [reflexivity|].
  unfold Player_spendKnife, knives_of in *.
  eapply bind_ok.
  { eapply bind_ok; [reflexivity|]. cbv beta. rewrite Hk. reflexivity. }
  reflexivity.
Qed.

Lemma player_without_knives_spares_lamb_witness :
  sprite_interact 0 1 (unarmed_world (new_Lamb 0)) = Ok (tt, unarmed_world (new_Lamb 0)).
Proof.
  apply (player_without_knives_spares_lamb (unarmed_world (new_Lamb 0)) 0 1
           (sprite_at (unarmed_world (new_Lamb 0)) 0) (sprite_at (unarmed_world (new_Lamb 0)) 1));
    vm_compute; reflexivity.
Defined.

(** X11: a player that overlaps a knife lying on the ground picks it up: the
    knives go up by 1 and the score by 100, the knife is put at [x = -100],
    off the playfield, and stays in the array for now, and the player takes
    the wielding animation if this is its only knife. *)
Theorem player_picks_up_knife (w : World) (p k : nat) (P K : Sprite.t) :
  heap w !! p = Some P ->
  heap w !! k = Some K ->
  Sprite.cls P = Player ->
  Sprite.cls K = Knife ->
  Sprite.state K = Some STATE_GROUNDED ->
  Sprite.intersects P K = JBool true ->
  exists w',
    sprite_interact p k w = Ok (tt, w') /\
    knives_of w' = (knives_of w + 1)%Z /\
    score_of w' = (score_of w + 100)%Z /\
    heap w' !! k = Some (Sprite.set_x (-100) K) /\
    heap w' !! p = Some (if (knives_of w =? 0)%Z then Sprite.setAnimation "wielding" P else P) /\
    coll Sprites w' = coll Sprites w.
Proof.
  intros Hp Hk HP HK Hstate Hhit.
  assert (Hne : p <> k) by (intros ->; congruence).
  assert (Hpl : (p < length (heap w))%nat) by (eapply lookup_lt_Some; eauto).
  assert (Hkl : (k < length (heap w))%nat) by (eapply lookup_lt_Some; eauto).
  eexists. split.
  - unfold sprite_interact.
    eapply bind_ok; [apply deref_ok, Hp|]. rewrite HP. unfold Player_interact.
    eapply bind_ok; [apply deref_ok, Hk|]. unfold Sprite.name. rewrite HK. cbn.
    eapply bind_ok; [apply deref_ok, Hp|]. rewrite Hhit, Hstate. cbn.
    eapply bind_ok.
    { instantiate (1 := set_heap (<[p := if (knives_of w =? 0)%Z
                                        then Sprite.setAnimation "wielding" P else P]> (heap w))
                          (set_gamestate (GameState.set_knives (knives_of w + 1) (gamestate w)) w)).
      instantiate (1 := tt). unfold knives_of.
      destruct (Z.eqb_spec (GameState.knives (gamestate w)) 0) as [E | E].
      - rewrite E. simpl. rewrite (update_ok _ p P) by exact Hp. reflexivity.
      - replace (GameState.knives (gamestate w) + 1 =? 1)%Z with false
          by (symmetry; apply Z.eqb_neq; lia).
        simpl. rewrite list_insert_id by exact Hp. destruct w; reflexivity. }
    eapply bind_ok; [reflexivity|].
    rewrite (update_ok _ k K)
      by (simpl; rewrite list_lookup_insert_ne by exact Hne; exact Hk).
    reflexivity.
  - simpl. repeat split.
    + apply list_lookup_insert_eq. rewrite length_insert. exact Hkl.
    + rewrite list_lookup_insert_ne by auto. apply list_lookup_insert_eq, Hpl.
Qed.

Lemma player_picks_up_knife_witness :
  let w := unarmed_world (new_Knife STATE_GROUNDED 0) in
  exists w',
    sprite_interact 0 1 w = Ok (tt, w') /\
    knives_of w' = (knives_of w + 1)%Z /\
    score_of w' = (score_of w + 100)%Z /\
    heap w' !! 1%nat = Some (Sprite.set_x (-100) (sprite_at w 1)) /\
    heap w' !! 0%nat = Some (if (knives_of w =? 0)%Z
                         then Sprite.setAnimation "wielding" (sprite_at w 0) else sprite_at w 0) /\
    coll Sprites w' = coll Sprites w.
Proof.
  apply (player_picks_up_knife (unarmed_world (new_Knife STATE_GROUNDED 0)) 0 1);
    vm_compute; reflexivity.
Defined.

Lemma Math_random_ok (w : World) :
  exists q w1, Math_random w = Ok (q, w1) /\ heap w1 = heap w /\ gamestate w1 = gamestate w.
Proof. unfold Math_random. destruct (rng w); eauto. Qed.

(** X12: a thrown knife that overlaps a living lamb kills it: the lamb is
    dead, with its dead animation and sound, the score goes up by 1000 and
    the knives stay as they are; the knife stays thrown, at its place, and
    its horizontal velocity is reversed. *)
Theorem thrown_knife_kills_lamb (w : World) (k l : nat) (K L : Sprite.t) :
  heap w !! k = Some K ->
  heap w !! l = Some L ->
  Sprite.cls K = Knife ->
  Sprite.cls L = Lamb ->
  Sprite.state K = Some STATE_THROWN ->
  Sprite.dead L = false ->
  Sprite.intersects K L = JBool true ->
  exists w' K',
    sprite_interact k l w = Ok (tt, w') /\
    heap w' !! l = Some (lamb_killed L) /\
    score_of w' = (score_of w + 1000)%Z /\
    knives_of w' = knives_of w /\
    heap w' !! k = Some K' /\
    Sprite.state K' = Some STATE_THROWN /\
    (Sprite.velocity K').1 = ((Sprite.velocity K).1 * -1)%Q /\
    Sprite.x K' = Sprite.x K /\ Sprite.y K' = Sprite.y K /\
    coll Sprites w' = coll Sprites w.
Proof.
  intros Hk Hl HK HL Hstate Hlive Hhit.
  assert (Hne : k <> l) by (intros ->; congruence).
  assert (Hkl : (k < length (heap w))%nat) by (eapply lookup_lt_Some; eauto).
  assert (Hll : (l < length (heap w))%nat) by (eapply lookup_lt_Some; eauto).
  set (K1 := Sprite.set_velocity ((Sprite.velocity K).1 * -1, (Sprite.velocity K).2)%Q K).
  set (w3 := set_heap (<[k:=K1]> (<[l:=lamb_killed L]> (heap w)))
               (set_gamestate (GameState.set_score (score_of w + 1000) (gamestate w)) w)).
  destruct (Math_random_ok w3) as (random & w4 & Hrandom & Hheap4 & Hgs4).
  set (K2 := Sprite.set_velocity ((Sprite.velocity K1).1, random * 4 - 2)%Q K1).
  exists (set_heap (<[k:=K2]> (heap w4)) w4), K2. split.
  - unfold sprite_interact.
    eapply bind_ok; [apply deref_ok, Hk|]. rewrite HK. unfold Knife_interact.
    eapply bind_ok; [apply deref_ok, Hk|]. rewrite Hstate.
    eapply bind_ok; [apply deref_ok, Hl|]. unfold Sprite.name. rewrite HL. cbn.
    rewrite Hhit, Hlive. cbn.
    eapply bind_ok; [apply (Lamb_die_ok _ l L Hl HL)|].
    eapply bind_ok; [reflexivity|].
    eapply bind_ok.
    { rewrite (update_ok _ k K)
        by (simpl; rewrite list_lookup_insert_ne by auto; exact Hk).
      reflexivity. }
    eapply bind_ok; [exact Hrandom|].
    rewrite (update_ok w4 k K1); [reflexivity|]. rewrite Hheap4. simpl.
    apply list_lookup_insert_eq. rewrite length_insert. exact Hkl.
  - simpl. rewrite Hheap4. unfold score_of, knives_of. simpl. rewrite Hgs4. simpl.
    rewrite !list_insert_insert_eq.
    split; [rewrite list_lookup_insert_ne by auto; apply list_lookup_insert_eq; exact Hll|].
    split; [reflexivity|]. split; [reflexivity|].
    split; [apply list_lookup_insert_eq; rewrite length_insert; exact Hkl|].
    repeat split; assumption.
Qed.

Lemma thrown_knife_kills_lamb_witness :
  let w := knife_meets (new_Lamb 0) in
  exists w' K',
    sprite_interact 0 1 w = Ok (tt, w') /\
    heap w' !! 1%nat = Some (lamb_killed (sprite_at w 1)) /\
    score_of w' = (score_of w + 1000)%Z /\
    knives_of w' = knives_of w /\
    heap w' !! 0%nat = Some K' /\
    Sprite.state K' = Some STATE_THROWN /\
    (Sprite.velocity K').1 = ((Sprite.velocity (sprite_at w 0)).1 * -1)%Q /\
    Sprite.x K' = Sprite.x (sprite_at w 0) /\ Sprite.y K' = Sprite.y (sprite_at w 0) /\
    coll Sprites w' = coll Sprites w.
Proof.
  apply (thrown_knife_kills_lamb (knife_meets (new_Lamb 0)) 0 1); vm_compute; reflexivity.
Defined.

(** X13: a thrown knife that overlaps a broccoli or an onion drops to the
    ground: its state is grounded, with the grounded animation and no
    sound; its position and velocity are kept, and nothing else changes. *)
Theorem thrown_knife_drops_at_hazard (w : World) (k o : nat) (K Ot : Sprite.t) :
  heap w !! k = Some K ->
  heap w !! o = Some Ot ->
  Sprite.cls K = Knife ->
  Sprite.cls Ot = Broccoli \/ Sprite.cls Ot = Onion ->
  Sprite.state K = Some STATE_THROWN ->
  Sprite.intersects K Ot = JBool true ->
  exists K',
    sprite_interact k o w = Ok (tt, set_heap (<[k := K']> (heap w)) w) /\
    Sprite.state K' = Some STATE_GROUNDED /\
    Sprite.sound K' = None /\
    Sprite.animation K' = Sprite.lookup_animation "grounded" (Sprite.animations K) /\
    Sprite.x K' = Sprite.x K /\ Sprite.y K' = Sprite.y K /\
    Sprite.velocity K' = Sprite.velocity K.
Proof.
  intros Hk Ho HK HO Hstate Hhit.
  exists (Knife_setState STATE_GROUNDED K). split.
  - unfold sprite_interact.
    eapply bind_ok; [apply deref_ok, Hk|]. rewrite HK. unfold Knife_interact.
    eapply bind_ok; [apply deref_ok, Hk|]. rewrite Hstate.
    eapply bind_ok; [apply deref_ok, Ho|].
    assert (Hname : (Sprite.name Ot =? "Broccoli")%string || (Sprite.name Ot =? "Onion")%string
                    = true).
    { unfold Sprite.name. destruct HO as [-> | ->]; reflexivity. }
    rewrite Hname, Hhit. simpl when. apply update_ok, Hk.
  - unfold Knife_setState, Sprite.silence. clear. destruct K as [? ? ? ? ? ? ? ? ? ? ? ? [snd|] ? ? ? ?];
      cbn; repeat split; reflexivity.
Qed.

Lemma thrown_knife_drops_at_hazard_witness :
  let w := knife_meets (new_Onion new_Player 3) in
  exists K',
    sprite_interact 0 1 w = Ok (tt, set_heap (<[0%nat := K']> (heap w)) w) /\
    Sprite.state K' = Some STATE_GROUNDED /\
    Sprite.sound K' = None /\
    Sprite.animation K' = Sprite.lookup_animation "grounded" (Sprite.animations (sprite_at w 0)) /\
    Sprite.x K' = Sprite.x (sprite_at w 0) /\ Sprite.y K' = Sprite.y (sprite_at w 0) /\
    Sprite.velocity K' = Sprite.velocity (sprite_at w 0).
Proof.
  apply (thrown_knife_drops_at_hazard (knife_meets (new_Onion new_Player 3)) 0 1 _
           (sprite_at (knife_meets (new_Onion new_Player 3)) 1)); try (vm_compute; reflexivity).
  right. reflexivity.
Defined.

(** X14: a player that overlaps a knife that is not on the ground dies: the
    phase becomes game over, the player takes its dead animation, the
    game-over overlay is created and pushed to the foreground; knives and
    score are kept. *)
Theorem thrown_knife_kills_player (w : World) (p k : nat) (P K : Sprite.t) :
  heap w !! p = Some P ->
  heap w !! k = Some K ->
  Sprite.cls P = Player ->
  Sprite.cls K = Knife ->
  Sprite.state K <> Some STATE_GROUNDED ->
  Sprite.intersects P K = JBool true ->
  Forall (fun r => (r < length (heap w))%nat) (coll Sprites w) ->
  Forall (fun r => (r < length (heap w))%nat) (coll Bgsprites w) ->
  exists w' P',
    sprite_interact p k w = Ok (tt, w') /\
    GameState.phase (gamestate w') = PHASE_GAME_OVER /\
    heap w' !! p = Some P' /\
    Sprite.animation P' = Sprite.lookup_animation "dead" (Sprite.animations P) /\
    heap w' !! length (heap w) = Some new_GameOverMessage /\
    length (heap w) ∈ coll Sprites w' /\
    knives_of w' = knives_of w /\
    score_of w' = score_of w.
Proof.
  intros Hp Hk HP HK Hstate Hhit Hfg Hbg.
  assert (Hpl : (p < length (heap w))%nat) by (eapply lookup_lt_Some; eauto).
  set (wd := set_heap (<[p := Sprite.setAnimation "dead" P]> (heap w)) w).
  destruct (setGamePhase_game_over_ok wd) as (h' & w' & Hq & Hrun & Hheap & Hgs & _).
  { simpl. rewrite length_insert. exact Hfg. }
  { simpl. rewrite length_insert. exact Hbg. }
  assert (Hlen : length h' = length (heap w)).
  { rewrite <- (Forall2_length _ _ _ Hq). simpl. apply length_insert. }
  destruct (quieted_heap_lookup _ h' p (Sprite.setAnimation "dead" P) Hq) as (P' & HP' & HqP).
  { simpl. apply list_lookup_insert_eq, Hpl. }
  exists w', P'. split; [|split; [|split; [|split; [|split; [|split; [|split]]]]]].
  - unfold sprite_interact.
    eapply bind_ok; [apply deref_ok, Hp|]. rewrite HP. unfold Player_interact.
    eapply bind_ok; [apply deref_ok, Hk|]. unfold Sprite.name. rewrite HK. cbn.
    eapply bind_ok; [apply deref_ok, Hp|]. rewrite Hhit. simpl when.
    assert (Hdie : Player_die p w = Ok (tt, w')).
    { unfold Player_die. eapply bind_ok; [apply update_ok, Hp|]. exact Hrun. }
    destruct (Sprite.state K) as [[|]|]; [congruence | exact Hdie | exact Hdie].
  - rewrite Hgs. reflexivity.
  - rewrite Hheap. apply lookup_app_l_Some, HP'.
  - destruct HqP as [-> | ->]; reflexivity.
  - rewrite Hheap, lookup_app_r, Hlen, Nat.sub_diag by lia. reflexivity.
  - unfold coll. rewrite Hgs. simpl. rewrite length_insert.
    apply elem_of_app. right. apply list_elem_of_here.
  - unfold knives_of. rewrite Hgs. reflexivity.
  - unfold score_of. rewrite Hgs. reflexivity.
Qed.

Lemma thrown_knife_kills_player_witness :
  let w := meeting_world (new_Knife STATE_THROWN 0) in
  exists w' P',
    sprite_interact 0 1 w = Ok (tt, w') /\
    GameState.phase (gamestate w') = PHASE_GAME_OVER /\
    heap w' !! 0%nat = Some P' /\
    Sprite.animation P' = Sprite.lookup_animation "dead" (Sprite.animations (sprite_at w 0)) /\
    heap w' !! length (heap w) = Some new_GameOverMessage /\
    length (heap w) ∈ coll Sprites w' /\
    knives_of w' = knives_of w /\
    score_of w' = score_of w.
Proof.
  apply (thrown_knife_kills_player (meeting_world (new_Knife STATE_THROWN 0)) 0 1 _
           (sprite_at (meeting_world (new_Knife STATE_THROWN 0)) 1));
    try (vm_compute; reflexivity).
  - vm_compute. discriminate.
  - vm_compute. repeat constructor.
  - vm_compute. repeat constructor.
Defined.

(** ** The throw of a knife *)

(** The four assignments of [Player.move] to the position, by the keys that
    are down. *)
Definition walk (i : Inputs.t) (s : Sprite.t) : Sprite.t :=
  let s := if Inputs.left i then Sprite.set_x (Sprite.x s - Sprite.speed s) s else s in
  let s := if Inputs.right i then Sprite.set_x (Sprite.x s + Sprite.speed s) s else s in
  let s := if Inputs.up i then Sprite.set_y (Sprite.y s - Sprite.speed s) s else s in
  let s := if Inputs.down i then Sprite.set_y (Sprite.y s + Sprite.speed s) s else s in
  s.

Lemma set_heap_same w : set_heap (heap w) w = w.
Proof. destruct w; reflexivity. Qed.

Lemma when_update_ok (b : bool) (r : nat) (f : Sprite.t -> Sprite.t) w s :
  heap w !! r = Some s ->
  when b (update r f) w = Ok (tt, set_heap (<[r := if b then f s else s]> (heap w)) w).
Proof.
  intros Hr. destruct b; simpl.
  - apply update_ok, Hr.
  - rewrite list_insert_id by exact Hr. rewrite set_heap_same. reflexivity.
Qed.

(** The first four statements of [Player.move]. *)
Lemma Player_walks (w : World) (p : nat) (P : Sprite.t) (k : M unit) r :
  heap w !! p = Some P ->
  k (set_heap (<[p := walk (GameState.inputs (gamestate w)) P]> (heap w)) w) = r ->
  (let* _ := when (Inputs.left (GameState.inputs (gamestate w)))
               (update p (fun s => Sprite.set_x (Sprite.x s - Sprite.speed s) s)) in
   let* _ := when (Inputs.right (GameState.inputs (gamestate w)))
               (update p (fun s => Sprite.set_x (Sprite.x s + Sprite.speed s) s)) in
   let* _ := when (Inputs.up (GameState.inputs (gamestate w)))
               (update p (fun s => Sprite.set_y (Sprite.y s - Sprite.speed s) s)) in
   let* _ := when (Inputs.down (GameState.inputs (gamestate w)))
               (update p (fun s => Sprite.set_y (Sprite.y s + Sprite.speed s) s)) in
   k) w = r.
Proof.
  intros Hp Hk.
  assert (Hlen : (p < length (heap w))%nat) by (eapply lookup_lt_Some; eauto).
  eapply bind_ok; [apply (when_update_ok _ _ _ _ P), Hp|].
  eapply bind_ok.
  { eapply when_update_ok. simpl. apply list_lookup_insert_eq, Hlen. }
  eapply bind_ok.
  { eapply when_update_ok. simpl. apply list_lookup_insert_eq. rewrite length_insert. exact Hlen. }
  eapply bind_ok.
  { eapply when_update_ok. simpl. apply list_lookup_insert_eq. rewrite !length_insert. exact Hlen. }
  simpl. rewrite !list_insert_insert_eq. exact Hk.
Qed.

Definition cooldown_of (w : World) : Z := GameState.knifeThrowCooldown (gamestate w).

(** X15: [Player.move] with the fire key down, the cooldown at 0 and at
    least one knife throws a knife: the knives go down by 1, the cooldown is
    set to [KNIFE_COOLDOWN_FRAMES], and one new sprite is pushed to the end
    of the foreground array, a thrown knife at the height of the player and
    to the right of it by the width of the player's hitbox, the position of
    the player being the one after the arrow keys and before the clamp to
    the playfield. The score is kept. *)
Theorem player_throws_knife (w : World) (p : nat) (P : Sprite.t) (hb : Rect.t) :
  heap w !! p = Some P ->
  Sprite.cls P = Player ->
  Sprite.hitbox P = Some hb ->
  Inputs.fire (GameState.inputs (gamestate w)) = true ->
  cooldown_of w = 0%Z ->
  (1 <= knives_of w)%Z ->
  let P1 := walk (GameState.inputs (gamestate w)) P in
  exists w' random,
    sprite_move p w = Ok (tt, w') /\
    knives_of w' = (knives_of w - 1)%Z /\
    cooldown_of w' = KNIFE_COOLDOWN_FRAMES /\
    coll Sprites w' = coll Sprites w ++ [length (heap w)] /\
    heap w' !! length (heap w)
      = Some (Sprite.set_y (Sprite.y P1)
                (Sprite.set_x (Sprite.x P1 + Rect.w hb) (new_Knife STATE_THROWN random))) /\
    score_of w' = score_of w.
Proof.
  intros Hp Hcls Hhb Hfire Hcool Hk P1.
  assert (Hlen : (p < length (heap w))%nat) by (eapply lookup_lt_Some; eauto).
  set (w1 := set_heap (<[p := P1]> (heap w)) w).
  set (w2 := set_gamestate (GameState.set_knifeThrowCooldown KNIFE_COOLDOWN_FRAMES (gamestate w1)) w1).
  assert (Hp2 : heap w2 !! p = Some P1) by (simpl; apply list_lookup_insert_eq, Hlen).
  destruct (Player_spendKnife_ok w2 p P1 true Hp2) as (P2 & Hspend & HP2).
  { unfold knives_of in *. simpl. lia. }
  set (w3 := set_gamestate (GameState.set_knives (knives_of w2 - 1) (gamestate w2))
               (set_heap (<[p:=P2]> (heap w2)) w2)) in *.
  destruct (Math_random_ok w3) as (random & w4 & Hrandom & Hheap4 & Hgs4).
  assert (Hx2 : Sprite.x P2 = Sprite.x P1 /\ Sprite.y P2 = Sprite.y P1 /\
                Sprite.hitbox P2 = Some hb).
  { assert (Hhb1 : Sprite.hitbox P1 = Some hb).
    { subst P1. unfold walk. repeat case_match; exact Hhb. }
    destruct HP2 as [-> | ->]; auto. }
  destruct Hx2 as (Hx2 & Hy2 & Hhb2).
  set (n := length (heap w)).
  set (K := Sprite.set_y (Sprite.y P1)
              (Sprite.set_x (Sprite.x P1 + Rect.w hb) (new_Knife STATE_THROWN random))).
  set (h5 := <[n := K]> (heap w4 ++ [new_Knife STATE_THROWN random])).
  assert (Hlen4 : length (heap w4) = n).
  { rewrite Hheap4. simpl. rewrite !length_insert. reflexivity. }
  assert (Hp4 : heap w4 !! p = Some P2).
  { rewrite Hheap4. simpl. apply list_lookup_insert_eq. rewrite length_insert. exact Hlen. }
  set (w5 := set_heap h5
               (set_gamestate (GameState.set_sprites (GameState.sprites (gamestate w4) ++ [n])
                                 (gamestate w4)) w4)).
  assert (Hthrow : Player_throw p w3 = Ok (tt, w5)).
  { unfold Player_throw. eapply bind_ok; [exact Hrandom|].
    eapply bind_ok; [reflexivity|]. rewrite Hlen4.
    eapply bind_ok; [reflexivity|].
    eapply bind_ok; [apply deref_ok; simpl; apply lookup_app_l_Some, Hp4|].
    rewrite Hhb2.
    eapply bind_ok.
    { apply update_ok. simpl. rewrite <- Hlen4. apply list_lookup_middle. reflexivity. }
    rewrite (update_ok _ n (Sprite.set_x (Sprite.x P2 + Rect.w hb) (new_Knife STATE_THROWN random))).
    - simpl. rewrite list_insert_insert_eq, Hx2, Hy2. reflexivity.
    - simpl. apply list_lookup_insert_eq. rewrite length_app, Hlen4. simpl. lia. }
  assert (Hp5 : heap w5 !! p = Some P2).
  { simpl. subst h5. rewrite list_lookup_insert_ne by lia. apply lookup_app_l_Some, Hp4. }
  exists (set_heap (<[p := Sprite.ensureFullyOnScreen P2]> (heap w5)) w5), random.
  split; [|split; [|split; [|split; [|split]]]].
  - unfold sprite_move. eapply bind_ok; [apply deref_ok, Hp|]. rewrite Hcls.
    unfold Player_move. eapply bind_ok; [reflexivity|]. cbv zeta beta.
    apply (Player_walks w p P _ _ Hp). fold P1 w1.
    eapply bind_ok.
    { rewrite Hfire. simpl when. eapply bind_ok; [reflexivity|]. cbv beta.
      unfold cooldown_of in Hcool. simpl. rewrite Hcool. simpl when.
      eapply bind_ok; [reflexivity|]. fold w2.
      eapply bind_ok; [exact Hspend|]. simpl when. exact Hthrow. }
    apply update_ok, Hp5.
  - unfold knives_of. simpl. rewrite Hgs4. reflexivity.
  - unfold cooldown_of. simpl. rewrite Hgs4. reflexivity.
  - simpl. rewrite Hgs4. reflexivity.
  - simpl. subst h5. rewrite list_lookup_insert_ne by lia.
    apply list_lookup_insert_eq. rewrite length_app, Hlen4. simpl. lia.
  - unfold score_of. simpl. rewrite Hgs4. reflexivity.
Qed.

(** The player of [running_world] walks to the right with the fire key down,
    the cooldown over. *)
Definition throw_world : World :=
  let g := gamestate running_world in
  set_gamestate
    (GameState.set_knifeThrowCooldown 0
       (GameState.set_inputs (Inputs.mk false true false false true) g)) running_world.

Lemma player_throws_knife_witness :
  let w := throw_world in
  let P1 := walk (GameState.inputs (gamestate w)) (sprite_at w 3) in
  exists w' random,
    sprite_move 3 w = Ok (tt, w') /\
    knives_of w' = (knives_of w - 1)%Z /\
    cooldown_of w' = KNIFE_COOLDOWN_FRAMES /\
    coll Sprites w' = coll Sprites w ++ [length (heap w)] /\
    heap w' !! length (heap w)
      = Some (Sprite.set_y (Sprite.y P1)
                (Sprite.set_x (Sprite.x P1 + 22) (new_Knife STATE_THROWN random))) /\
    score_of w' = score_of w.
Proof.
  apply (player_throws_knife throw_world 3 (sprite_at throw_world 3) (Rect.mk 6 4 22 21));
    try (vm_compute; reflexivity).
  vm_compute. discriminate.
Defined.

(** X16: when [Player.move] throws nothing. With the fire key up, or the
    cooldown still running, only the player changes: it walks as the arrow
    keys say and is clamped to the playfield. With the fire key down, the
    cooldown at 0 and no knife left, the cooldown is set again all the same
    and the player plays the sound of the empty hand; no knife is created
    and the knives stay at 0. *)
Theorem player_move_without_throw (w : World) (p : nat) (P : Sprite.t) :
  heap w !! p = Some P ->
  Sprite.cls P = Player ->
  let P1 := walk (GameState.inputs (gamestate w)) P in
  (Inputs.fire (GameState.inputs (gamestate w)) = false \/ cooldown_of w <> 0%Z ->
   sprite_move p w
     = Ok (tt, set_heap (<[p := Sprite.ensureFullyOnScreen P1]> (heap w)) w)) /\
  (Inputs.fire (GameState.inputs (gamestate w)) = true ->
   cooldown_of w = 0%Z ->
   knives_of w = 0%Z ->
   sprite_move p w
     = Ok (tt, set_heap
                 (<[p := Sprite.ensureFullyOnScreen
                           (Sprite.set_sound (Some "outtaknives") P1)]> (heap w))
                 (set_gamestate
                    (GameState.set_knifeThrowCooldown KNIFE_COOLDOWN_FRAMES (gamestate w)) w))).
Proof.
  intros Hp Hcls P1.
  assert (Hlen : (p < length (heap w))%nat) by (eapply lookup_lt_Some; eauto).
  set (w1 := set_heap (<[p := P1]> (heap w)) w).
  assert (Hp1 : heap w1 !! p = Some P1) by (simpl; apply list_lookup_insert_eq, Hlen).
  split.
  - intros Hno.
    unfold sprite_move. eapply bind_ok; [apply deref_ok, Hp|]. rewrite Hcls.
    unfold Player_move. eapply bind_ok; [reflexivity|]. cbv zeta beta.
    apply (Player_walks w p P _ _ Hp). fold P1 w1.
    eapply bind_ok.
    { instantiate (1 := w1). instantiate (1 := tt).
      destruct (Inputs.fire (GameState.inputs (gamestate w))) eqn:Hfire; [|reflexivity].
      simpl when. eapply bind_ok; [reflexivity|]. cbv beta.
      destruct Hno as [Hno | Hno]; [discriminate|].
      unfold cooldown_of in Hno. apply Z.eqb_neq in Hno. simpl. rewrite Hno. reflexivity. }
    rewrite (update_ok _ _ _ _ Hp1). simpl. rewrite list_insert_insert_eq. reflexivity.
  - intros Hfire Hcool Hk.
    unfold sprite_move. eapply bind_ok; [apply deref_ok, Hp|]. rewrite Hcls.
    unfold Player_move. eapply bind_ok; [reflexivity|]. cbv zeta beta.
    apply (Player_walks w p P _ _ Hp). fold P1 w1.
    eapply bind_ok.
    { rewrite Hfire. simpl when. eapply bind_ok; [reflexivity|]. cbv beta.
      unfold cooldown_of in Hcool. simpl. rewrite Hcool. simpl when.
      eapply bind_ok; [reflexivity|].
      eapply bind_ok.
      { unfold Player_spendKnife. eapply bind_ok; [reflexivity|]. cbv beta.
        unfold knives_of in Hk. simpl. rewrite Hk. simpl.
        eapply bind_ok; [apply update_ok; exact Hp1|]. reflexivity. }
      reflexivity. }
    rewrite (update_ok _ p (Sprite.set_sound (playSample "outtaknives") P1)).
    + simpl. rewrite !list_insert_insert_eq. reflexivity.
    + simpl. apply list_lookup_insert_eq. rewrite length_insert. exact Hlen.
Qed.

(** The same with no knife left. *)
Definition empty_handed_world : World :=
  set_gamestate (GameState.set_knives 0 (gamestate throw_world)) throw_world.

Lemma player_move_without_throw_witness :
  let w := empty_handed_world in
  let P1 := walk (GameState.inputs (gamestate w)) (sprite_at w 3) in
  sprite_move 3 w
    = Ok (tt, set_heap (<[3%nat := Sprite.ensureFullyOnScreen (Sprite.set_sound (Some "outtaknives") P1)]>
                          (heap w))
               (set_gamestate (GameState.set_knifeThrowCooldown KNIFE_COOLDOWN_FRAMES (gamestate w)) w)).
Proof.
  apply (player_move_without_throw empty_handed_world 3 (sprite_at empty_handed_world 3));
    vm_compute; reflexivity.
Defined.

(** ** A knife that has been picked up *)

(** A knife on the ground that is off the playfield to the left, as
    [Player.interact] leaves the knife that it picks up. *)
Definition put_away (s : Sprite.t) : Prop :=
  Sprite.cls s = Knife /\ Sprite.state s = Some STATE_GROUNDED /\
  (Sprite.x s <= -100)%Q /\ (Sprite.image_width s < 100)%Q.

Lemma put_away_off_screen (s : Sprite.t) : put_away s -> Sprite.isOnScreen s = false.
Proof.
  intros (_ & _ & Hx & Hw). unfold Sprite.isOnScreen.
  replace (Qltb (Sprite.x s) (- Sprite.image_width s)) with true
    by (symmetry; apply Qltb_lt; lra).
  rewrite orb_true_r. reflexivity.
Qed.

Lemma put_away_silence (s : Sprite.t) : put_away s -> put_away (Sprite.silence s).
Proof. unfold Sprite.silence. destruct (Sprite.sound s); intros H; exact H. Qed.

Section PutAway.
Context (k : nat) (v : Q).
Hypothesis road : (0 <= v)%Q.

(** The knife [k] is put away, and the road moves at the speed [v]. *)
Definition away (w : World) : Prop :=
  (exists s, heap w !! k = Some s /\ put_away s) /\ GameState.roadSpeed (gamestate w) = v.

(** The speed of the road. *)
Definition at_speed (w : World) : Prop := GameState.roadSpeed (gamestate w) = v.

Lemma at_speed_alloc s : preserves at_speed (alloc s).
Proof. intros w H. exact H. Qed.

Lemma at_speed_Math_random : preserves at_speed Math_random.
Proof. intros w H. unfold post, Math_random. destruct (rng w); exact H. Qed.

Ltac speed_leaf :=
  let w := fresh "w" in
  let H := fresh "H" in
  intros w H; exact H.

Ltac speed_step :=
  lazymatch goal with
  | |- preserves _ (bind _ _) => apply preserves_bind; [|intros ?]
  | |- preserves _ (ret _) => apply preserves_ret
  | |- preserves _ throw => apply preserves_throw
  | |- preserves _ (gets _) => apply preserves_gets
  | |- preserves _ (deref _) => apply preserves_deref
  | |- preserves _ (when _ _) => apply preserves_when
  | |- preserves _ (modify _) => apply preserves_modify; speed_leaf
  | |- preserves _ (modify_gs _) => apply preserves_modify; speed_leaf
  | |- preserves _ (alloc _) => apply at_speed_alloc
  | |- preserves _ Math_random => apply at_speed_Math_random
  | |- preserves _ (update _ _) => unfold update
  | |- preserves _ (push _ _) => unfold push
  | |- preserves _ (splice _ _) => unfold splice
  | |- preserves _ (set_coll ?c _) => destruct c; unfold set_coll
  | |- preserves _ (if ?b then _ else _) => destruct b
  | |- preserves _ (match ?x with _ => _ end) => destruct x
  end.

(** [move()] and [finished()] do not assign the speed of the road. *)
Lemma at_speed_visit s :
  preserves at_speed (let* _ := sprite_move s in sprite_finished s).
Proof.
  unfold sprite_move, sprite_finished, Player_move, Player_spendKnife, Player_throw, Lamb_move,
    road_move, Onion_move, Knife_move.
  repeat speed_step.
Qed.

(** The visit of the knife itself: it moves with the road, further to the
    left, and [finished()] holds. *)
Lemma visit_put_away (w : World) :
  away w ->
  exists w2,
    (let* _ := sprite_move k in sprite_finished k) w = Ok (true, w2) /\
    away w2 /\
    length (heap w2) = length (heap w) /\
    (forall r, r <> k -> heap w2 !! r = heap w !! r) /\
    (forall c, coll c w2 = coll c w).
Proof.
  intros [(s & Hs & Hput) Hv].
  assert (Hlt : (k < length (heap w))%nat) by (eapply lookup_lt_Some; eauto).
  destruct Hput as (Hcls & Hstate & Hx & Hw).
  set (s1 := Sprite.set_x (Sprite.x s - v) s).
  assert (Hput1 : put_away s1).
  { unfold put_away, s1. simpl. repeat split; try assumption. lra. }
  set (w1 := set_heap (<[k := s1]> (heap w)) w).
  assert (Hs1 : heap w1 !! k = Some s1) by (apply list_lookup_insert_eq, Hlt).
  exists (set_heap (<[k := Sprite.silence s1]> (heap w1)) w1).
  split; [|split; [|split; [|split]]].
  - eapply bind_ok.
    { unfold sprite_move. eapply bind_ok; [apply deref_ok, Hs|]. rewrite Hcls.
      unfold Knife_move. eapply bind_ok; [reflexivity|]. cbv beta.
      rewrite (update_ok w k s _ Hs). rewrite Hstate, Hv. reflexivity. }
    unfold sprite_finished. eapply bind_ok; [apply deref_ok, Hs1|].
    replace (Sprite.cls s1) with Knife by (symmetry; exact Hcls).
    rewrite (put_away_off_screen s1 Hput1). simpl.
    eapply bind_ok; [apply (update_ok w1 k s1 _ Hs1)|]. reflexivity.
  - split; [|exact Hv]. exists (Sprite.silence s1). split.
    + simpl. apply list_lookup_insert_eq. rewrite length_insert. exact Hlt.
    + apply put_away_silence, Hput1.
  - simpl. rewrite !length_insert. reflexivity.
  - intros r Hr. simpl. rewrite !list_lookup_insert_ne by congruence. reflexivity.
  - intros c. destruct c; reflexivity.
Qed.

End PutAway.

(** A property that each visit of the movement pass keeps holds after the
    pass. *)
Lemma move_loop_keeps (c : Coll) (J : World -> Prop) (l0 : list nat) :
  (forall s w w2 f,
     J w -> s ∈ l0 ->
     (let* _ := sprite_move s in sprite_finished s) w = Ok (f, w2) ->
     moved s w w2 -> J w2) ->
  (forall w l, J w -> J (with_coll c l w)) ->
  forall i w rest,
    (i <= length l0)%nat ->
    NoDup l0 ->
    coll c w = take i l0 ++ rest ->
    Forall (movable w) (take i l0) ->
    J w ->
    exists w', move_loop c i w = Ok (rev (take i l0), w') /\ J w'.
Proof.
  intros Hvisit_J Hsplice_J.
  induction i as [|i IH]; intros w rest Hk Hnodup Hcoll Hmov HJ.
  - exists w. rewrite take_0. split; [reflexivity | exact HJ].
  - destruct (lookup_lt_is_Some_2 l0 i ltac:(lia)) as [s Hs].
    assert (Htake : take (S i) l0 = take i l0 ++ [s]) by (apply take_S_r, Hs).
    rewrite Htake in *.
    assert (Hleni : length (take i l0) = i) by (rewrite length_take; lia).
    apply Forall_app in Hmov as [Hmov_i Hmov_s].
    apply Forall_singleton in Hmov_s as (S0 & Hs0 & Hhb).
    assert (Hnotin : s ∉ take i l0).
    { intros Hin. apply list_elem_of_lookup in Hin as [j Hj].
      assert (j < i)%nat by (apply lookup_lt_Some in Hj; lia).
      rewrite lookup_take_lt in Hj by lia.
      pose proof (NoDup_lookup _ _ _ _ Hnodup Hj Hs). lia. }
    destruct (visit_moved s w S0 Hs0 Hhb) as (w2 & S2 & Hvisit & Hmoved & Hs2).
    destruct (moved_coll c _ _ _ Hmoved) as (new & Hcoll2 & Hnew).
    set (f := negb (Sprite.isOnScreen S2)) in *.
    set (w3 := if f then with_coll c (delete i (coll c w2)) w2 else w2).
    assert (Hheap3 : heap w3 = heap w2) by (subst w3; destruct f, c; reflexivity).
    assert (Hcoll3 : coll c w3 = take i l0 ++ (if f then [] else [s]) ++ rest ++ new).
    { subst w3. rewrite Hcoll2, Hcoll, <- !app_assoc. destruct f.
      - replace (coll c (with_coll c (delete i (take i l0 ++ [s] ++ rest ++ new)) w2))
          with (delete i (take i l0 ++ [s] ++ rest ++ new)) by (destruct c; reflexivity).
        pose proof (delete_middle (take i l0) (rest ++ new) s) as Hd.
        rewrite Hleni in Hd. exact Hd.
      - rewrite Hcoll2, Hcoll, <- !app_assoc. reflexivity. }
    assert (HJ2 : J w2).
    { apply (Hvisit_J s w w2 f HJ); [eapply list_elem_of_lookup_2, Hs | exact Hvisit | exact Hmoved]. }
    assert (HJ3 : J w3) by (subst w3; destruct f; [apply Hsplice_J, HJ2 | exact HJ2]).
    destruct (IH w3 ((if f then [] else [s]) ++ rest ++ new)) as (w' & Hloop & HJ');
      [lia | assumption | exact Hcoll3 | | exact HJ3 |].
    { apply Forall_forall. intros r Hr.
      destruct (proj1 (Forall_forall _ _) Hmov_i r Hr) as (R0 & HR0 & HRhb).
      exists R0. split; [|exact HRhb]. rewrite Hheap3.
      rewrite (moved_others _ _ _ Hmoved); [exact HR0 | | eapply lookup_lt_Some, HR0].
      intros ->. contradiction. }
    exists w'. split; [|exact HJ'].
    simpl move_loop. eapply bind_ok; [reflexivity|]. cbv beta.
    rewrite Hcoll, lookup_app_l by (rewrite length_app; simpl; lia).
    rewrite lookup_app_r, Hleni, Nat.sub_diag by lia. simpl.
    unfold bind in Hvisit |- *.
    destruct (sprite_move s w) as [[[] w1]| |]; try discriminate.
    rewrite Hvisit. fold f.
    assert (Hwhen : when f (splice c i) w2 = Ok (tt, w3)).
    { subst w3. destruct f; [apply splice_ok | reflexivity]. }
    rewrite Hwhen, Hloop, rev_app_distr. reflexivity.
Qed.

(** X17: a knife on the ground at [x <= -100], where [Player.interact]
    puts the knife that it picks up, is removed by the next movement pass,
    if its image is less than 100 wide and the road does not move
    backwards: the pass returns and the knife is no longer in the
    foreground array. *)
Theorem picked_up_knife_is_removed (w : World) (k : nat) (K : Sprite.t) :
  NoDup (coll Sprites w) ->
  Forall (movable w) (coll Sprites w) ->
  k ∈ coll Sprites w ->
  heap w !! k = Some K ->
  Sprite.cls K = Knife ->
  Sprite.state K = Some STATE_GROUNDED ->
  (Sprite.x K <= -100)%Q ->
  (Sprite.image_width K < 100)%Q ->
  (0 <= GameState.roadSpeed (gamestate w))%Q ->
  exists visited w',
    move Sprites w = Ok (visited, w') /\ k ∉ coll Sprites w'.
Proof.
  intros Hnodup Hmov Hin Hk Hcls Hstate Hx Hw Hroad.
  set (v := GameState.roadSpeed (gamestate w)) in *.
  assert (Hlt : (k < length (heap w))%nat) by (eapply lookup_lt_Some; eauto).
  assert (Haway : away k v w).
  { split; [|reflexivity]. exists K. repeat split; assumption. }
  assert (Hvisits : forall s w1 w2 f,
            away k v w1 -> s ∈ coll Sprites w ->
            (let* _ := sprite_move s in sprite_finished s) w1 = Ok (f, w2) ->
            moved s w1 w2 -> away k v w2).
  { intros s w1 w2 f Hw1 _ Hvisit Hmoved.
    destruct (decide (s = k)) as [->|Hne].
    - destruct (visit_put_away k v Hroad w1 Hw1) as (w2' & Hvisit' & Haway2 & _).
      rewrite Hvisit' in Hvisit. injection Hvisit as _ <-. exact Haway2.
    - destruct Hw1 as [(s1 & Hs1 & Hput1) Hv1]. split.
      + exists s1. split; [|exact Hput1].
        rewrite (moved_others _ _ _ Hmoved); [exact Hs1 | congruence |].
        eapply lookup_lt_Some, Hs1.
      + exact (preserves_returns (at_speed v) _ _ _ _ (at_speed_visit v s) Hv1 Hvisit). }
  assert (Hsplices : forall w1 l, away k v w1 -> away k v (with_coll Sprites l w1)).
  { intros w1 l Hw1. exact Hw1. }
  destruct (move_loop_keeps Sprites (away k v) (coll Sprites w) Hvisits Hsplices
              (length (coll Sprites w)) w [])
    as (w' & Hloop & [(K' & HK' & Hput) _]);
    rewrite ?firstn_all, ?app_nil_r; auto.
  destruct (move_loop_spec Sprites (coll Sprites w) (length (coll Sprites w)) w [])
    as (w'' & pushed & Hloop' & Hcoll & _ & _ & Hpushed);
    rewrite ?firstn_all, ?app_nil_r; auto.
  rewrite firstn_all in *. rewrite Hloop in Hloop'. injection Hloop' as <-.
  exists (rev (coll Sprites w)), w'. split.
  - unfold move. eapply bind_ok; [reflexivity|]. exact Hloop.
  - rewrite Hcoll. simpl. intros Hmem. apply elem_of_app in Hmem as [Hmem | Hmem].
    + apply list_elem_of_filter in Hmem as [Hfin _]. unfold finished_at in Hfin.
      rewrite HK', (put_away_off_screen K' Hput) in Hfin. discriminate.
    + pose proof (proj1 (Forall_forall _ _) Hpushed k Hmem) as Hge. simpl in Hge. lia.
Qed.

(** The player of [unarmed_world] has picked up the knife. *)
Definition picked_up_world : World :=
  world_after (sprite_interact 0 1) (unarmed_world (new_Knife STATE_GROUNDED 0)).

Lemma picked_up_knife_is_removed_witness :
  exists visited w',
    move Sprites picked_up_world = Ok (visited, w') /\ 1%nat ∉ coll Sprites w'.
Proof.
  apply (picked_up_knife_is_removed picked_up_world 1 (sprite_at picked_up_world 1)).
  - apply (bool_decide_unpack _). vm_compute. exact Logic.I.
  - apply movableb_sound. vm_compute. reflexivity.
  - apply (bool_decide_unpack _). vm_compute. exact Logic.I.
  - vm_compute. reflexivity.
  - reflexivity.
  - reflexivity.
  - vm_compute. discriminate.
  - vm_compute. reflexivity.
  - vm_compute. discriminate.
Defined.

(** The lamb of [meeting_world] is still there after the movement pass, on
    the playfield. *)
Lemma move_leaves_sprites_in_play_witness :
  let w := meeting_world (new_Lamb 0) in
  finished_at (world_after (move Sprites) w) 1 = false.
Proof.
  apply (move_leaves_sprites_in_play Sprites (meeting_world (new_Lamb 0))
           (world_after (move Sprites) (meeting_world (new_Lamb 0)))
           (rev (coll Sprites (meeting_world (new_Lamb 0)))) 1%nat).
  - vm_compute. apply NoDup_cons. split; [|apply NoDup_singleton].
    intros H. apply list_elem_of_singleton in H. discriminate.
  - apply movableb_sound. vm_compute. reflexivity.
  - vm_compute. reflexivity.
  - vm_compute. apply list_elem_of_further, list_elem_of_here.
  - vm_compute. apply list_elem_of_further, list_elem_of_here.
Defined.

(** ** The phases *)

Definition phase_of (w : World) : Phase := GameState.phase (gamestate w).

(** The events that call [startGameAndSound]: a click, the space bar, the
    enter key. *)
Definition starts (e : Event) : bool :=
  match e with
  | Click => true
  | KeyDown kc => (kc =? KEY_SPACE)%Z || (kc =? KEY_ENTER)%Z
  | _ => false
  end.

(** The phase that [startGameAndSound] leads to. *)
Definition after_start (p : Phase) : Phase :=
  match p with
  | PHASE_ATTRACT => PHASE_RUNNING
  | PHASE_RUNNING => PHASE_RUNNING
  | PHASE_GAME_OVER => PHASE_ATTRACT
  end.

Section Phases.
Context (P : Phase -> Prop).

(** The phase satisfies [P]. *)
Definition in_phase (w : World) : Prop := P (phase_of w).

Lemma in_phase_alloc s : preserves in_phase (alloc s).
Proof. intros w H. exact H. Qed.

Lemma in_phase_Math_random : preserves in_phase Math_random.
Proof. intros w H. unfold post, Math_random. destruct (rng w); exact H. Qed.

Hypothesis game_over : P PHASE_GAME_OVER.

Ltac phase_leaf :=
  let w := fresh "w" in
  let H := fresh "H" in
  intros w H; first [exact H | exact game_over].

Ltac phase_step :=
  lazymatch goal with
  | |- preserves _ (bind _ _) => apply preserves_bind; [|intros ?]
  | |- preserves _ (ret _) => apply preserves_ret
  | |- preserves _ throw => apply preserves_throw
  | |- preserves _ timeout => apply preserves_timeout
  | |- preserves _ (gets _) => apply preserves_gets
  | |- preserves _ (deref _) => apply preserves_deref
  | |- preserves _ (when _ _) => apply preserves_when
  | |- preserves _ (modify _) => apply preserves_modify; phase_leaf
  | |- preserves _ (modify_gs _) => apply preserves_modify; phase_leaf
  | |- preserves _ (alloc _) => apply in_phase_alloc
  | |- preserves _ Math_random => apply in_phase_Math_random
  | |- preserves _ (update _ _) => unfold update
  | |- preserves _ (push _ _) => unfold push
  | |- preserves _ (splice _ _) => unfold splice
  | |- preserves _ (setMusic _) => unfold setMusic
  | |- preserves _ (set_input _) => unfold set_input
  | |- preserves _ (set_coll ?c _) => destruct c; unfold set_coll
  | |- preserves _ (if ?b then _ else _) => destruct b
  | |- preserves _ (match ?x with _ => _ end) => destruct x
  end.

Ltac phase := repeat first [ assumption | phase_step ].

(** Code that does not assign the phase. *)
Lemma in_phase_silence_all l : preserves in_phase (silence_all l).
Proof. induction l; simpl; phase. Qed.

Lemma in_phase_silenceAllSprites : preserves in_phase silenceAllSprites.
Proof. pose proof in_phase_silence_all. unfold silenceAllSprites. phase; auto. Qed.

Lemma in_phase_sprite_move this : preserves in_phase (sprite_move this).
Proof.
  unfold sprite_move, Player_move, Player_spendKnife, Player_throw, Lamb_move, road_move,
    Onion_move, Knife_move.
  phase.
Qed.

Lemma in_phase_sprite_finished this : preserves in_phase (sprite_finished this).
Proof. unfold sprite_finished. phase. Qed.

Lemma in_phase_move_loop c n : preserves in_phase (move_loop c n).
Proof.
  pose proof in_phase_sprite_move. pose proof in_phase_sprite_finished.
  induction n; simpl; phase; auto.
Qed.

Lemma in_phase_keys_y l : preserves in_phase (keys_y l).
Proof. induction l; simpl; phase. Qed.

Lemma in_phase_render l : preserves in_phase (render l).
Proof. induction l; simpl; unfold render_sprite; phase. Qed.

Lemma in_phase_all_ready l : preserves in_phase (all_ready l).
Proof. induction l; simpl; phase. Qed.

Lemma in_phase_push_road_lines l : preserves in_phase (push_road_lines l).
Proof. induction l; simpl; phase. Qed.

Lemma in_phase_loaded : preserves in_phase loaded.
Proof. pose proof in_phase_all_ready. unfold loaded. phase; auto. Qed.

Lemma in_phase_render_all : preserves in_phase render_all.
Proof.
  pose proof in_phase_keys_y. pose proof in_phase_render.
  unfold render_all, prepareRender. phase; auto.
Qed.

Lemma in_phase_game_over_tick : preserves in_phase game_over_tick.
Proof. unfold game_over_tick. phase. Qed.

Lemma in_phase_keyup kc : preserves in_phase (keyup kc).
Proof. unfold keyup. phase. Qed.

Lemma in_phase_keydown_flags kc :
  preserves in_phase
    (if (kc =? KEY_RIGHTARROW)%Z || (kc =? KEY_D)%Z then set_input (Inputs.set_right true)
     else if (kc =? KEY_LEFTARROW)%Z || (kc =? KEY_A)%Z then set_input (Inputs.set_left true)
     else if (kc =? KEY_DOWNARROW)%Z || (kc =? KEY_S)%Z then set_input (Inputs.set_down true)
     else if (kc =? KEY_UPARROW)%Z || (kc =? KEY_W)%Z then set_input (Inputs.set_up true)
     else if (kc =? KEY_SPACE)%Z then set_input (Inputs.set_fire true)
     else ret tt).
Proof. phase. Qed.

Lemma in_phase_image_onload r width : preserves in_phase (image_onload r width).
Proof. unfold image_onload. phase. Qed.

Lemma in_phase_frames_decoded r frames : preserves in_phase (frames_decoded r frames).
Proof. unfold frames_decoded. phase. Qed.

(** Code that can end the run. *)
Lemma in_phase_sprite_interact s1 s2 : preserves in_phase (sprite_interact s1 s2).
Proof.
  pose proof in_phase_silenceAllSprites.
  unfold sprite_interact, Player_interact, Knife_interact, Player_spendKnife, die, Player_die,
    Lamb_die, setGamePhase.
  phase; auto.
Qed.

Lemma in_phase_interact_scan fuel : forall c s1 k,
  preserves in_phase (interact_scan fuel c s1 k).
Proof.
  pose proof in_phase_sprite_interact.
  induction fuel; intros; simpl; phase; auto.
Qed.

Lemma in_phase_interact_loop c n : preserves in_phase (interact_loop c n).
Proof.
  pose proof in_phase_interact_scan. pose proof in_phase_sprite_finished.
  induction n; simpl; phase; auto.
Qed.

Lemma in_phase_running_tick : preserves in_phase running_tick.
Proof.
  pose proof in_phase_sprite_finished. pose proof in_phase_push_road_lines.
  pose proof in_phase_move_loop. pose proof in_phase_interact_loop.
  unfold running_tick, move, interact. phase; auto.
Qed.

End Phases.

Lemma gameloop_phase w :
  wlp gameloop
      (fun _ w' => phase_of w' = phase_of w \/
                   (phase_of w = PHASE_RUNNING /\ phase_of w' = PHASE_GAME_OVER)) w.
Proof.
  unfold gameloop. apply post_bind.
  eapply post_conseq; [apply (in_phase_loaded (fun p => p = phase_of w)); reflexivity|].
  intros go w1 H1. unfold in_phase in H1.
  destruct go; simpl; [|left; exact H1].
  apply post_bind, post_gets. fold (phase_of w1). rewrite H1.
  destruct (phase_of w) eqn:Hp.
  - apply post_bind, post_ret.
    eapply post_conseq; [apply (in_phase_render_all (fun p => p = PHASE_ATTRACT)); exact H1|].
    intros ? w2 H2. left. exact H2.
  - apply post_bind.
    eapply post_conseq.
    { apply (in_phase_running_tick (fun p => p <> PHASE_ATTRACT)); [discriminate|].
      unfold in_phase. rewrite H1. discriminate. }
    intros ? w2 H2.
    eapply post_conseq; [apply (in_phase_render_all (fun p => p <> PHASE_ATTRACT)); exact H2|].
    intros ? w3 H3. unfold in_phase in H3.
    destruct (phase_of w3); [congruence | left; reflexivity | right; split; reflexivity].
  - apply post_bind.
    eapply post_conseq.
    { apply (in_phase_game_over_tick (fun p => p = PHASE_GAME_OVER)). exact H1. }
    intros ? w2 H2.
    eapply post_conseq; [apply (in_phase_render_all (fun p => p = PHASE_GAME_OVER)); exact H2|].
    intros ? w3 H3. left. exact H3.
Qed.

Lemma wlp_any {A} (m : M A) w : wlp m (fun _ _ => True) w.
Proof. unfold post. destruct (m w) as [[a w']| |]; exact Logic.I. Qed.

Lemma startGameAndSound_phase w :
  wlp startGameAndSound (fun _ w' => phase_of w' = after_start (phase_of w)) w.
Proof.
  unfold startGameAndSound. apply post_bind, post_gets. fold (phase_of w).
  destruct (phase_of w) eqn:Hp.
  - reflexivity.
  - exact Hp.
  - unfold setGamePhase. apply post_bind.
    eapply post_conseq; [apply wlp_any|]. intros ? w1 _.
    apply post_bind, post_modify. apply post_bind, post_modify_gs.
    match goal with |- post _ ?m _ ?w0 =>
      assert (Hrest : preserves (in_phase (fun p => p = PHASE_ATTRACT)) m)
    end.
    { repeat first
        [ apply preserves_bind; [|intros ?]
        | apply in_phase_alloc
        | apply preserves_modify; intros ? H; exact H
        | unfold push
        | apply preserves_gets
        | unfold set_coll ]. }
    apply Hrest. reflexivity.
Qed.

(** What an event does to the phase. *)
Lemma handle_phase e w :
  wlp (handle e)
      (fun _ w' =>
         if starts e then phase_of w' = after_start (phase_of w)
         else phase_of w' = phase_of w \/
              (e = Tick /\ phase_of w = PHASE_RUNNING /\ phase_of w' = PHASE_GAME_OVER)) w.
Proof.
  destruct e; simpl handle; simpl starts.
  - eapply post_conseq; [apply gameloop_phase|].
    intros ? w' [H | [H1 H2]]; [left; exact H | right; auto].
  - unfold keydown. apply post_bind.
    destruct ((kc =? KEY_SPACE)%Z || (kc =? KEY_ENTER)%Z); simpl when.
    + eapply post_conseq; [apply startGameAndSound_phase|]. intros ? w1 H1.
      apply (in_phase_keydown_flags (fun p => p = after_start (phase_of w)) kc w1 H1).
    + apply post_ret.
      eapply post_conseq;
        [apply (in_phase_keydown_flags (fun p => p = phase_of w) kc w); reflexivity|].
      intros ? w' H. left. exact H.
  - eapply post_conseq; [apply (in_phase_keyup (fun p => p = phase_of w)); reflexivity|].
    intros ? w' H. left. exact H.
  - apply startGameAndSound_phase.
  - eapply post_conseq; [apply (in_phase_image_onload (fun p => p = phase_of w)); reflexivity|].
    intros ? w' H. left. exact H.
  - eapply post_conseq; [apply (in_phase_frames_decoded (fun p => p = phase_of w)); reflexivity|].
    intros ? w' H. left. exact H.
Qed.

(** X18: the phases change only as follows. An event that starts (a click,
    the space bar, the enter key) leads from attract to running and from
    game over to attract, and keeps the running phase. Any other event
    keeps the phase, except a tick of the running phase, which may end it
    in game over. *)
Theorem phase_transitions (e : Event) (w w' : World) :
  handle e w = Ok (tt, w') ->
  if starts e then phase_of w' = after_start (phase_of w)
  else phase_of w' = phase_of w \/
       (e = Tick /\ phase_of w = PHASE_RUNNING /\ phase_of w' = PHASE_GAME_OVER).
Proof.
  intros Hrun. pose proof (handle_phase e w) as H. unfold post in H.
  rewrite Hrun in H. exact H.
Qed.

Lemma phase_transitions_witness :
  let w := meeting_world (new_Broccoli 0) in
  phase_of (world_after (handle Tick) w) = phase_of w \/
  (Tick = Tick /\ phase_of w = PHASE_RUNNING /\
   phase_of (world_after (handle Tick) w) = PHASE_GAME_OVER).
Proof.
  apply (phase_transitions Tick (meeting_world (new_Broccoli 0))
           (world_after (handle Tick) (meeting_world (new_Broccoli 0)))).
  vm_compute. reflexivity.
Defined.

(** ** The music of the game-over phase *)

(** What rendering leaves alone: everything but the store, the canvas and
    the order of the foreground. *)
Definition backstage (w : World) :=
  (currentBgMusic w, ready w, hiScore w, localStorage w, rng w,
   GameState.set_sprites [] (gamestate w)).

Lemma backstage_render_all v : preserves (fun w => backstage w = v) render_all.
Proof.
  assert (Hkeys : forall l, preserves (fun w => backstage w = v) (keys_y l)).
  { induction l; simpl;
      repeat first [ assumption
                   | apply preserves_bind; [|intros ?]
                   | apply preserves_ret
                   | apply preserves_deref ]. }
  assert (Hrender : forall l, preserves (fun w => backstage w = v) (render l)).
  { induction l; simpl; unfold render_sprite, update;
      repeat first [ assumption
                   | apply preserves_bind; [|intros ?]
                   | apply preserves_ret
                   | apply preserves_throw
                   | apply preserves_timeout
                   | apply preserves_deref
                   | apply preserves_modify; intros ? H; exact H
                   | match goal with |- preserves _ (match ?x with _ => _ end) => destruct x end ]. }
  unfold render_all, prepareRender, set_coll, modify_gs.
  repeat first [ apply Hkeys | apply Hrender
               | apply preserves_bind; [|intros ?]
               | apply preserves_gets
               | apply preserves_modify; intros ? H; exact H ].
Qed.

(** A tick of the game-over phase, once the sprites have loaded. *)
Lemma game_over_tick_ok (w : World) :
  renderable w ->
  ready w = true ->
  GameState.phase (gamestate w) = PHASE_GAME_OVER ->
  exists w',
    gameloop w = Ok (tt, w') /\
    renderable w' /\
    ready w' = true /\
    GameState.phase (gamestate w') = PHASE_GAME_OVER /\
    GameState.gameOverMusicDelay (gamestate w')
      = (GameState.gameOverMusicDelay (gamestate w) - 1)%Z /\
    currentBgMusic w'
      = (if (GameState.gameOverMusicDelay (gamestate w) =? 0)%Z
         then playSample "gameovermusic" else currentBgMusic w).
Proof.
  intros Hr Hready Hphase.
  set (d := GameState.gameOverMusicDelay (gamestate w)).
  set (w0 := set_gamestate (GameState.set_gameOverMusicDelay (d - 1) (gamestate w)) w).
  set (w1 := if (d =? 0)%Z then set_currentBgMusic (playSample "gameovermusic") w0 else w0).
  assert (Htick : game_over_tick w = Ok (tt, w1)).
  { unfold game_over_tick. eapply bind_ok; [reflexivity|]. eapply bind_ok; [reflexivity|].
    fold d. subst w1. destruct (d =? 0)%Z; reflexivity. }
  assert (Hr1 : renderable w1) by (subst w1; destruct (d =? 0)%Z; exact Hr).
  destruct (render_all_ok w1 Hr1) as (w2 & Hrun & Hr2 & _).
  pose proof (backstage_render_all (backstage w1) w1 eq_refl) as Hback.
  unfold post in Hback. rewrite Hrun in Hback.
  exists w2. split; [|split; [exact Hr2|]].
  - unfold gameloop. eapply bind_ok.
    { unfold loaded. eapply bind_ok; [reflexivity|]. cbv beta. rewrite Hready. reflexivity. }
    simpl negb. cbv iota. eapply bind_ok; [reflexivity|]. cbv beta. rewrite Hphase.
    eapply bind_ok; [exact Htick | exact Hrun].
  - assert (Hmusic : currentBgMusic w2 = currentBgMusic w1)
      by (apply (f_equal (fun t => t.1.1.1.1.1)) in Hback; exact Hback).
    assert (Hrdy : ready w2 = ready w1)
      by (apply (f_equal (fun t => t.1.1.1.1.2)) in Hback; exact Hback).
    assert (Hphase2 : GameState.phase (gamestate w2) = GameState.phase (gamestate w1))
      by (apply (f_equal (fun t => GameState.phase t.2)) in Hback; exact Hback).
    assert (Hdelay2 : GameState.gameOverMusicDelay (gamestate w2)
                      = GameState.gameOverMusicDelay (gamestate w1))
      by (apply (f_equal (fun t => GameState.gameOverMusicDelay t.2)) in Hback; exact Hback).
    rewrite Hrdy, Hphase2, Hdelay2, Hmusic. subst w1.
    destruct (d =? 0)%Z; simpl; auto.
Qed.

(** X19: in the game-over phase, with all images loaded, every tick returns
    and counts [gameOverMusicDelay] down by one; the game-over music is set
    at the tick that finds the delay at 0, that is, with a delay [d >= 0] at
    the start, at tick [d + 1]: after [n] ticks the music is the game-over
    music if [d < n], and still the former music otherwise. *)
Theorem game_over_music_starts_after_delay (n : nat) : forall (w : World),
  renderable w ->
  ready w = true ->
  GameState.phase (gamestate w) = PHASE_GAME_OVER ->
  (0 <= GameState.gameOverMusicDelay (gamestate w))%Z ->
  exists w',
    run (repeat Tick n) w = Ok (tt, w') /\
    GameState.gameOverMusicDelay (gamestate w')
      = (GameState.gameOverMusicDelay (gamestate w) - Z.of_nat n)%Z /\
    currentBgMusic w'
      = (if (GameState.gameOverMusicDelay (gamestate w) <? Z.of_nat n)%Z
         then Some "gameovermusic" else currentBgMusic w).
Proof.
  assert (Hgen : forall (n : nat) (w : World),
            renderable w -> ready w = true ->
            GameState.phase (gamestate w) = PHASE_GAME_OVER ->
            exists w',
              run (repeat Tick n) w = Ok (tt, w') /\
              GameState.gameOverMusicDelay (gamestate w')
                = (GameState.gameOverMusicDelay (gamestate w) - Z.of_nat n)%Z /\
              (forall m, currentBgMusic w = Some m ->
                         (GameState.gameOverMusicDelay (gamestate w) < 0)%Z \/ m = "gameovermusic" ->
                         currentBgMusic w' = Some m) /\
              ((0 <= GameState.gameOverMusicDelay (gamestate w))%Z ->
               currentBgMusic w'
                 = (if (GameState.gameOverMusicDelay (gamestate w) <? Z.of_nat n)%Z
                    then Some "gameovermusic" else currentBgMusic w))).
  { clear. induction n as [|n IH]; intros w Hr Hready Hphase.
    - exists w. split; [reflexivity|]. split; [simpl; lia|]. split; [auto|].
      intros Hd. replace (_ <? _)%Z with false by (symmetry; apply Z.ltb_ge; simpl; lia).
      reflexivity.
    - destruct (game_over_tick_ok w Hr Hready Hphase)
        as (w1 & Hrun1 & Hr1 & Hready1 & Hphase1 & Hdelay1 & Hmusic1).
      destruct (IH w1 Hr1 Hready1 Hphase1) as (w2 & Hrun2 & Hdelay2 & Hkeep2 & Hmusic2).
      exists w2. split; [|split; [|split]].
      + change (repeat Tick (S n)) with (Tick :: repeat Tick n).
        change (run (Tick :: repeat Tick n) w)
          with (bind (handle Tick) (fun _ => run (repeat Tick n)) w).
        eapply bind_ok; [exact Hrun1 | exact Hrun2].
      + rewrite Hdelay2, Hdelay1. lia.
      + intros m Hm Hcase. apply Hkeep2.
        * rewrite Hmusic1. destruct (Z.eqb_spec (GameState.gameOverMusicDelay (gamestate w)) 0);
            [|exact Hm].
          destruct Hcase as [Hneg | ->]; [lia | reflexivity].
        * rewrite Hdelay1. destruct Hcase as [Hneg | ->]; [left; lia | right; reflexivity].
      + intros Hd. rewrite Hdelay1 in Hmusic2.
        destruct (Z.eqb_spec (GameState.gameOverMusicDelay (gamestate w)) 0) as [E | E].
        * replace (_ <? Z.of_nat (S n))%Z with true by (symmetry; apply Z.ltb_lt; lia).
          apply (Hkeep2 "gameovermusic"); [rewrite Hmusic1; reflexivity | right; reflexivity].
        * rewrite Hmusic2 by lia. rewrite Hmusic1.
          destruct (Z.ltb_spec (GameState.gameOverMusicDelay (gamestate w) - 1) (Z.of_nat n)),
                   (Z.ltb_spec (GameState.gameOverMusicDelay (gamestate w)) (Z.of_nat (S n)));
            try lia; reflexivity. }
  intros w Hr Hready Hphase Hd.
  destruct (Hgen n w Hr Hready Hphase) as (w' & Hrun & Hdelay & _ & Hmusic).
  exists w'. split; [exact Hrun|]. split; [exact Hdelay | apply Hmusic, Hd].
Qed.

(** The tick at which the player of [meeting_world] has met a hazard. *)
Definition game_over_world : World := world_after (handle Tick) (meeting_world (new_Broccoli 0)).

Lemma game_over_music_starts_after_delay_witness :
  exists w',
    run (repeat Tick 51) game_over_world = Ok (tt, w') /\
    GameState.gameOverMusicDelay (gamestate w')
      = (GameState.gameOverMusicDelay (gamestate game_over_world) - Z.of_nat 51)%Z /\
    currentBgMusic w'
      = (if (GameState.gameOverMusicDelay (gamestate game_over_world) <? Z.of_nat 51)%Z
         then Some "gameovermusic" else currentBgMusic game_over_world).
Proof.
  apply (game_over_music_starts_after_delay 51 game_over_world).
  - apply renderableb_sound. vm_compute. reflexivity.
  - reflexivity.
  - vm_compute. reflexivity.
  - vm_compute. discriminate.
Defined.

(** ** Waiting for the images *)

(** Whether every sprite of the list is ready. *)
Definition all_loaded (w : World) (l : list nat) : bool :=
  forallb (fun r => match heap w !! r with Some s => Sprite.ready s | None => false end) l.

Lemma all_ready_spec (l : list nat) (w : World) :
  Forall (fun r => (r < length (heap w))%nat) l ->
  all_ready l w = Ok (all_loaded w l, w).
Proof.
  induction 1 as [|r rest Hr _ IH]; simpl; [reflexivity|].
  destruct (lookup_lt_is_Some_2 _ _ Hr) as [s Hs].
  eapply bind_ok; [apply deref_ok, Hs|].
  eapply bind_ok; [exact IH|]. rewrite Hs. reflexivity.
Qed.

Lemma set_ready_same (w : World) : set_ready (ready w) w = w.
Proof. destruct w; reflexivity. Qed.

Section Latch.

(** The game has been ready once. *)
Definition is_ready (w : World) : Prop := ready w = true.

Lemma is_ready_alloc s : preserves is_ready (alloc s).
Proof. intros w H. exact H. Qed.

Lemma is_ready_Math_random : preserves is_ready Math_random.
Proof. intros w H. unfold post, Math_random. destruct (rng w); exact H. Qed.

Ltac latch_leaf :=
  let w := fresh "w" in
  let H := fresh "H" in
  intros w H; exact H.

Ltac latch_step :=
  lazymatch goal with
  | |- preserves _ (bind _ _) => apply preserves_bind; [|intros ?]
  | |- preserves _ (ret _) => apply preserves_ret
  | |- preserves _ throw => apply preserves_throw
  | |- preserves _ timeout => apply preserves_timeout
  | |- preserves _ (gets _) => apply preserves_gets
  | |- preserves _ (deref _) => apply preserves_deref
  | |- preserves _ (when _ _) => apply preserves_when
  | |- preserves _ (modify _) => apply preserves_modify; latch_leaf
  | |- preserves _ (modify_gs _) => apply preserves_modify; latch_leaf
  | |- preserves _ (alloc _) => apply is_ready_alloc
  | |- preserves _ Math_random => apply is_ready_Math_random
  | |- preserves _ (update _ _) => unfold update
  | |- preserves _ (push _ _) => unfold push
  | |- preserves _ (splice _ _) => unfold splice
  | |- preserves _ (setMusic _) => unfold setMusic
  | |- preserves _ (set_input _) => unfold set_input
  | |- preserves _ (set_coll ?c _) => destruct c; unfold set_coll
  | |- preserves _ (if ?b then _ else _) => destruct b
  | |- preserves _ (match ?x with _ => _ end) => destruct x
  end.

Ltac latch := repeat first [ assumption | latch_step ].

Lemma is_ready_silence_all l : preserves is_ready (silence_all l).
Proof. induction l; simpl; latch. Qed.

Lemma is_ready_setGamePhase p : preserves is_ready (setGamePhase p).
Proof.
  pose proof is_ready_silence_all.
  destruct p; unfold setGamePhase, silenceAllSprites; latch; auto.
Qed.

Lemma is_ready_sprite_move this : preserves is_ready (sprite_move this).
Proof.
  unfold sprite_move, Player_move, Player_spendKnife, Player_throw, Lamb_move, road_move,
    Onion_move, Knife_move.
  latch.
Qed.

Lemma is_ready_sprite_finished this : preserves is_ready (sprite_finished this).
Proof. unfold sprite_finished. latch. Qed.

Lemma is_ready_move_loop c n : preserves is_ready (move_loop c n).
Proof.
  pose proof is_ready_sprite_move. pose proof is_ready_sprite_finished.
  induction n; simpl; latch; auto.
Qed.

Lemma is_ready_keys_y l : preserves is_ready (keys_y l).
Proof. induction l; simpl; latch. Qed.

Lemma is_ready_render l : preserves is_ready (render l).
Proof. induction l; simpl; unfold render_sprite; latch. Qed.

Lemma is_ready_push_road_lines l : preserves is_ready (push_road_lines l).
Proof. induction l; simpl; latch. Qed.

Lemma is_ready_sprite_interact s1 s2 : preserves is_ready (sprite_interact s1 s2).
Proof.
  pose proof (is_ready_setGamePhase PHASE_GAME_OVER).
  unfold sprite_interact, Player_interact, Knife_interact, Player_spendKnife, die, Player_die,
    Lamb_die.
  latch; auto.
Qed.

Lemma is_ready_interact_scan fuel : forall c s1 k, preserves is_ready (interact_scan fuel c s1 k).
Proof.
  pose proof is_ready_sprite_interact.
  induction fuel; intros; simpl; latch; auto.
Qed.

Lemma is_ready_interact_loop c n : preserves is_ready (interact_loop c n).
Proof.
  pose proof is_ready_interact_scan. pose proof is_ready_sprite_finished.
  induction n; simpl; latch; auto.
Qed.

(** [gameloop] assigns [ready] only while it is false. *)
Lemma is_ready_gameloop : preserves is_ready gameloop.
Proof.
  pose proof is_ready_sprite_finished. pose proof is_ready_push_road_lines.
  pose proof is_ready_move_loop. pose proof is_ready_interact_loop.
  pose proof is_ready_keys_y. pose proof is_ready_render.
  assert (Hloaded : preserves is_ready loaded).
  { intros w Hw. unfold loaded, post, bind, gets. unfold is_ready in Hw. rewrite Hw. exact Hw. }
  unfold gameloop, running_tick, game_over_tick, render_all, prepareRender, move, interact.
  latch; auto.
Qed.

Lemma is_ready_handle e : preserves is_ready (handle e).
Proof.
  pose proof is_ready_gameloop. pose proof is_ready_setGamePhase.
  destruct e; simpl; unfold keydown, keyup, startGameAndSound, image_onload, frames_decoded;
    latch; auto.
Qed.

End Latch.

(** X20: [gameloop] waits for the images. As long as [ready] is false and
    a sprite of the foreground is not ready, a tick changes nothing. The
    tick that finds them all ready sets [ready]. From then on [ready] stays
    true whatever happens: the sprites created later never make the loop
    wait again. *)
Theorem gameloop_waits_for_images :
  (forall w,
     ready w = false ->
     Forall (fun r => (r < length (heap w))%nat) (coll Sprites w) ->
     all_loaded w (coll Sprites w) = false ->
     handle Tick w = Ok (tt, w)) /\
  (forall w w',
     ready w = false ->
     Forall (fun r => (r < length (heap w))%nat) (coll Sprites w) ->
     all_loaded w (coll Sprites w) = true ->
     handle Tick w = Ok (tt, w') ->
     ready w' = true) /\
  (forall e w w', ready w = true -> handle e w = Ok (tt, w') -> ready w' = true).
Proof.
  split; [|split].
  - intros w Hready Hrefs Hall. simpl handle. unfold gameloop.
    eapply bind_ok.
    { unfold loaded. eapply bind_ok; [reflexivity|]. cbv beta. rewrite Hready.
      eapply bind_ok; [reflexivity|]. eapply bind_ok; [apply all_ready_spec, Hrefs|].
      eapply bind_ok; [reflexivity|]. reflexivity. }
    rewrite Hall. simpl. rewrite <- Hready at 1. rewrite set_ready_same. reflexivity.
  - intros w w' Hready Hrefs Hall Hrun.
    assert (Hloaded : loaded w = Ok (true, set_ready true w)).
    { unfold loaded. eapply bind_ok; [reflexivity|]. cbv beta. rewrite Hready.
      eapply bind_ok; [reflexivity|]. eapply bind_ok; [apply all_ready_spec, Hrefs|].
      eapply bind_ok; [reflexivity|]. rewrite Hall. reflexivity. }
    assert (Hrest : preserves is_ready
              (let* g := gets gamestate in
               let* _ := match GameState.phase g with
                         | PHASE_ATTRACT => ret tt
                         | PHASE_RUNNING => running_tick
                         | PHASE_GAME_OVER => game_over_tick
                         end in
               render_all)).
    { intros w1 H1. pose proof (is_ready_gameloop w1 H1) as Hg.
      unfold gameloop, post, bind in Hg. unfold is_ready in H1.
      unfold loaded, bind, gets in Hg. rewrite H1 in Hg. exact Hg. }
    simpl handle in Hrun. unfold gameloop in Hrun.
    rewrite (bind_ok _ _ _ _ _ _ Hloaded eq_refl) in Hrun. simpl negb in Hrun. cbv iota in Hrun.
    assert (H1 : is_ready (set_ready true w)) by reflexivity.
    exact (preserves_returns is_ready _ _ _ _ Hrest H1 Hrun).
  - intros e w w' Hready Hrun.
    exact (preserves_returns is_ready _ _ _ _ (is_ready_handle e) Hready Hrun).
Qed.

(** The page has loaded and [game()] has run; no image has loaded yet. *)
Definition loading_world : World := world_after game (initial_world 0 None []).

Lemma gameloop_waits_for_images_witness :
  handle Tick loading_world = Ok (tt, loading_world).
Proof.
  apply (proj1 gameloop_waits_for_images loading_world).
  - reflexivity.
  - vm_compute. repeat constructor.
  - vm_compute. reflexivity.
Defined.

(** ** Onions need a score *)

Lemma nextFrame_cls (s s' : Sprite.t) (image : option Frame) :
  Sprite.nextFrame s = Ok (image, s') -> Sprite.cls s' = Sprite.cls s.
Proof.
  unfold Sprite.nextFrame. intros H. repeat case_match; simplify_eq; reflexivity.
Qed.

Section Spawns.
Context (cs : list Class) (s0 m0 : Z).

(** Since the sprites had the classes [cs], every sprite has kept its
    class, and no onion has been created. *)
Definition spawned (w : World) : Prop :=
  exists added, classes w = cs ++ added /\ Forall (fun c => c <> Onion) added.

(** Moreover the score is [s0] and the score that onions need is [m0]. *)
Definition calm (w : World) : Prop :=
  spawned w /\ score_of w = s0 /\ GameState.minOnionScore (gamestate w) = m0.

Lemma classes_update (w : World) (r : nat) (s s' : Sprite.t) :
  heap w !! r = Some s -> Sprite.cls s' = Sprite.cls s ->
  classes (set_heap (<[r := s']> (heap w)) w) = classes w.
Proof.
  intros Hr Hcls. unfold classes. simpl. rewrite list_fmap_insert, Hcls.
  apply list_insert_id. rewrite list_lookup_fmap, Hr. reflexivity.
Qed.

Lemma spawned_update r (f : Sprite.t -> Sprite.t) :
  (forall s, Sprite.cls (f s) = Sprite.cls s) -> preserves spawned (update r f).
Proof.
  intros Hf w H. unfold post, update, bind, deref, modify.
  destruct (heap w !! r) as [s|] eqn:Hr; [|exact Logic.I].
  unfold spawned. rewrite (classes_update w r s (f s) Hr (Hf s)). exact H.
Qed.

Lemma spawned_alloc s : Sprite.cls s <> Onion -> preserves spawned (alloc s).
Proof.
  intros Hs w (added & Hc & Hall). exists (added ++ [Sprite.cls s]). split.
  - unfold classes in *. simpl. rewrite fmap_app, Hc, <- app_assoc. reflexivity.
  - apply Forall_app. split; [exact Hall|]. apply Forall_singleton, Hs.
Qed.

Lemma spawned_Math_random : preserves spawned Math_random.
Proof. intros w H. unfold post, Math_random. destruct (rng w); exact H. Qed.

Lemma calm_update r (f : Sprite.t -> Sprite.t) :
  (forall s, Sprite.cls (f s) = Sprite.cls s) -> preserves calm (update r f).
Proof.
  intros Hf w (H & Hs & Hm). pose proof (spawned_update r f Hf w H) as Hp.
  unfold post, update, bind, deref, modify in *.
  destruct (heap w !! r) as [s|]; [|exact Logic.I]. split; [exact Hp|]. split; assumption.
Qed.

Lemma calm_alloc s : Sprite.cls s <> Onion -> preserves calm (alloc s).
Proof.
  intros Hs w (H & Hsm). split; [|exact Hsm]. apply (spawned_alloc s Hs w H).
Qed.

Lemma calm_Math_random : preserves calm Math_random.
Proof. intros w H. unfold post, Math_random. destruct (rng w); exact H. Qed.

Ltac same_class :=
  let s := fresh "s" in
  intros s;
  unfold Knife_setState, Sprite.setAnimation, Sprite.silence, Sprite.ensureFullyOnScreen;
  repeat case_match; reflexivity.

Ltac spawn_leaf :=
  let w := fresh "w" in
  let H := fresh "H" in
  intros w H; exact H.

Ltac spawn_step :=
  lazymatch goal with
  | |- preserves _ (bind _ _) => apply preserves_bind; [|intros ?]
  | |- preserves _ (ret _) => apply preserves_ret
  | |- preserves _ throw => apply preserves_throw
  | |- preserves _ timeout => apply preserves_timeout
  | |- preserves _ (gets _) => apply preserves_gets
  | |- preserves _ (deref _) => apply preserves_deref
  | |- preserves _ (when _ _) => apply preserves_when
  | |- preserves _ (modify _) => apply preserves_modify; spawn_leaf
  | |- preserves _ (modify_gs _) => apply preserves_modify; spawn_leaf
  | |- preserves _ (alloc _) =>
      first [apply spawned_alloc | apply calm_alloc]; discriminate
  | |- preserves _ Math_random => first [apply spawned_Math_random | apply calm_Math_random]
  | |- preserves _ (update _ _) =>
      first [apply spawned_update | apply calm_update]; same_class
  | |- preserves _ (push _ _) => unfold push
  | |- preserves _ (splice _ _) => unfold splice
  | |- preserves _ (setMusic _) => unfold setMusic
  | |- preserves _ (set_input _) => unfold set_input
  | |- preserves _ (set_coll ?c _) => destruct c; unfold set_coll
  | |- preserves _ (if ?b then _ else _) => destruct b
  | |- preserves _ (match ?x with _ => _ end) => destruct x
  end.

Ltac spawns := repeat first [ assumption | spawn_step ].

Lemma spawned_silence_all l : preserves spawned (silence_all l).
Proof. induction l; simpl; spawns. Qed.

Lemma spawned_silenceAllSprites : preserves spawned silenceAllSprites.
Proof. pose proof spawned_silence_all. unfold silenceAllSprites. spawns; auto. Qed.

Lemma spawned_setGamePhase p : preserves spawned (setGamePhase p).
Proof. pose proof spawned_silenceAllSprites. destruct p; unfold setGamePhase; spawns; auto. Qed.

Lemma spawned_sprite_move this : preserves spawned (sprite_move this).
Proof.
  unfold sprite_move, Player_move, Player_spendKnife, Player_throw, Lamb_move, road_move,
    Onion_move, Knife_move.
  spawns.
Qed.

Lemma spawned_sprite_finished this : preserves spawned (sprite_finished this).
Proof. unfold sprite_finished. spawns. Qed.

Lemma calm_sprite_finished this : preserves calm (sprite_finished this).
Proof. unfold sprite_finished. spawns. Qed.

Lemma spawned_move_loop c n : preserves spawned (move_loop c n).
Proof.
  pose proof spawned_sprite_move. pose proof spawned_sprite_finished.
  induction n; simpl; spawns; auto.
Qed.

Lemma spawned_keys_y l : preserves spawned (keys_y l).
Proof. induction l; simpl; spawns. Qed.

Lemma spawned_render_sprite r : preserves spawned (render_sprite r).
Proof.
  intros w H. unfold render_sprite. apply post_bind. unfold post at 1, deref.
  destruct (heap w !! r) as [s|] eqn:Hr; [|exact Logic.I].
  destruct (Sprite.nextFrame s) as [[image s']| |] eqn:Hnext; [|exact Logic.I..].
  apply post_bind. eapply post_update; [exact Hr|].
  assert (H' : spawned (set_heap (<[r := s']> (heap w)) w)).
  { unfold spawned. rewrite (classes_update w r s s' Hr (nextFrame_cls _ _ _ Hnext)). exact H. }
  destruct image; exact H'.
Qed.

Lemma spawned_render l : preserves spawned (render l).
Proof. pose proof spawned_render_sprite. induction l; simpl; spawns; auto. Qed.

Lemma spawned_all_ready l : preserves spawned (all_ready l).
Proof. induction l; simpl; spawns. Qed.

Lemma spawned_push_road_lines l : preserves spawned (push_road_lines l).
Proof. induction l; simpl; spawns. Qed.

Lemma calm_push_road_lines l : preserves calm (push_road_lines l).
Proof. induction l; simpl; spawns. Qed.

Lemma spawned_sprite_interact s1 s2 : preserves spawned (sprite_interact s1 s2).
Proof.
  pose proof (spawned_setGamePhase PHASE_GAME_OVER).
  unfold sprite_interact, Player_interact, Knife_interact, Player_spendKnife, die, Player_die,
    Lamb_die.
  spawns; auto.
Qed.

Lemma spawned_interact_scan fuel : forall c s1 k, preserves spawned (interact_scan fuel c s1 k).
Proof.
  pose proof spawned_sprite_interact.
  induction fuel; intros; simpl; spawns; auto.
Qed.

Lemma spawned_interact_loop c n : preserves spawned (interact_loop c n).
Proof.
  pose proof spawned_interact_scan. pose proof spawned_sprite_finished.
  induction n; simpl; spawns; auto.
Qed.

Lemma spawned_render_all : preserves spawned render_all.
Proof.
  pose proof spawned_keys_y. pose proof spawned_render.
  unfold render_all, prepareRender. spawns; auto.
Qed.

Lemma spawned_loaded : preserves spawned loaded.
Proof. pose proof spawned_all_ready. unfold loaded. spawns; auto. Qed.

(** A tick of a run whose score is not above the score that onions need. *)
Lemma calm_running_tick :
  (s0 <= m0)%Z -> forall w, calm w -> wlp running_tick (fun _ w' => spawned w') w.
Proof.
  intros Hle w H. unfold running_tick.
  do 12 (apply post_bind;
         eapply post_conseq;
         [ match goal with |- post _ ?m _ _ =>
             assert (Hm : preserves calm m)
               by (pose proof calm_sprite_finished; pose proof calm_push_road_lines;
                   spawns; auto);
             apply Hm; assumption end
         | clear H; intros ? ? H ]).
  apply post_bind, post_gets.
  destruct H as (H & Hs & Hm). unfold score_of in Hs. rewrite Hs, Hm.
  replace (m0 <? s0)%Z with false by (symmetry; apply Z.ltb_ge; exact Hle).
  simpl when. apply post_bind, post_ret.
  clear Hs Hm.
  match goal with |- post _ ?m _ ?w1 =>
    assert (Hrest : preserves spawned m); [|exact (Hrest w1 H)] end.
  pose proof spawned_move_loop. pose proof spawned_interact_loop.
  unfold move, interact. spawns; auto.
Qed.

Lemma calm_all_ready l : preserves calm (all_ready l).
Proof. induction l; simpl; spawns. Qed.

Lemma calm_loaded : preserves calm loaded.
Proof. pose proof calm_all_ready. unfold loaded. spawns; auto. Qed.

Lemma calm_gameloop :
  (s0 <= m0)%Z -> forall w, calm w -> wlp gameloop (fun _ w' => spawned w') w.
Proof.
  intros Hle w H. unfold gameloop. apply post_bind.
  eapply post_conseq; [apply calm_loaded, H|]. clear H. intros go w1 H.
  destruct go; simpl; [|apply H].
  apply post_bind, post_gets. apply post_bind.
  assert (Htick : wlp (match GameState.phase (gamestate w1) with
                       | PHASE_ATTRACT => ret tt
                       | PHASE_RUNNING => running_tick
                       | PHASE_GAME_OVER => game_over_tick
                       end) (fun _ w' => spawned w') w1).
  { destruct (GameState.phase (gamestate w1)).
    - apply H.
    - apply calm_running_tick; assumption.
    - assert (Hm : preserves spawned game_over_tick) by (unfold game_over_tick; spawns).
      apply Hm, H. }
  eapply post_conseq; [exact Htick|]. intros ? w2 H2. apply spawned_render_all, H2.
Qed.

Lemma spawned_handle e :
  (s0 <= m0)%Z -> forall w, calm w -> wlp (handle e) (fun _ w' => spawned w') w.
Proof.
  intros Hle w H. destruct e; simpl handle.
  - apply calm_gameloop; assumption.
  - assert (Hm : preserves spawned (keydown kc))
      by (pose proof spawned_setGamePhase; unfold keydown, startGameAndSound; spawns; auto).
    apply Hm, H.
  - assert (Hm : preserves spawned (keyup kc)) by (unfold keyup; spawns).
    apply Hm, H.
  - assert (Hm : preserves spawned startGameAndSound)
      by (pose proof spawned_setGamePhase; unfold startGameAndSound; spawns; auto).
    apply Hm, H.
  - assert (Hm : preserves spawned (image_onload r width)) by (unfold image_onload; spawns).
    apply Hm, H.
  - assert (Hm : preserves spawned (frames_decoded r frames))
      by (unfold frames_decoded; spawns).
    apply Hm, H.
Qed.

End Spawns.

(** X21: onions need a score. An event that is handled in a world whose
    score is not above [minOnionScore] creates no onion: every sprite keeps
    its class, and the sprites created are of other classes. *)
Theorem onions_need_score (e : Event) (w w' : World) :
  handle e w = Ok (tt, w') ->
  (score_of w <= GameState.minOnionScore (gamestate w))%Z ->
  exists added,
    classes w' = classes w ++ added /\ Forall (fun c => c <> Onion) added.
Proof.
  intros Hrun Hle.
  apply (post_returns True (handle e) (fun _ w' => spawned (classes w) w') w w' tt); [|exact Hrun].
  apply (spawned_handle (classes w) (score_of w) (GameState.minOnionScore (gamestate w)) e Hle).
  split; [|split; reflexivity].
  exists []. rewrite app_nil_r. split; [reflexivity|constructor].
Qed.

Lemma onions_need_score_witness :
  exists added,
    classes (world_after (handle Tick) running_world) = classes running_world ++ added /\
    Forall (fun c => c <> Onion) added.
Proof.
  apply (onions_need_score Tick running_world (world_after (handle Tick) running_world)).
  - vm_compute. reflexivity.
  - vm_compute. discriminate.
Defined.

(** ** The high score in the storage *)

Example parseInt_examples :
  parseInt "2100" = Some 2100%Z /\ parseInt "  -42px" = Some (-42)%Z /\
  parseInt "0x1F" = Some 31%Z /\ parseInt "abc" = None /\ parseInt "" = None /\
  parseInt "-" = None /\ parseInt "007" = Some 7%Z /\ parseInt "+5" = Some 5%Z /\
  parseInt "12.5" = Some 12%Z /\ parseInt "0x" = None.
Proof. vm_compute. repeat split; reflexivity. Qed.

(** *** Decimal numerals *)










(** *** The stored high score follows the high score *)

Section Stored.
Context (hi : Z) (storage : option (option string)).
























End Stored.



(** The page loads with a high score of 700 in the storage; a run starts, the player kills
    the lamb, walks up into a broccoli and dies with a score of 1000. *)
Definition record_run : list Event :=
  [ImageLoaded 0 380; FramesDecoded 0 [0%nat];
   ImageLoaded 1 256; FramesDecoded 1 [0; 1; 2; 3; 4]%nat;
   ImageLoaded 2 400; FramesDecoded 2 [0; 1; 2; 3; 4]%nat; Tick;
   Click; ImageLoaded 3 32; FramesDecoded 3 [0; 1; 2; 3; 4; 5; 6; 7]%nat;
   Tick; ImageLoaded 4 32; KeyDown KEY_RIGHTARROW] ++ repeat Tick 90
  ++ [KeyUp KEY_RIGHTARROW; KeyDown KEY_UPARROW] ++ repeat Tick 150.

Definition after_record_run : World :=
  world_after (let* _ := game in run record_run)
    (initial_world 700 (Some (Some "700")) [0.5; 0.25; 0.75]%Q).


Example after_record_run_storage :
  GameState.phase (gamestate after_record_run) = PHASE_GAME_OVER /\
  hiScore after_record_run = 1000%Z /\
  localStorage after_record_run = Some (Some "1000").
Proof. vm_compute. repeat split; reflexivity. Qed.

(** ** The status bar *)

(** *** The knives of the status bar *)

Lemma Qplus_inject_Z (a b : Z) : (inject_Z a + inject_Z b)%Q = inject_Z (a + b).
Proof. unfold Qplus, inject_Z. simpl. rewrite !Z.mul_1_r. reflexivity. Qed.

(** The icons of [n] knives, the first at [16 * (k + 1)]. *)
Definition knife_icons (image : Frame) (k n : nat) : list Draw :=
  (fun i => (image, inject_Z (16 * (Z.of_nat i + 1)), 8%Q)) <$> seq k n.

Lemma draw_knives_ok (image : Frame) (n : nat) : forall (k : nat) (w : World),
  draw_knives (Some image) n (inject_Z (16 * (Z.of_nat k + 1))) 8 w
    = Ok (tt, set_canvas (canvas w ++ knife_icons image k n) w).
Proof.
  induction n as [|n IH]; intros k w.
  - unfold knife_icons. simpl. rewrite app_nil_r. destruct w; reflexivity.
  - simpl draw_knives. eapply bind_ok; [reflexivity|].
    change 16%Q with (inject_Z 16). rewrite Qplus_inject_Z.
    replace (16 * (Z.of_nat k + 1) + 16)%Z with (16 * (Z.of_nat (S k) + 1))%Z by lia.
    rewrite IH. unfold knife_icons. simpl. rewrite <- app_assoc. reflexivity.
Qed.

(** *** The digits of the status bar *)

(** What the loop of [draw_score] draws for characters of the codes [ks]
    (less 48), from [x] on. *)
Fixpoint glyphs (numberSprite : Sprite.t) (x : Q) (ks : list Z) : list Draw :=
  match ks with
  | [] => []
  | k :: rest =>
    match frame_at (Sprite.frames numberSprite) k with
    | Some image => [(image, x, 8%Q)]
    | None => []
    end ++ glyphs numberSprite (x + Sprite.image_width numberSprite) rest
  end.

Definition codes_of (s : string) : list Z :=
  (fun c => Z.of_nat (nat_of_ascii c) - 48)%Z <$> list_ascii_of_string s.

Lemma draw_score_ok (ns : Sprite.t) (s : string) : forall (x : Q) (w : World),
  draw_score ns s x 8 w = Ok (tt, set_canvas (canvas w ++ glyphs ns x (codes_of s)) w).
Proof.
  induction s as [|c s IH]; intros x w.
  - simpl. rewrite app_nil_r. destruct w; reflexivity.
  - simpl draw_score. unfold codes_of. simpl list_ascii_of_string. rewrite fmap_cons.
    simpl glyphs. fold (codes_of s).
    destruct (frame_at (Sprite.frames ns) (Z.of_nat (nat_of_ascii c) - 48)) as [image|].
    + eapply bind_ok; [reflexivity|]. rewrite IH. simpl. rewrite <- app_assoc. reflexivity.
    + eapply bind_ok; [reflexivity|]. rewrite IH. reflexivity.
Qed.









Lemma draw_knives_none (n : nat) (x y : Q) (w : World) :
  draw_knives None (S n) x y w = TypeError.
Proof. reflexivity. Qed.

(** The second half of [renderStatusBar]. *)
Definition knife_part (knifeSprite : Sprite.t) : M unit :=
  when (Sprite.ready knifeSprite)
    (let* g := gets gamestate in
     draw_knives (Sprite.frames knifeSprite !! 0%nat) (Z.to_nat (GameState.knives g)) 16 8).

Lemma knife_part_ok (ks : Sprite.t) (image : Frame) (w : World) :
  Sprite.frames ks !! 0%nat = Some image ->
  knife_part ks w
    = Ok (tt, set_canvas (canvas w ++ (if Sprite.ready ks
                                       then knife_icons image 0 (Z.to_nat (knives_of w))
                                       else [])) w).
Proof.
  intros Himage. unfold knife_part. destruct (Sprite.ready ks); simpl when.
  - eapply bind_ok; [reflexivity|]. cbv beta. rewrite Himage.
    apply (draw_knives_ok image (Z.to_nat (knives_of w)) 0 w).
  - rewrite app_nil_r. destruct w; reflexivity.
Qed.

(** The text of the status bar: the score, or [HI] and the high score in the
    attract phase. *)
Definition status_text (w : World) : string :=
  match GameState.phase (gamestate w) with
  | PHASE_ATTRACT => (":; " ++ string_of_number (hiScore w))%string
  | _ => string_of_number (score_of w)
  end.

Definition text_start (ns : Sprite.t) (text : string) : Q :=
  PLAYFIELD_WIDTH - Sprite.image_width ns * (1 + inject_Z (Z.of_nat (String.length text))).

Lemma score_part_ok (ns ks : Sprite.t) (w : World) :
  renderStatusBar ns ks w
    = knife_part ks
        (set_canvas (canvas w ++ (if Sprite.ready ns
                                  then glyphs ns (text_start ns (status_text w))
                                         (codes_of (status_text w))
                                  else [])) w).
Proof.
  unfold renderStatusBar, knife_part. destruct (Sprite.ready ns); simpl when.
  - eapply (bind_ok _ _ w); [|reflexivity].
    eapply bind_ok; [reflexivity|]. eapply bind_ok; [reflexivity|]. cbv beta.
    unfold status_text, text_start, score_of.
    destruct (GameState.phase (gamestate w)); apply draw_score_ok.
  - rewrite app_nil_r. destruct w; reflexivity.
Qed.

(** The knife icon is there if the loop over the knives needs it. *)
Definition icon_ok (ks : Sprite.t) (w : World) : Prop :=
  Sprite.ready ks = true -> (1 <= knives_of w)%Z -> is_Some (Sprite.frames ks !! 0%nat).

Lemma knife_part_returns (ks : Sprite.t) (w : World) :
  (forall c, icon_ok ks (set_canvas c w)) ->
  exists icons, forall c, knife_part ks (set_canvas c w) = Ok (tt, set_canvas (c ++ icons) w).
Proof.
  intros Hok. specialize (Hok []). unfold icon_ok, knives_of in Hok. simpl in Hok.
  unfold knife_part. destruct (Sprite.ready ks); simpl when.
  - destruct (Z.to_nat (GameState.knives (gamestate w))) as [|n] eqn:Hn.
    + exists []. intros c. eapply bind_ok; [reflexivity|]. cbv beta. simpl gamestate.
      rewrite Hn, app_nil_r. reflexivity.
    + destruct Hok as [image Himage]; [reflexivity | lia |].
      exists (knife_icons image 0 (S n)). intros c.
      eapply bind_ok; [reflexivity|]. cbv beta. simpl gamestate. rewrite Hn, Himage.
      apply (draw_knives_ok image (S n) 0 (set_canvas c w)).
  - exists []. intros c. rewrite app_nil_r. reflexivity.
Qed.

(** X23: [renderStatusBar] with a knife sprite that has a first frame
    returns and only draws. After the glyphs of the text, if the knife
    sprite is ready, it draws one icon for each knife of the player, the
    first frame of the knife sprite, at [y = 8] and [x = 16, 32, 48, ...];
    none if the knives are 0 or the sprite is not ready. *)
Theorem status_bar_knives (ns ks : Sprite.t) (image : Frame) (w : World) :
  Sprite.frames ks !! 0%nat = Some image ->
  exists text_draws,
    renderStatusBar ns ks w
      = Ok (tt, set_canvas
                  (canvas w ++ text_draws ++
                   (if Sprite.ready ks
                    then (fun i => (image, inject_Z (16 * (Z.of_nat i + 1)), 8%Q))
                           <$> seq 0 (Z.to_nat (knives_of w))
                    else [])) w).
Proof.
  intros Himage. eexists. rewrite score_part_ok, (knife_part_ok ks image _ Himage).
  simpl. rewrite <- app_assoc. reflexivity.
Qed.

(** A sprite of the status bar whose image has loaded; its class plays no
    role. *)
Definition loaded_font (fh width : Q) (frames : list Frame) : Sprite.t :=
  Sprite.set_ready true
    (Sprite.set_frames frames
       (Sprite.set_image_width width (Sprite.new Knife fh [("dummy", [entry 0 1])]))).

Definition digits_font : Sprite.t := loaded_font 16 16 (seq 100 12).
Definition knife_font : Sprite.t := loaded_font 32 32 [7%nat].

Lemma status_bar_knives_witness :
  exists text_draws,
    renderStatusBar digits_font knife_font running_world
      = Ok (tt, set_canvas
                  (canvas running_world ++ text_draws ++
                   (if Sprite.ready knife_font
                    then (fun i => (7%nat, inject_Z (16 * (Z.of_nat i + 1)), 8%Q))
                           <$> seq 0 (Z.to_nat (knives_of running_world))
                    else [])) running_world).
Proof. apply (status_bar_knives digits_font knife_font 7%nat running_world). reflexivity. Defined.



Example status_bar_of_first_kill :
  world_after (renderStatusBar digits_font knife_font) (set_canvas [] first_kill_world)
    = set_canvas [(101%nat, 420%Q, 8%Q); (100%nat, 436%Q, 8%Q); (100%nat, 452%Q, 8%Q);
                  (100%nat, 468%Q, 8%Q); (7%nat, 16%Q, 8%Q); (7%nat, 32%Q, 8%Q)]
        first_kill_world.
Proof. vm_compute. reflexivity. Qed.



(** X26: [renderStatusBar] raises when the knife sprite is ready without a
    first frame and the player has a knife, since [drawImage] refuses
    [undefined]; in every other case it returns, and only adds to what is
    drawn. A character of the text without a frame never raises: it is
    skipped. *)
Theorem status_bar_raises (ns ks : Sprite.t) (w : World) :
  (Sprite.ready ks = true /\ Sprite.frames ks !! 0%nat = None /\ (1 <= knives_of w)%Z ->
   renderStatusBar ns ks w = TypeError) /\
  (icon_ok ks w ->
   exists draws, renderStatusBar ns ks w = Ok (tt, set_canvas (canvas w ++ draws) w)).
Proof.
  split.
  - intros (Hready & Hnone & Hk). rewrite score_part_ok. unfold knife_part.
    rewrite Hready. simpl when. eapply bind_ok; [reflexivity|]. cbv beta. rewrite Hnone.
    unfold knives_of in Hk. simpl gamestate.
    destruct (Z.to_nat (GameState.knives (gamestate w))) eqn:E; [lia|reflexivity].
  - intros Hicon.
    destruct (knife_part_returns ks w) as [icons Hicons]; [intros c; exact Hicon|].
    eexists. rewrite score_part_ok, Hicons, <- app_assoc. reflexivity.
Qed.

(** ** The game raises no error *)

(** The animation [key] is in the table of the sprite and has a step. *)
Definition has_animation (key : string) (s : Sprite.t) : Prop :=
  exists anim,
    Sprite.lookup_animation key (Sprite.animations s) = Some anim /\ (0 < length anim)%nat.

(** What the methods of its class need of a sprite: an animation that can be
    played, the animations that the methods switch to, and the hitbox that
    [Player.move] reads. Every constructor builds such a sprite. *)
Definition class_ok (s : Sprite.t) : Prop :=
  match Sprite.cls s with
  | Player =>
    has_animation "dead" s /\ has_animation "walking" s /\ has_animation "wielding" s /\
    is_Some (Sprite.hitbox s)
  | Lamb => has_animation "dead" s
  | Knife => has_animation "grounded" s
  | _ => True
  end.

Definition sprite_ok (s : Sprite.t) : Prop := clock_ok s /\ class_ok s.

(** A well-formed world: the arrays, [gamestate.lamb] and, in the running
    phase, [gamestate.player] refer to sprites of the store, and no array
    holds a sprite twice. *)
Definition world_ok (w : World) : Prop :=
  Forall sprite_ok (heap w) /\
  Forall (fun r => (r < length (heap w))%nat) (coll Sprites w) /\
  Forall (fun r => (r < length (heap w))%nat) (coll Bgsprites w) /\
  (forall l, GameState.lamb (gamestate w) = Some l -> (l < length (heap w))%nat) /\
  (GameState.phase (gamestate w) = PHASE_RUNNING ->
   exists p, GameState.player (gamestate w) = Some p /\ (p < length (heap w))%nat) /\
  NoDup (coll Sprites w) /\
  NoDup (coll Bgsprites w).

(** [grows w w']: the sprites of [w] are in [w'], with their classes. *)
Definition grows (w w' : World) : Prop := classes w `prefix_of` classes w'.

(** [ext w w']: moreover [gamestate.player] is the same and the two arrays
    have only been pushed to. *)
Definition ext (w w' : World) : Prop :=
  grows w w' /\
  GameState.player (gamestate w') = GameState.player (gamestate w) /\
  coll Sprites w `prefix_of` coll Sprites w' /\
  coll Bgsprites w `prefix_of` coll Bgsprites w'.

Lemma grows_refl w : grows w w.
Proof. unfold grows. reflexivity. Qed.

#[global] Instance grows_reflexive : Reflexive grows := grows_refl.

Lemma grows_trans w1 w2 w3 : grows w1 w2 -> grows w2 w3 -> grows w1 w3.
Proof. unfold grows. intros H1 H2. etrans; eassumption. Qed.

Lemma ext_refl w : ext w w.
Proof. split; [apply grows_refl | repeat split; reflexivity]. Qed.

Lemma ext_trans w1 w2 w3 : ext w1 w2 -> ext w2 w3 -> ext w1 w3.
Proof.
  intros (A1 & A2 & A3 & A4) (B1 & B2 & B3 & B4). repeat split.
  - eapply grows_trans; eassumption.
  - congruence.
  - etrans; eassumption.
  - etrans; eassumption.
Qed.

Lemma grows_same w w' : classes w' = classes w -> grows w w'.
Proof. unfold grows. intros ->. reflexivity. Qed.

Lemma ext_same w w' :
  classes w' = classes w ->
  GameState.player (gamestate w') = GameState.player (gamestate w) ->
  coll Sprites w' = coll Sprites w ->
  coll Bgsprites w' = coll Bgsprites w ->
  ext w w'.
Proof. intros H1 H2 H3 H4. unfold ext, grows. rewrite H1, H2, H3, H4. auto. Qed.

Lemma ext_grows w w' : ext w w' -> grows w w'.
Proof. intros H. apply H. Qed.

Lemma ext_grows_trans w1 w2 w3 : ext w1 w2 -> grows w2 w3 -> grows w1 w3.
Proof. intros H. apply grows_trans, H. Qed.

Lemma grows_valid w w' r : grows w w' -> (r < length (heap w))%nat -> (r < length (heap w'))%nat.
Proof.
  unfold grows, classes. intros H Hr. apply prefix_length in H.
  rewrite !length_fmap in H. lia.
Qed.

Lemma grows_class w w' r c : grows w w' -> classes w !! r = Some c -> classes w' !! r = Some c.
Proof. intros H Hr. eapply prefix_lookup_Some; eassumption. Qed.

Lemma classes_lookup w r s : heap w !! r = Some s -> classes w !! r = Some (Sprite.cls s).
Proof. intros H. unfold classes. rewrite list_lookup_fmap, H. reflexivity. Qed.

Lemma classes_lookup_inv w r c :
  classes w !! r = Some c -> exists s, heap w !! r = Some s /\ Sprite.cls s = c.
Proof.
  unfold classes. rewrite list_lookup_fmap. destruct (heap w !! r) as [s|]; [|discriminate].
  intros [= <-]. eauto.
Qed.

Lemma valid_lookup w r : (r < length (heap w))%nat -> exists s, heap w !! r = Some s.
Proof. intros H. apply lookup_lt_is_Some_2 in H as [s Hs]. eauto. Qed.

Lemma world_ok_sprite w r s : world_ok w -> heap w !! r = Some s -> sprite_ok s.
Proof. intros (H & _) Hr. eapply Forall_lookup_1; eassumption. Qed.

(** [sound R m w]: run from the well-formed world [w], [m] returns, in a
    well-formed world that [R] relates to [w]. *)
Definition sound (R : World -> World -> Prop) {A} (m : M A) (w : World) : Prop :=
  wp m (fun _ w' => world_ok w' /\ R w w') w.

Lemma sound_ret {A} (a : A) w : world_ok w -> sound ext (ret a) w.
Proof. intros H. split; [exact H | apply ext_refl]. Qed.

Lemma sound_weaken {A} (m : M A) w : sound ext m w -> sound grows m w.
Proof.
  intros H. eapply post_conseq; [exact H|]. intros a w' [Hok Hext].
  split; [exact Hok | apply Hext].
Qed.

Section Bind.
Context (R1 R2 R3 : World -> World -> Prop).
Hypothesis compose : forall a b c, R1 a b -> R2 b c -> R3 a c.

Lemma sound_bind_gen {A B} (m : M A) (k : A -> M B) w :
  sound R1 m w ->
  (forall a w1, world_ok w1 -> R1 w w1 -> sound R2 (k a) w1) ->
  sound R3 (bind m k) w.
Proof.
  intros Hm Hk. apply post_bind. eapply post_conseq; [exact Hm|].
  intros a w1 [Hok HR]. eapply post_conseq; [apply Hk; assumption|].
  intros b w2 [Hok2 HR2]. split; [exact Hok2 | eapply compose; eassumption].
Qed.

End Bind.

Definition sound_bind {A B} := @sound_bind_gen ext ext ext ext_trans A B.
Definition sound_bind_grows {A B} := @sound_bind_gen grows grows grows grows_trans A B.
Definition sound_bind_ext_grows {A B} := @sound_bind_gen ext grows grows ext_grows_trans A B.

Lemma sound_gets R {A B} (f : World -> A) (k : A -> M B) w :
  sound R (k (f w)) w -> sound R (bind (gets f) k) w.
Proof. intros H. exact H. Qed.

Lemma sound_deref R {B} (r : nat) (k : Sprite.t -> M B) w s :
  heap w !! r = Some s -> sound R (k s) w -> sound R (bind (deref r) k) w.
Proof. intros Hr H. unfold sound, post, bind, deref. rewrite Hr. exact H. Qed.

Lemma sound_when R (b : bool) (m : M unit) w :
  R w w -> world_ok w -> (b = true -> sound R m w) -> sound R (when b m) w.
Proof. intros HR Hok Hm. destruct b; [apply Hm; reflexivity|]. split; assumption. Qed.

(** *** Sprites that stay well-formed *)

Lemma world_ok_classes_heap w h :
  world_ok w -> Forall sprite_ok h -> length h = length (heap w) ->
  world_ok (set_heap h w).
Proof.
  intros (H1 & H2 & H3 & H4 & H5 & H6 & H7) Hh Hlen. unfold world_ok. simpl. rewrite Hlen.
  repeat split; assumption.
Qed.

Lemma sound_update (r : nat) (f : Sprite.t -> Sprite.t) w s :
  world_ok w -> heap w !! r = Some s ->
  sprite_ok (f s) -> Sprite.cls (f s) = Sprite.cls s ->
  sound ext (update r f) w.
Proof.
  intros Hok Hr Hf Hcls. unfold sound, post. rewrite (update_ok _ _ _ _ Hr). split.
  - apply world_ok_classes_heap; [exact Hok | | apply length_insert].
    apply Forall_insert; [apply Hok | exact Hf].
  - apply ext_same; try reflexivity.
    unfold classes. simpl. rewrite list_fmap_insert, Hcls. apply list_insert_id.
    rewrite list_lookup_fmap, Hr. reflexivity.
Qed.

(** An assignment to a variable of [gamestate] other than the arrays, the
    lamb, the player and the phase. *)
Lemma sound_modify_gs (f : GameState.t -> GameState.t) w :
  world_ok w ->
  (forall g, GameState.sprites (f g) = GameState.sprites g /\
             GameState.bgsprites (f g) = GameState.bgsprites g /\
             GameState.lamb (f g) = GameState.lamb g /\
             GameState.player (f g) = GameState.player g /\
             GameState.phase (f g) = GameState.phase g) ->
  sound ext (modify_gs f) w.
Proof.
  intros (H1 & H2 & H3 & H4 & H5 & H6 & H7) Hf.
  destruct (Hf (gamestate w)) as (F1 & F2 & F3 & F4 & F5).
  split; [|apply ext_same; simpl; auto].
  unfold world_ok. simpl. rewrite F1, F2, F3, F4, F5. repeat split; assumption.
Qed.

Lemma sound_set_phase p w :
  world_ok w -> p <> PHASE_RUNNING -> sound ext (modify_gs (GameState.set_phase p)) w.
Proof.
  intros (H1 & H2 & H3 & H4 & H5 & H6 & H7) Hp. split; [|apply ext_same; reflexivity].
  unfold world_ok. simpl. repeat split; try assumption. intros E. congruence.
Qed.

Lemma sound_setMusic name w : world_ok w -> sound ext (setMusic name) w.
Proof. intros H. split; [exact H | apply ext_same; reflexivity]. Qed.

Lemma NoDup_snoc (l : list nat) (r : nat) : NoDup l -> r ∉ l -> NoDup (l ++ [r]).
Proof.
  intros Hl Hr. apply NoDup_app. split; [exact Hl|]. split; [|apply NoDup_singleton].
  intros x Hx Hx'. apply list_elem_of_singleton in Hx'. subst. contradiction.
Qed.

Lemma sound_push c r w :
  world_ok w -> (r < length (heap w))%nat -> r ∉ coll c w -> sound ext (push c r) w.
Proof.
  intros (H1 & H2 & H3 & H4 & H5 & H6 & H7) Hr Hfresh.
  destruct c; (split; [|split; [apply grows_same; reflexivity|]; repeat split; simpl; try reflexivity]).
  - unfold world_ok. simpl. repeat split; try assumption.
    + apply Forall_app. split; [exact H3 | repeat constructor; exact Hr].
    + apply NoDup_snoc; assumption.
  - apply prefix_app_r. reflexivity.
  - unfold world_ok. simpl. repeat split; try assumption.
    + apply Forall_app. split; [exact H2 | repeat constructor; exact Hr].
    + apply NoDup_snoc; assumption.
  - apply prefix_app_r. reflexivity.
Qed.

Lemma sound_splice c i w : world_ok w -> sound grows (splice c i) w.
Proof.
  intros (H1 & H2 & H3 & H4 & H5 & H6 & H7). destruct c; (split; [|apply grows_same; reflexivity]).
  - unfold world_ok. simpl. repeat split; try assumption.
    + apply Forall_delete, H3.
    + apply (sublist_NoDup _ _ H7 (sublist_delete _ _)).
  - unfold world_ok. simpl. repeat split; try assumption.
    + apply Forall_delete, H2.
    + apply (sublist_NoDup _ _ H6 (sublist_delete _ _)).
Qed.

Lemma sound_alloc R {B} (s : Sprite.t) (k : nat -> M B) w :
  (forall a b c, ext a b -> R b c -> R a c) ->
  world_ok w -> sprite_ok s ->
  (forall w1, world_ok w1 -> ext w w1 -> classes w1 !! length (heap w) = Some (Sprite.cls s) ->
              (forall c, length (heap w) ∉ coll c w1) ->
              sound R (k (length (heap w))) w1) ->
  sound R (bind (alloc s) k) w.
Proof.
  intros HR (H1 & H2 & H3 & H4 & H5 & H6 & H7) Hs Hk.
  set (w1 := set_heap (heap w ++ [s]) w).
  assert (Hext : ext w w1).
  { split; [|repeat split; reflexivity]. unfold grows, classes. simpl. rewrite fmap_app.
    apply prefix_app_r. reflexivity. }
  assert (Hok1 : world_ok w1).
  { unfold world_ok. simpl. rewrite length_app. simpl. repeat split.
    - apply Forall_app. split; [exact H1 | apply Forall_singleton; exact Hs].
    - eapply Forall_impl; [exact H2|]. simpl. intros; lia.
    - eapply Forall_impl; [exact H3|]. simpl. intros; lia.
    - intros l Hl. specialize (H4 l Hl). lia.
    - intros Hp. destruct (H5 Hp) as (p & Hp1 & Hp2). exists p. split; [exact Hp1 | lia].
    - exact H6.
    - exact H7. }
  eapply post_conseq; [apply (Hk w1 Hok1 Hext)|].
  - unfold classes. simpl. rewrite fmap_app, lookup_app_r; rewrite length_fmap; [|lia].
    rewrite Nat.sub_diag. reflexivity.
  - intros c Hin. assert (length (heap w) < length (heap w))%nat; [|lia].
    destruct c; simpl in Hin.
    + apply (proj1 (Forall_forall _ _) H3 _ Hin).
    + apply (proj1 (Forall_forall _ _) H2 _ Hin).
  - intros b w2 [Hok2 HR2]. split; [exact Hok2 | eapply HR; eassumption].
Qed.

Lemma sound_random R {B} (k : Q -> M B) w :
  world_ok w ->
  (forall q w1, world_ok w1 -> ext w w1 -> heap w1 = heap w -> sound R (k q) w1) ->
  (forall a b c, ext a b -> R b c -> R a c) ->
  sound R (bind Math_random k) w.
Proof.
  intros Hok Hk HR. unfold sound, post, bind, Math_random.
  destruct (rng w) as [|q rest].
  - apply (Hk 0%Q w Hok (ext_refl w) eq_refl).
  - assert (Hok1 : world_ok (set_rng rest w)) by exact Hok.
    assert (Hext : ext w (set_rng rest w)) by (apply ext_same; reflexivity).
    pose proof (Hk q _ Hok1 Hext eq_refl) as H. unfold sound, post in H.
    destruct (k q (set_rng rest w)) as [[b w2]| |]; try contradiction.
    split; [apply H | eapply HR; [exact Hext | apply H]].
Qed.

Lemma sound_modify_other (f : World -> World) w :
  world_ok w ->
  heap (f w) = heap w -> gamestate (f w) = gamestate w ->
  sound ext (modify f) w.
Proof.
  intros (H1 & H2 & H3 & H4 & H5 & H6 & H7) Hh Hg. split.
  - unfold world_ok, coll. rewrite Hh, Hg. repeat split; assumption.
  - apply ext_same; unfold classes, coll; rewrite ?Hh, ?Hg; reflexivity.
Qed.

Lemma Forall_valid_grows w w' (l : list nat) :
  grows w w' ->
  Forall (fun r => (r < length (heap w))%nat) l ->
  Forall (fun r => (r < length (heap w'))%nat) l.
Proof. intros H Hl. eapply Forall_impl; [exact Hl|]. intros r. apply grows_valid, H. Qed.

Ltac carry :=
  repeat match goal with
  | He : ext ?w ?w1, H : classes ?w !! ?r = Some ?c |- _ =>
      lazymatch goal with
      | _ : classes w1 !! r = Some c |- _ => fail
      | _ => pose proof (grows_class w w1 r c (ext_grows _ _ He) H)
      end
  | He : grows ?w ?w1, H : classes ?w !! ?r = Some ?c |- _ =>
      lazymatch goal with
      | _ : classes w1 !! r = Some c |- _ => fail
      | _ => pose proof (grows_class w w1 r c He H)
      end
  | He : ext ?w ?w1, H : (?r < length (heap ?w))%nat |- _ =>
      lazymatch goal with
      | _ : (r < length (heap w1))%nat |- _ => fail
      | _ => pose proof (grows_valid w w1 r (ext_grows _ _ He) H)
      end
  | He : grows ?w ?w1, H : (?r < length (heap ?w))%nat |- _ =>
      lazymatch goal with
      | _ : (r < length (heap w1))%nat |- _ => fail
      | _ => pose proof (grows_valid w w1 r He H)
      end
  end.

(** *** The constructors and the assignments keep sprites well-formed *)

Lemma has_animation_clock key s : has_animation key s -> clock_ok (Sprite.setAnimation key s).
Proof. intros (anim & Hanim & Hlen). exists anim. split; [exact Hanim | exact Hlen]. Qed.

Lemma sprite_ok_setAnimation key s :
  sprite_ok s -> has_animation key s -> sprite_ok (Sprite.setAnimation key s).
Proof. intros [_ Hk] Hkey. split; [apply has_animation_clock, Hkey | exact Hk]. Qed.

Lemma sprite_ok_silence s : sprite_ok s -> sprite_ok (Sprite.silence s).
Proof. intros H. unfold Sprite.silence. destruct (Sprite.sound s); exact H. Qed.

Lemma sprite_ok_ensureFullyOnScreen s : sprite_ok s -> sprite_ok (Sprite.ensureFullyOnScreen s).
Proof. intros H. unfold Sprite.ensureFullyOnScreen. repeat case_match; exact H. Qed.

Lemma sprite_ok_nextFrame s image s' :
  sprite_ok s -> Sprite.nextFrame s = Ok (image, s') ->
  sprite_ok s' /\ Sprite.cls s' = Sprite.cls s.
Proof.
  intros [Hc Hk] Hnext.
  destruct (nextFrame_ok s Hc) as (image' & s'' & Hnext' & Hcls & Hc').
  rewrite Hnext in Hnext'. injection Hnext' as <- <-.
  split; [|exact Hcls]. split; [exact Hc'|].
  assert (Hsame : Sprite.cls s' = Sprite.cls s /\ Sprite.animations s' = Sprite.animations s /\
                  Sprite.hitbox s' = Sprite.hitbox s).
  { revert Hnext. unfold Sprite.nextFrame.
    repeat case_match; intros [= <- <-]; repeat split; reflexivity. }
  destruct Hsame as (E1 & E2 & E3). revert Hk.
  unfold class_ok, has_animation. rewrite E1, E2, E3. auto.
Qed.

Ltac ok_new :=
  split;
  [ eexists; split; [reflexivity | cbn; lia]
  | unfold class_ok; cbn; repeat split; try (eexists; split; [reflexivity | cbn; lia]); eauto ].

Lemma sprite_ok_new_TitleScreen : sprite_ok new_TitleScreen.
Proof. ok_new. Qed.
Lemma sprite_ok_new_ClickToStart : sprite_ok new_ClickToStart.
Proof. ok_new. Qed.
Lemma sprite_ok_new_Credits : sprite_ok new_Credits.
Proof. ok_new. Qed.
Lemma sprite_ok_new_GameOverMessage : sprite_ok new_GameOverMessage.
Proof. ok_new. Qed.
Lemma sprite_ok_new_NewHiScore : sprite_ok new_NewHiScore.
Proof. ok_new. Qed.
Lemma sprite_ok_new_Player : sprite_ok new_Player.
Proof. ok_new. Qed.
Lemma sprite_ok_new_Lamb q : sprite_ok (new_Lamb q).
Proof. ok_new. Qed.
Lemma sprite_ok_new_Broccoli q : sprite_ok (new_Broccoli q).
Proof. ok_new. Qed.
Lemma sprite_ok_new_Onion player speed : sprite_ok (new_Onion player speed).
Proof. unfold new_Onion. destruct (Qltb _ _); ok_new. Qed.
Lemma sprite_ok_new_Knife st q : sprite_ok (new_Knife st q).
Proof. destruct st; ok_new. Qed.
Lemma sprite_ok_new_RoadLine y : sprite_ok (new_RoadLine y).
Proof. ok_new. Qed.
Lemma sprite_ok_new_Sidewalk : sprite_ok new_Sidewalk.
Proof. ok_new. Qed.

(** *** The methods *)

Lemma sound_silence_all (l : list nat) : forall w,
  world_ok w ->
  Forall (fun r => (r < length (heap w))%nat) l ->
  sound ext (silence_all l) w.
Proof.
  induction l as [|r rest IH]; intros w Hok Hl; simpl; [apply sound_ret, Hok|].
  apply Forall_cons in Hl as [Hr Hrest].
  destruct (valid_lookup _ _ Hr) as [s Hs].
  eapply sound_bind.
  - eapply sound_update; [exact Hok | exact Hs | | ].
    + apply sprite_ok_silence. eapply world_ok_sprite; eassumption.
    + unfold Sprite.silence. destruct (Sprite.sound s); reflexivity.
  - intros _ w1 Hok1 Hext. apply IH; [exact Hok1|].
    eapply Forall_valid_grows; [apply Hext | exact Hrest].
Qed.

Lemma sound_silenceAllSprites w : world_ok w -> sound ext silenceAllSprites w.
Proof.
  intros Hok. unfold silenceAllSprites. apply sound_gets.
  eapply sound_bind; [apply sound_silence_all; [exact Hok | apply Hok]|].
  intros _ w1 Hok1 Hext. apply sound_gets. apply sound_silence_all; [exact Hok1 | apply Hok1].
Qed.

Lemma class_valid w r c : classes w !! r = Some c -> (r < length (heap w))%nat.
Proof. intros H. apply lookup_lt_Some in H. unfold classes in H. rewrite length_fmap in H. exact H. Qed.

(** An assignment to fields of a sprite that keeps it well-formed. *)
Lemma sound_update_valid (r : nat) (f : Sprite.t -> Sprite.t) w :
  world_ok w -> (r < length (heap w))%nat ->
  (forall s, sprite_ok s -> sprite_ok (f s) /\ Sprite.cls (f s) = Sprite.cls s) ->
  sound ext (update r f) w.
Proof.
  intros Hok Hr Hf. destruct (valid_lookup _ _ Hr) as [s Hs].
  destruct (Hf s (world_ok_sprite _ _ _ Hok Hs)) as [H1 H2].
  eapply sound_update; eassumption.
Qed.

Ltac ok_set :=
  let s := fresh "s" in
  let Hs := fresh "Hs" in
  intros s Hs; unfold Sprite.silence, Sprite.ensureFullyOnScreen;
  repeat case_match; (split; [exact Hs | reflexivity]).

Ltac gs_frame := intros ?; repeat split; reflexivity.

Lemma sound_setGamePhase_game_over w :
  world_ok w -> sound ext (setGamePhase PHASE_GAME_OVER) w.
Proof.
  intros Hok. unfold setGamePhase.
  eapply sound_bind; [apply sound_silenceAllSprites, Hok|]. intros _ w1 Hok1 _.
  eapply sound_bind; [apply sound_setMusic, Hok1|]. intros _ w2 Hok2 _.
  eapply sound_bind; [apply sound_set_phase; [exact Hok2 | discriminate]|]. intros _ w3 Hok3 _.
  apply sound_alloc; [apply ext_trans | exact Hok3 | apply sprite_ok_new_GameOverMessage |].
  intros w4 Hok4 _ Hcls4 Hfresh_w4.
  eapply sound_bind; [apply sound_push; [exact Hok4 | eapply class_valid, Hcls4 | apply Hfresh_w4]|].
  intros _ w5 Hok5 _.
  eapply sound_bind; [apply sound_modify_gs; [exact Hok5 | gs_frame]|]. intros _ w6 Hok6 _.
  apply sound_gets. unfold id.
  destruct (hiScore w6 <? GameState.score (gamestate w6))%Z; [|apply sound_ret, Hok6].
  eapply sound_bind; [apply sound_modify_other; [exact Hok6 | reflexivity | reflexivity]|].
  intros _ w7 Hok7 _.
  apply sound_alloc; [apply ext_trans | exact Hok7 | apply sprite_ok_new_NewHiScore |].
  intros w8 Hok8 _ Hcls8 Hfresh_w8.
  eapply sound_bind; [apply sound_push; [exact Hok8 | eapply class_valid, Hcls8 | apply Hfresh_w8]|].
  intros _ w9 Hok9 _.
  destruct (localStorage w6); [|apply sound_ret, Hok9].
  apply sound_modify_other; [exact Hok9 | reflexivity | reflexivity].
Qed.

Lemma world_ok_no_sprites w :
  world_ok w -> world_ok (set_gamestate (GameState.set_sprites [] (gamestate w)) w).
Proof.
  intros (H1 & H2 & H3 & H4 & H5 & H6 & H7). unfold world_ok. simpl.
  repeat split; try assumption; constructor.
Qed.

Lemma sound_setGamePhase_attract w :
  world_ok w -> sound grows (setGamePhase PHASE_ATTRACT) w.
Proof.
  intros Hok. unfold setGamePhase.
  eapply sound_bind_ext_grows; [apply sound_silenceAllSprites, Hok|]. intros _ w1 Hok1 _.
  eapply sound_bind_ext_grows; [apply sound_setMusic, Hok1|]. intros _ w2 Hok2 _.
  eapply sound_bind_ext_grows; [apply sound_set_phase; [exact Hok2 | discriminate]|].
  intros _ w3 Hok3 _.
  eapply sound_bind_grows.
  { split; [apply world_ok_no_sprites, Hok3 | apply grows_same; reflexivity]. }
  intros _ w4 Hok4 _. apply sound_weaken.
  apply sound_alloc; [apply ext_trans | exact Hok4 | apply sprite_ok_new_TitleScreen |].
  intros w5 Hok5 _ Hcls5 Hfresh_w5.
  eapply sound_bind; [apply sound_push; [exact Hok5 | eapply class_valid, Hcls5 | apply Hfresh_w5]|].
  intros _ w6 Hok6 _.
  apply sound_alloc; [apply ext_trans | exact Hok6 | apply sprite_ok_new_ClickToStart |].
  intros w7 Hok7 _ Hcls7 Hfresh_w7.
  eapply sound_bind; [apply sound_push; [exact Hok7 | eapply class_valid, Hcls7 | apply Hfresh_w7]|].
  intros _ w8 Hok8 _.
  apply sound_alloc; [apply ext_trans | exact Hok8 | apply sprite_ok_new_Credits |].
  intros w9 Hok9 _ Hcls9 Hfresh_w9.
  eapply sound_bind; [apply sound_push; [exact Hok9 | eapply class_valid, Hcls9 | apply Hfresh_w9]|].
  intros _ w10 Hok10 _.
  apply sound_modify_gs; [exact Hok10 | gs_frame].
Qed.

Lemma sound_setGamePhase_running w :
  world_ok w -> sound grows (setGamePhase PHASE_RUNNING) w.
Proof.
  intros (H1 & H2 & H3 & H4 & H5 & H6 & H7). unfold sound, post. cbn. split.
  - unfold world_ok. cbn. rewrite length_app. cbn. repeat split.
    + apply Forall_app. split; [exact H1 | apply Forall_singleton, sprite_ok_new_Player].
    + repeat constructor. lia.
    + constructor.
    + discriminate.
    + intros _. exists (length (heap w)). split; [reflexivity | lia].
    + apply NoDup_singleton.
    + constructor.
  - unfold grows, classes. cbn. rewrite fmap_app. apply prefix_app_r. reflexivity.
Qed.

Lemma sound_Player_spendKnife this b w :
  world_ok w -> classes w !! this = Some Player ->
  sound ext (Player_spendKnife this b) w.
Proof.
  intros Hok Hthis. unfold Player_spendKnife. apply sound_gets.
  destruct (GameState.knives (gamestate w) =? 0)%Z.
  - eapply sound_bind; [|intros; apply sound_ret; assumption].
    apply sound_when; [apply ext_refl | exact Hok |]. intros _.
    apply sound_update_valid; [exact Hok | eapply class_valid, Hthis | ok_set].
  - eapply sound_bind; [apply sound_modify_gs; [exact Hok | gs_frame]|].
    intros _ w1 Hok1 Hext1. carry. apply sound_gets.
    eapply sound_bind; [|intros; apply sound_ret; assumption].
    apply sound_when; [apply ext_refl | exact Hok1 |]. intros _.
    destruct (classes_lookup_inv _ _ _ H) as (s & Hs & Hcls).
    pose proof (world_ok_sprite _ _ _ Hok1 Hs) as Hsok.
    eapply sound_update; [exact Hok1 | exact Hs | | reflexivity].
    apply sprite_ok_setAnimation; [exact Hsok|].
    destruct Hsok as [_ Hk]. unfold class_ok in Hk. rewrite Hcls in Hk. apply Hk.
Qed.

Lemma sound_Player_die this w :
  world_ok w -> classes w !! this = Some Player -> sound ext (Player_die this) w.
Proof.
  intros Hok Hthis. unfold Player_die.
  destruct (classes_lookup_inv _ _ _ Hthis) as (s & Hs & Hcls).
  pose proof (world_ok_sprite _ _ _ Hok Hs) as Hsok.
  eapply sound_bind; [|intros _ w1 Hok1 _; apply sound_setGamePhase_game_over, Hok1].
  eapply sound_update; [exact Hok | exact Hs | | reflexivity].
  apply sprite_ok_setAnimation; [exact Hsok|].
  destruct Hsok as [_ Hk]. unfold class_ok in Hk. rewrite Hcls in Hk. apply Hk.
Qed.

Lemma sound_Lamb_die this w :
  world_ok w -> classes w !! this = Some Lamb -> sound ext (Lamb_die this) w.
Proof.
  intros Hok Hthis. unfold Lamb_die.
  destruct (classes_lookup_inv _ _ _ Hthis) as (s & Hs & Hcls).
  pose proof (world_ok_sprite _ _ _ Hok Hs) as Hsok.
  eapply sound_bind.
  { eapply sound_update; [exact Hok | exact Hs | | reflexivity].
    apply sprite_ok_setAnimation; [exact Hsok|].
    destruct Hsok as [_ Hk]. unfold class_ok in Hk. rewrite Hcls in Hk. apply Hk. }
  intros _ w1 Hok1 Hext1. carry.
  eapply sound_bind.
  { apply sound_update_valid; [exact Hok1 | eapply class_valid; eassumption | ok_set]. }
  intros _ w2 Hok2 Hext2. carry.
  apply sound_update_valid; [exact Hok2 | eapply class_valid; eassumption | ok_set].
Qed.

Lemma sound_die this w :
  world_ok w -> classes w !! this = Some Lamb -> sound ext (die this) w.
Proof.
  intros Hok Hthis. unfold die.
  destruct (classes_lookup_inv _ _ _ Hthis) as (s & Hs & Hcls).
  eapply sound_deref; [exact Hs|]. rewrite Hcls. apply sound_Lamb_die; assumption.
Qed.

Lemma player_hitbox w this s :
  world_ok w -> heap w !! this = Some s -> Sprite.cls s = Player -> is_Some (Sprite.hitbox s).
Proof.
  intros Hok Hs Hcls. destruct (world_ok_sprite _ _ _ Hok Hs) as [_ Hk].
  unfold class_ok in Hk. rewrite Hcls in Hk. apply Hk.
Qed.

Lemma sound_Player_throw this w :
  world_ok w -> classes w !! this = Some Player -> sound ext (Player_throw this) w.
Proof.
  intros Hok Hthis. unfold Player_throw.
  apply sound_random; [exact Hok | | apply ext_trans].
  intros random w1 Hok1 Hext1 _. carry.
  apply sound_alloc; [apply ext_trans | exact Hok1 | apply sprite_ok_new_Knife |].
  intros w2 Hok2 Hext2 Hknife Hfresh_w2. carry.
  eapply sound_bind; [apply sound_push; [exact Hok2 | eapply class_valid, Hknife | apply Hfresh_w2]|].
  intros _ w3 Hok3 Hext3. carry.
  match goal with H : classes w3 !! this = Some Player |- _ =>
    destruct (classes_lookup_inv _ _ _ H) as (s & Hs & Hcls) end.
  eapply sound_deref; [exact Hs|].
  destruct (player_hitbox _ _ _ Hok3 Hs Hcls) as [hb Hhb]. rewrite Hhb.
  eapply sound_bind.
  { apply sound_update_valid; [exact Hok3 | eapply class_valid; eassumption | ok_set]. }
  intros _ w4 Hok4 Hext4. carry.
  apply sound_update_valid; [exact Hok4 | eapply class_valid; eassumption | ok_set].
Qed.

Ltac sound_set_this :=
  match goal with
  | Hok : world_ok ?w |- sound ext (update ?r _) ?w =>
      apply sound_update_valid; [exact Hok | eapply class_valid; eassumption | ok_set]
  end.

Lemma sound_Player_move this w :
  world_ok w -> classes w !! this = Some Player -> sound ext (Player_move this) w.
Proof.
  intros Hok Hthis. unfold Player_move. apply sound_gets.
  eapply sound_bind.
  { apply sound_when; [apply ext_refl | exact Hok | intros _; sound_set_this]. }
  intros _ w1 Hok1 Hext1. carry. eapply sound_bind.
  { apply sound_when; [apply ext_refl | exact Hok1 | intros _; sound_set_this]. }
  intros _ w2 Hok2 Hext2. carry. eapply sound_bind.
  { apply sound_when; [apply ext_refl | exact Hok2 | intros _; sound_set_this]. }
  intros _ w3 Hok3 Hext3. carry. eapply sound_bind.
  { apply sound_when; [apply ext_refl | exact Hok3 | intros _; sound_set_this]. }
  intros _ w4 Hok4 Hext4. carry. eapply sound_bind.
  { apply sound_when; [apply ext_refl | exact Hok4 | intros _]. apply sound_gets.
    apply sound_when; [apply ext_refl | exact Hok4 | intros _].
    eapply sound_bind; [apply sound_modify_gs; [exact Hok4 | gs_frame]|].
    intros _ w5 Hok5 Hext5. carry.
    eapply sound_bind; [apply sound_Player_spendKnife; eassumption|].
    intros spent w6 Hok6 Hext6. carry.
    apply sound_when; [apply ext_refl | exact Hok6 | intros _].
    apply sound_Player_throw; eassumption. }
  intros _ w5 Hok5 Hext5. carry. sound_set_this.
Qed.

Lemma sound_sprite_move this w :
  world_ok w -> (this < length (heap w))%nat -> sound ext (sprite_move this) w.
Proof.
  intros Hok Hthis. unfold sprite_move.
  destruct (valid_lookup _ _ Hthis) as [s Hs].
  pose proof (classes_lookup _ _ _ Hs) as Hc.
  eapply sound_deref; [exact Hs|].
  destruct (Sprite.cls s) eqn:Hcls; try (apply sound_ret, Hok);
    unfold Lamb_move, road_move, Onion_move, Knife_move;
    try (apply sound_gets); try sound_set_this.
  apply sound_Player_move; assumption.
Qed.

Lemma sound_sprite_finished this w :
  world_ok w -> (this < length (heap w))%nat -> sound ext (sprite_finished this) w.
Proof.
  intros Hok Hthis. unfold sprite_finished.
  destruct (valid_lookup _ _ Hthis) as [s Hs].
  pose proof (classes_lookup _ _ _ Hs) as Hc.
  eapply sound_deref; [exact Hs|].
  destruct (Sprite.cls s); try (apply sound_ret, Hok).
  eapply sound_bind; [|intros; apply sound_ret; assumption].
  apply sound_when; [apply ext_refl | exact Hok | intros _; sound_set_this].
Qed.

Lemma name_Lamb s : (Sprite.name s =? "Lamb")%string = true -> Sprite.cls s = Lamb.
Proof. unfold Sprite.name. destruct (Sprite.cls s); try discriminate; reflexivity. Qed.

Lemma sound_Player_interact this other w :
  world_ok w -> classes w !! this = Some Player -> (other < length (heap w))%nat ->
  sound ext (Player_interact this other) w.
Proof.
  intros Hok Hthis Hother. unfold Player_interact.
  destruct (valid_lookup _ _ Hother) as [o Ho].
  destruct (classes_lookup_inv _ _ _ Hthis) as (t & Ht & Hcls).
  eapply sound_deref; [exact Ho|].
  destruct (_ || _).
  { eapply sound_deref; [exact Ht|].
    apply sound_when; [apply ext_refl | exact Hok | intros _].
    apply sound_Player_die; assumption. }
  destruct (Sprite.name o =? "Lamb")%string eqn:Hlamb.
  { eapply sound_deref; [exact Ht|].
    apply sound_when; [apply ext_refl | exact Hok | intros _].
    destruct (Sprite.dead o); [apply sound_ret, Hok|].
    pose proof (classes_lookup _ _ _ Ho) as Hoc. rewrite (name_Lamb _ Hlamb) in Hoc.
    eapply sound_bind; [apply sound_Player_spendKnife; eassumption|].
    intros spent w1 Hok1 Hext1. carry.
    destruct (negb spent); [apply sound_ret, Hok1|].
    eapply sound_bind; [apply sound_die; eassumption|].
    intros _ w2 Hok2 Hext2. apply sound_modify_gs; [exact Hok2 | gs_frame]. }
  destruct (Sprite.name o =? "Knife")%string; [|apply sound_ret, Hok].
  eapply sound_deref; [exact Ht|].
  apply sound_when; [apply ext_refl | exact Hok | intros _].
  destruct (Sprite.state o) as [[|]|]; try (apply sound_Player_die; assumption).
  eapply sound_bind; [apply sound_modify_gs; [exact Hok | gs_frame]|].
  intros _ w1 Hok1 Hext1. carry. apply sound_gets.
  eapply sound_bind.
  { apply sound_when; [apply ext_refl | exact Hok1 | intros _].
    match goal with H : classes w1 !! this = Some Player |- _ =>
      destruct (classes_lookup_inv _ _ _ H) as (t1 & Ht1 & Hcls1) end.
    pose proof (world_ok_sprite _ _ _ Hok1 Ht1) as Hsok.
    eapply sound_update; [exact Hok1 | exact Ht1 | | reflexivity].
    apply sprite_ok_setAnimation; [exact Hsok|].
    destruct Hsok as [_ Hk]. unfold class_ok in Hk. rewrite Hcls1 in Hk. apply Hk. }
  intros _ w2 Hok2 Hext2. carry.
  eapply sound_bind; [apply sound_modify_gs; [exact Hok2 | gs_frame]|].
  intros _ w3 Hok3 Hext3. carry.
  apply sound_update_valid; [exact Hok3 | assumption | ok_set].
Qed.

Lemma sprite_ok_Knife_setState s :
  sprite_ok s -> Sprite.cls s = Knife ->
  sprite_ok (Knife_setState STATE_GROUNDED s) /\
  Sprite.cls (Knife_setState STATE_GROUNDED s) = Sprite.cls s.
Proof.
  intros Hok Hcls.
  assert (Hg : has_animation "grounded" s).
  { destruct Hok as [_ Hk]. unfold class_ok in Hk. rewrite Hcls in Hk. exact Hk. }
  pose proof (sprite_ok_silence _ (sprite_ok_setAnimation "grounded" s Hok Hg)) as H.
  unfold Knife_setState. split; [exact H|].
  unfold Sprite.silence. case_match; reflexivity.
Qed.

Lemma sound_Knife_interact this other w :
  world_ok w -> classes w !! this = Some Knife -> (other < length (heap w))%nat ->
  sound ext (Knife_interact this other) w.
Proof.
  intros Hok Hthis Hother. unfold Knife_interact.
  destruct (valid_lookup _ _ Hother) as [o Ho].
  destruct (classes_lookup_inv _ _ _ Hthis) as (t & Ht & Hcls).
  eapply sound_deref; [exact Ht|].
  destruct (Sprite.state t) as [[|]|]; try (apply sound_ret, Hok).
  eapply sound_deref; [exact Ho|].
  destruct (_ || _).
  { apply sound_when; [apply ext_refl | exact Hok | intros _].
    destruct (sprite_ok_Knife_setState t (world_ok_sprite _ _ _ Hok Ht) Hcls).
    eapply sound_update; eassumption. }
  destruct (Sprite.name o =? "Lamb")%string eqn:Hlamb; [|apply sound_ret, Hok].
  apply sound_when; [apply ext_refl | exact Hok | intros _].
  destruct (Sprite.dead o); [apply sound_ret, Hok|].
  pose proof (classes_lookup _ _ _ Ho) as Hoc. rewrite (name_Lamb _ Hlamb) in Hoc.
  eapply sound_bind; [apply sound_die; eassumption|].
  intros _ w1 Hok1 Hext1. carry.
  eapply sound_bind; [apply sound_modify_gs; [exact Hok1 | gs_frame]|].
  intros _ w2 Hok2 Hext2. carry.
  eapply sound_bind; [sound_set_this|].
  intros _ w3 Hok3 Hext3. carry.
  apply sound_random; [exact Hok3 | | apply ext_trans].
  intros random w4 Hok4 Hext4 _. carry. sound_set_this.
Qed.

Lemma sound_sprite_interact s1 s2 w :
  world_ok w -> (s1 < length (heap w))%nat -> (s2 < length (heap w))%nat ->
  sound ext (sprite_interact s1 s2) w.
Proof.
  intros Hok H1 H2. unfold sprite_interact.
  destruct (valid_lookup _ _ H1) as [s Hs].
  pose proof (classes_lookup _ _ _ Hs) as Hc.
  eapply sound_deref; [exact Hs|].
  destruct (Sprite.cls s); try (apply sound_ret, Hok).
  - apply sound_Player_interact; assumption.
  - apply sound_Knife_interact; assumption.
Qed.

(** *** The passes *)

Lemma ext_coll c w w' : ext w w' -> coll c w `prefix_of` coll c w'.
Proof. intros (_ & _ & Hfg & Hbg). destruct c; assumption. Qed.

Lemma sound_ret_grows {A} (a : A) w : world_ok w -> sound grows (ret a) w.
Proof. intros H. apply sound_weaken, sound_ret, H. Qed.

(** [if (s.finished()) sprites.splice(i, 1)] leaves at least [i] sprites in
    an array that had more. *)
Lemma coll_with_coll c l w : coll c (with_coll c l w) = l.
Proof. destruct c; reflexivity. Qed.

Lemma sound_prune c i s w :
  world_ok w -> (s < length (heap w))%nat -> (i < length (coll c w))%nat ->
  wp (let* f := sprite_finished s in when f (splice c i))
     (fun _ w' => world_ok w' /\ grows w w' /\ (i <= length (coll c w'))%nat) w.
Proof.
  intros Hok Hs Hi. apply post_bind.
  eapply post_conseq; [apply sound_sprite_finished; assumption|].
  intros f w1 [Hok1 Hext1].
  pose proof (prefix_length _ _ (ext_coll c _ _ Hext1)) as Hlen.
  destruct f; simpl.
  - pose proof (sound_splice c i w1 Hok1) as Hsplice.
    unfold sound, post in *. rewrite splice_ok in *.
    destruct Hsplice as [Hok2 Hg2].
    split; [exact Hok2|]. split; [eapply ext_grows_trans; eassumption|].
    rewrite coll_with_coll.
    assert (Hi1 : (i < length (coll c w1))%nat) by lia.
    pose proof (length_delete (coll c w1) i (lookup_lt_is_Some_2 _ _ Hi1)). lia.
  - split; [exact Hok1|]. split; [apply Hext1 | lia].
Qed.

Lemma sound_move_loop c (n : nat) : forall w,
  world_ok w -> (n <= length (coll c w))%nat -> sound grows (move_loop c n) w.
Proof.
  induction n as [|i IH]; intros w Hok Hn; simpl; [apply sound_ret_grows, Hok|].
  apply sound_gets.
  destruct (lookup_lt_is_Some_2 (coll c w) i ltac:(lia)) as [s Hs]. rewrite Hs.
  assert (Hvalid : (s < length (heap w))%nat).
  { destruct Hok as (_ & Hfg & Hbg & _).
    destruct c; [eapply (Forall_lookup_1 _ _ _ _ Hbg Hs) | eapply (Forall_lookup_1 _ _ _ _ Hfg Hs)]. }
  eapply sound_bind_ext_grows; [apply sound_sprite_move; assumption|].
  intros _ w1 Hok1 Hext1. carry.
  pose proof (prefix_length _ _ (ext_coll c _ _ Hext1)) as Hlen1.
  pose proof (sound_prune c i s w1 Hok1 ltac:(assumption) ltac:(lia)) as Hprune.
  unfold sound. unfold post in *. unfold bind in *.
  destruct (sprite_finished s w1) as [[f w2]| |]; try contradiction.
  destruct (when f (splice c i) w2) as [[[] w3]| |]; try contradiction.
  destruct Hprune as (Hok3 & Hg3 & Hlen3).
  pose proof (IH w3 Hok3 Hlen3) as Hrest. unfold sound, post in Hrest.
  destruct (move_loop c i w3) as [[visited w4]| |]; try contradiction.
  simpl. destruct Hrest as [Hok4 Hg4].
  split; [exact Hok4 | eapply grows_trans; eassumption].
Qed.

Lemma sound_move c w : world_ok w -> sound grows (move c) w.
Proof. intros Hok. unfold move. apply sound_gets. apply sound_move_loop; [exact Hok | lia]. Qed.

(** The scan of [interact]: it raises nothing; it may run out of fuel. *)
Lemma interact_scan_sound c s1 : forall fuel k w,
  world_ok w -> (s1 < length (heap w))%nat ->
  match interact_scan fuel c s1 k w with
  | Ok (_, w') => world_ok w' /\ ext w w'
  | TypeError => False
  | Timeout => True
  end.
Proof.
  induction fuel as [|fuel IH]; intros k w Hok Hs1; simpl; [exact Logic.I|].
  unfold bind at 1, gets.
  destruct (coll c w !! k) as [s2|] eqn:Hk; [|split; [exact Hok | apply ext_refl]].
  assert (Hvalid : (s2 < length (heap w))%nat).
  { destruct Hok as (_ & Hfg & Hbg & _).
    destruct c; [eapply (Forall_lookup_1 _ _ _ _ Hbg Hk) | eapply (Forall_lookup_1 _ _ _ _ Hfg Hk)]. }
  pose proof (sound_sprite_interact s1 s2 w Hok Hs1 Hvalid) as Hstep.
  unfold sound, post in Hstep. unfold bind.
  destruct (sprite_interact s1 s2 w) as [[[] w1]| |]; try contradiction.
  destruct Hstep as [Hok1 Hext1]. carry.
  specialize (IH (S k) w1 Hok1 ltac:(assumption)).
  destruct (interact_scan fuel c s1 (S k) w1) as [[[] w2]| |]; try assumption.
  split; [apply IH | eapply ext_trans; [exact Hext1 | apply IH]].
Qed.

Lemma sound_interact_loop c (n : nat) : forall w,
  world_ok w -> (n <= length (coll c w))%nat -> sound grows (interact_loop c n) w.
Proof.
  induction n as [|i IH]; intros w Hok Hn; simpl; [apply sound_ret_grows, Hok|].
  apply sound_gets.
  destruct (lookup_lt_is_Some_2 (coll c w) i ltac:(lia)) as [s Hs]. rewrite Hs.
  assert (Hvalid : (s < length (heap w))%nat).
  { destruct Hok as (_ & Hfg & Hbg & _).
    destruct c; [eapply (Forall_lookup_1 _ _ _ _ Hbg Hs) | eapply (Forall_lookup_1 _ _ _ _ Hfg Hs)]. }
  pose proof (interact_scan_sound c s (scan_fuel (coll c w)) 0 w Hok Hvalid) as Hscan.
  pose proof (interact_scan_fuel_suffices c s w) as Hfuel.
  unfold sound, post. unfold bind at 1.
  destruct (interact_scan (scan_fuel (coll c w)) c s 0 w) as [[[] w1]| |]; try contradiction.
  destruct Hscan as [Hok1 Hext1]. carry.
  pose proof (prefix_length _ _ (ext_coll c _ _ Hext1)) as Hlen1.
  pose proof (sound_prune c i s w1 Hok1 ltac:(assumption) ltac:(lia)) as Hprune.
  unfold post in Hprune. unfold bind in *.
  destruct (sprite_finished s w1) as [[f w2]| |]; try contradiction.
  destruct (when f (splice c i) w2) as [[[] w3]| |]; try contradiction.
  destruct Hprune as (Hok3 & Hg3 & Hlen3).
  pose proof (IH w3 Hok3 Hlen3) as Hrest. unfold sound, post in Hrest.
  destruct (interact_loop c i w3) as [[[] w4]| |]; try contradiction.
  destruct Hrest as [Hok4 Hg4].
  split; [exact Hok4|].
  eapply grows_trans; [eapply ext_grows_trans; eassumption | exact Hg4].
Qed.

Lemma sound_interact c w : world_ok w -> sound grows (interact c) w.
Proof.
  intros Hok. unfold interact. apply sound_gets. apply sound_interact_loop; [exact Hok | lia].
Qed.

(** *** Rendering *)

Lemma sound_render_sprite r w :
  world_ok w -> (r < length (heap w))%nat -> sound ext (render_sprite r) w.
Proof.
  intros Hok Hr. unfold render_sprite.
  destruct (valid_lookup _ _ Hr) as [s Hs].
  pose proof (world_ok_sprite _ _ _ Hok Hs) as Hsok.
  eapply sound_deref; [exact Hs|].
  destruct (nextFrame_ok s (proj1 Hsok)) as (image & s' & Hnext & _ & _).
  rewrite Hnext.
  destruct (sprite_ok_nextFrame _ _ _ Hsok Hnext) as [Hsok' Hcls'].
  eapply sound_bind; [eapply sound_update; eassumption|].
  intros _ w1 Hok1 _.
  destruct image; [|apply sound_ret, Hok1].
  apply sound_modify_other; [exact Hok1 | reflexivity | reflexivity].
Qed.

Lemma sound_render (l : list nat) : forall w,
  world_ok w -> Forall (fun r => (r < length (heap w))%nat) l -> sound ext (render l) w.
Proof.
  induction l as [|r rest IH]; intros w Hok Hl; simpl; [apply sound_ret, Hok|].
  apply Forall_cons in Hl as [Hr Hrest].
  eapply sound_bind; [apply sound_render_sprite; assumption|].
  intros _ w1 Hok1 Hext1. apply IH; [exact Hok1|].
  eapply Forall_valid_grows; [apply Hext1 | exact Hrest].
Qed.

Lemma sound_prepareRender w : world_ok w -> sound grows prepareRender w.
Proof.
  intros Hok. unfold prepareRender.
  eapply sound_bind_ext_grows.
  { apply sound_modify_other; [exact Hok | reflexivity | reflexivity]. }
  intros _ w1 Hok1 _. apply sound_gets.
  destruct (keys_y_ok (coll Sprites w1) w1 ltac:(apply Hok1)) as (keyed & Hkeys & Hsnd).
  unfold sound, post, bind. rewrite Hkeys.
  pose proof (sort_by_y_perm keyed) as Hperm. rewrite Hsnd in Hperm.
  destruct Hok1 as (H1 & H2 & H3 & H4 & H5 & H6 & H7).
  split; [|apply grows_same; reflexivity].
  unfold world_ok. simpl. repeat split; try assumption.
  - rewrite Hperm. exact H2.
  - rewrite Hperm. exact H6.
Qed.

Lemma sound_render_all w : world_ok w -> sound grows render_all w.
Proof.
  intros Hok. unfold render_all.
  eapply sound_bind_grows; [apply sound_prepareRender, Hok|].
  intros _ w1 Hok1 _. apply sound_gets.
  eapply sound_bind_grows; [apply sound_weaken, sound_render; [exact Hok1 | apply Hok1]|].
  intros _ w2 Hok2 _. apply sound_gets.
  apply sound_weaken, sound_render; [exact Hok2 | apply Hok2].
Qed.

(** *** The game loop *)

Lemma sound_spawn (mk : Q -> Sprite.t) c w :
  (forall q, sprite_ok (mk q)) -> world_ok w ->
  sound ext (let* random := Math_random in let* r := alloc (mk random) in push c r) w.
Proof.
  intros Hmk Hok.
  apply sound_random; [exact Hok | | apply ext_trans].
  intros random w1 Hok1 _ _.
  apply sound_alloc; [apply ext_trans | exact Hok1 | apply Hmk |].
  intros w2 Hok2 _ Hcls Hfresh_w2. apply sound_push; [exact Hok2 | eapply class_valid, Hcls | apply Hfresh_w2].
Qed.

Lemma sound_set_lamb r w :
  world_ok w -> (r < length (heap w))%nat ->
  sound ext (modify_gs (GameState.set_lamb (Some r))) w.
Proof.
  intros (H1 & H2 & H3 & H4 & H5 & H6 & H7) Hr. split; [|apply ext_same; reflexivity].
  unfold world_ok. simpl. repeat split; try assumption.
  intros l [= <-]. exact Hr.
Qed.

Lemma sound_push_road_lines (ys : list Q) : forall w,
  world_ok w -> sound ext (push_road_lines ys) w.
Proof.
  induction ys as [|y rest IH]; intros w Hok; simpl; [apply sound_ret, Hok|].
  apply sound_alloc; [apply ext_trans | exact Hok | apply sprite_ok_new_RoadLine |].
  intros w1 Hok1 _ Hcls Hfresh_w1.
  eapply sound_bind; [apply sound_push; [exact Hok1 | eapply class_valid, Hcls | apply Hfresh_w1]|].
  intros _ w2 Hok2 _. apply IH, Hok2.
Qed.

Ltac carry_player :=
  repeat match goal with
  | He : ext ?w ?w1, H : GameState.player (gamestate ?w) = Some ?p |- _ =>
      lazymatch goal with
      | _ : GameState.player (gamestate w1) = Some p |- _ => fail
      | _ => assert (GameState.player (gamestate w1) = Some p)
               by (rewrite (proj1 (proj2 He)); exact H)
      end
  end.

Ltac step tac :=
  eapply sound_bind_ext_grows;
  [ tac
  | let w1 := fresh "w" in
    let Hok := fresh "Hok" in
    let Hext := fresh "Hext" in
    intros ? w1 Hok Hext; carry; carry_player ].

Lemma sound_running_tick w :
  world_ok w ->
  (exists p, GameState.player (gamestate w) = Some p /\ (p < length (heap w))%nat) ->
  sound grows running_tick w.
Proof.
  intros Hok (p & Hp & Hpv). unfold running_tick. apply sound_gets.
  (* new lamb? *)
  step ltac:(idtac).
  { destruct (GameState.lamb (gamestate w)) as [l|] eqn:Hl; [|apply sound_ret, Hok].
    apply sound_sprite_finished; [exact Hok | apply Hok, Hl]. }
  step ltac:(idtac).
  { apply sound_when; [apply ext_refl | assumption | intros _].
    apply sound_random; [assumption | | apply ext_trans].
    intros random wi1 Hoki1 _ _.
    apply sound_alloc; [apply ext_trans | exact Hoki1 | apply sprite_ok_new_Lamb |].
    intros wi2 Hoki2 _ Hcls Hfresh_wi2.
    pose proof (class_valid _ _ _ Hcls) as Hvalid.
    pose proof (sound_set_lamb _ wi2 Hoki2 Hvalid) as [Hoki3 Hexti3].
    pose proof (sound_push Sprites _ _ Hoki3 Hvalid (Hfresh_wi2 Sprites)) as [Hoki4 Hexti4].
    split; [exact Hoki4 | exact (ext_trans _ _ _ Hexti3 Hexti4)]. }
  (* new broccoli? *)
  apply sound_gets.
  step ltac:(apply sound_modify_gs; [assumption | gs_frame]).
  step ltac:(idtac).
  { apply sound_when; [apply ext_refl | assumption | intros _].
    eapply sound_bind; [apply sound_modify_gs; [assumption | gs_frame]|].
    intros _ w' Hok' _. apply (sound_spawn new_Broccoli); [apply sprite_ok_new_Broccoli | exact Hok']. }
  (* new road lines? *)
  apply sound_gets.
  step ltac:(apply sound_modify_gs; [assumption | gs_frame]).
  step ltac:(idtac).
  { apply sound_when; [apply ext_refl | assumption | intros _].
    eapply sound_bind; [apply sound_modify_gs; [assumption | gs_frame]|].
    intros _ w' Hok' _. apply sound_push_road_lines, Hok'. }
  (* new sidewalk? *)
  apply sound_gets.
  step ltac:(apply sound_modify_gs; [assumption | gs_frame]).
  step ltac:(idtac).
  { apply sound_when; [apply ext_refl | assumption | intros _].
    eapply sound_bind; [apply sound_modify_gs; [assumption | gs_frame]|].
    intros _ w' Hok' _.
    apply sound_alloc; [apply ext_trans | exact Hok' | apply sprite_ok_new_Sidewalk |].
    intros wi2 Hoki2 _ Hcls Hfresh_wi2. apply sound_push; [exact Hoki2 | eapply class_valid, Hcls | apply Hfresh_wi2]. }
  (* new onions? *)
  apply sound_gets.
  step ltac:(idtac).
  { apply sound_when; [apply ext_refl | assumption | intros _].
    eapply sound_bind; [apply sound_modify_gs; [assumption | gs_frame]|].
    intros _ w' Hok' Hext'. carry.
    apply sound_when; [apply ext_refl | assumption | intros _].
    match goal with H : GameState.player (gamestate _) = Some p |- _ => rewrite H end.
    destruct (valid_lookup w' p ltac:(assumption)) as [player Hplayer].
    eapply sound_deref; [exact Hplayer|].
    apply sound_alloc; [apply ext_trans | exact Hok' | apply sprite_ok_new_Onion |].
    intros wi2 Hoki2 _ Hcls Hfresh_wi2.
    eapply sound_bind; [apply sound_push; [exact Hoki2 | eapply class_valid, Hcls | apply Hfresh_wi2]|].
    intros _ wi3 Hoki3 _. apply sound_modify_gs; [exact Hoki3 | gs_frame]. }
  (* new knife? *)
  apply sound_gets.
  step ltac:(apply sound_modify_gs; [assumption | gs_frame]).
  step ltac:(idtac).
  { apply sound_when; [apply ext_refl | assumption | intros _].
    eapply sound_bind; [apply sound_modify_gs; [assumption | gs_frame]|].
    intros _ w' Hok' _.
    apply (sound_spawn (new_Knife STATE_GROUNDED)); [apply sprite_ok_new_Knife | exact Hok']. }
  step ltac:(apply sound_modify_gs; [assumption | gs_frame]).
  eapply sound_bind_grows; [apply sound_move; assumption|]. intros _ wa Hoka _.
  eapply sound_bind_grows; [apply sound_move; assumption|]. intros _ wb Hokb _.
  apply sound_interact; assumption.
Qed.

Lemma sound_gameloop w : world_ok w -> sound grows gameloop w.
Proof.
  intros Hok. unfold gameloop.
  destruct (loaded_ok w ltac:(apply Hok)) as (go & b & Hgo).
  assert (Hokb : world_ok (set_ready b w)) by exact Hok.
  assert (Hgrows : grows w (set_ready b w)) by (apply grows_same; reflexivity).
  apply post_bind. unfold post at 1. rewrite Hgo.
  eapply post_conseq with (Q := fun _ w' => world_ok w' /\ grows (set_ready b w) w').
  2: { intros a w' [H1 H2]. split; [exact H1 | exact (grows_trans _ _ _ Hgrows H2)]. }
  destruct go; simpl; [|split; [exact Hokb | apply grows_refl]].
  change (sound grows
            (let* g := gets gamestate in
             let* _ := match GameState.phase g with
                       | PHASE_ATTRACT => ret tt
                       | PHASE_RUNNING => running_tick
                       | PHASE_GAME_OVER => game_over_tick
                       end in render_all) (set_ready b w)).
  apply sound_gets.
  eapply sound_bind_grows; [|intros _ w1 Hok1 _; apply sound_render_all, Hok1].
  destruct (GameState.phase (gamestate (set_ready b w))) eqn:Hphase.
  - apply sound_ret_grows, Hokb.
  - apply sound_running_tick; [exact Hokb|]. apply Hokb, Hphase.
  - apply sound_weaken. unfold game_over_tick. apply sound_gets.
    eapply sound_bind; [apply sound_modify_gs; [exact Hokb | gs_frame]|].
    intros _ w1 Hok1 _.
    apply sound_when; [apply ext_refl | exact Hok1 | intros _; apply sound_setMusic, Hok1].
Qed.

Lemma sound_startGameAndSound w : world_ok w -> sound grows startGameAndSound w.
Proof.
  intros Hok. unfold startGameAndSound. apply sound_gets.
  destruct (GameState.phase (gamestate w)).
  - apply sound_setGamePhase_running, Hok.
  - apply sound_ret_grows, Hok.
  - apply sound_setGamePhase_attract, Hok.
Qed.

Lemma sound_set_input f w : world_ok w -> sound grows (set_input f) w.
Proof.
  intros Hok. apply sound_weaken. unfold set_input.
  apply sound_modify_gs; [exact Hok | gs_frame].
Qed.

Lemma sound_keydown kc w : world_ok w -> sound grows (keydown kc) w.
Proof.
  intros Hok. unfold keydown.
  eapply sound_bind_grows.
  { destruct (_ || _); [apply sound_startGameAndSound, Hok | apply sound_ret_grows, Hok]. }
  intros _ w1 Hok1 _.
  repeat case_match; first [apply sound_set_input, Hok1 | apply sound_ret_grows, Hok1].
Qed.

Lemma sound_keyup kc w : world_ok w -> sound grows (keyup kc) w.
Proof.
  intros Hok. unfold keyup.
  repeat case_match; first [apply sound_set_input, Hok | apply sound_ret_grows, Hok].
Qed.

(** The sprite that an event of the loader names exists. *)
Definition event_ok (e : Event) (w : World) : Prop :=
  match e with
  | ImageLoaded r _ | FramesDecoded r _ => (r < length (heap w))%nat
  | _ => True
  end.

Lemma sound_handle e w : world_ok w -> event_ok e w -> sound grows (handle e) w.
Proof.
  intros Hok He. destruct e; simpl in *.
  - apply sound_gameloop, Hok.
  - apply sound_keydown, Hok.
  - apply sound_keyup, Hok.
  - apply sound_startGameAndSound, Hok.
  - apply sound_weaken. unfold image_onload.
    apply sound_update_valid; [exact Hok | exact He |].
    intros s Hs. cbn. destruct (Sprite.hitbox s) eqn:Hhb; (split; [|reflexivity]).
    + destruct Hs as [Hc Hk]. split; [exact Hc|]. exact Hk.
    + destruct Hs as [Hc Hk]. split; [exact Hc|].
      unfold class_ok in *. cbn. destruct (Sprite.cls s); try exact Hk.
      destruct Hk as (K1 & K2 & K3 & K4). repeat split; try assumption. eauto.
  - apply sound_weaken. unfold frames_decoded.
    apply sound_update_valid; [exact Hok | exact He | ok_set].
Qed.

(** The events of a run name sprites that exist when they happen. *)
Fixpoint events_ok (events : list Event) (w : World) : Prop :=
  match events with
  | [] => True
  | e :: rest =>
    event_ok e w /\
    match handle e w with
    | Ok (_, w') => events_ok rest w'
    | TypeError | Timeout => True
    end
  end.

Lemma world_ok_initial hi storage randoms : world_ok (initial_world hi storage randoms).
Proof.
  unfold world_ok. cbn. repeat split; try constructor; discriminate.
Qed.

Lemma sound_returns {A} (m : M A) w :
  sound grows m w -> exists a w', m w = Ok (a, w') /\ world_ok w'.
Proof.
  unfold sound. intros H. apply wp_run in H as (a & w' & Hrun & Hok & _). eauto.
Qed.

Lemma game_starts hi storage randoms :
  exists w0, game (initial_world hi storage randoms) = Ok (tt, w0) /\ world_ok w0.
Proof.
  assert (H : sound grows game (initial_world hi storage randoms)).
  { unfold game. eapply sound_bind_grows.
    - apply sound_setGamePhase_attract, world_ok_initial.
    - intros _ w1 Hok1 _. apply sound_gameloop, Hok1. }
  destruct (sound_returns _ _ H) as ([] & w0 & Hrun & Hok). exists w0. split; assumption.
Qed.

Lemma run_returns (events : list Event) : forall w,
  world_ok w -> events_ok events w ->
  exists w', run events w = Ok (tt, w') /\ world_ok w'.
Proof.
  induction events as [|e rest IH]; intros w Hok Hev.
  - exists w. split; [reflexivity | exact Hok].
  - destruct Hev as [He Hrest].
    destruct (sound_returns _ _ (sound_handle e w Hok He)) as ([] & w1 & Hrun & Hok1).
    rewrite Hrun in Hrest.
    destruct (IH w1 Hok1 Hrest) as (w' & Hrun' & Hok').
    exists w'. split; [|exact Hok'].
    change (run (e :: rest) w) with (bind (handle e) (fun _ => run rest) w).
    eapply bind_ok; eassumption.
Qed.

(** X27: the game raises no error. [game()] returns, in a well-formed
    world; and from a well-formed world every sequence of events is handled
    to the end, each handler returning in a well-formed world, provided that
    the image events are for sprites that exist. The status bar, which is
    not part of [gameloop] here, is apart. *)
Theorem game_raises_no_error :
  (forall hi storage randoms,
      exists w0, game (initial_world hi storage randoms) = Ok (tt, w0) /\ world_ok w0) /\
  (forall events w,
      world_ok w -> events_ok events w ->
      exists w', run events w = Ok (tt, w') /\ world_ok w').
Proof. split; [exact game_starts | exact run_returns]. Qed.

(** The page loads; the images of the attract phase load; a click starts a
    run; the player's image loads; the player walks to the right and
    throws. *)
Definition session : list Event :=
  [ImageLoaded 0 380; FramesDecoded 0 [0%nat];
   ImageLoaded 1 256; FramesDecoded 1 [0; 1; 2; 3; 4]%nat;
   ImageLoaded 2 400; FramesDecoded 2 [0; 1; 2; 3; 4]%nat; Tick;
   Click; ImageLoaded 3 32; FramesDecoded 3 [0; 1; 2; 3; 4; 5; 6; 7]%nat; Tick;
   KeyDown KEY_RIGHTARROW; KeyDown KEY_SPACE] ++ repeat Tick 30.

Lemma game_raises_no_error_witness :
  exists w',
    run session (world_after game (initial_world 0 None [0.5; 0.25; 0.75]%Q)) = Ok (tt, w') /\
    world_ok w'.
Proof.
  destruct game_raises_no_error as [Hstart Hrun].
  apply Hrun.
  - destruct (Hstart 0%Z None [0.5; 0.25; 0.75]%Q) as (w0 & Hgame & Hok).
    unfold world_after. rewrite Hgame. exact Hok.
  - vm_compute. repeat split; repeat constructor.
Defined.
